(** * RAG PDF Q&A assistant: the retrieval and answering pipeline

    A shallow embedding of [llm_handler.py], [embedding_manager.py],
    [rag_pipeline.py], [pdf_processor.py] and [app.py], and the properties
    proved on it.

    Python values are embedded as follows.
    - [str] is the [string] of the bytes of its UTF-8 encoding, as the
      literals of this file are; a character takes one to four bytes, and
      what depends on characters ([strip], [len]) reads them as such.
      [float] is the kernel's binary64 [float], so that [1.0 - dist] and
      [sum(scores) / len(scores)] round as they do in Python.
    - A function that can raise is a computation in the monad [M]: it takes
      the interpreter state and gives back an [outcome] (a returned value or
      a raised exception) and the new state.  [try_except] is Python's
      [try: ... except Exception as e: ...].  The exceptions of the model
      are the instances of [Exception]; [KeyboardInterrupt] and
      [SystemExit], which no handler of the program catches, are left out.
    - The external collaborators (transformers, sentence-transformers,
      chromadb) are the fields of a record [Collaborators]: a call returns
      or raises as a function of its arguments, any function.  Every call
      and every log line is appended to the [trace] of the state.
    - Two collaborators are given a content, from the spec, because claims
      are about what they compute: the vector store behind
      [collection.add] ([upsert]) and langchain's text splitter behind
      [chunk_text] ([split_text]).
    - What lies outside the pipeline (the files, the deletions of the
      store, the Streamlit page) runs in a second monad [W], on a [world]
      that holds the state of the pipeline, the files written, the session
      state and the list of [effects]; its collaborators are the fields of
      a record [Outside]. *)

From Stdlib Require Import ZArith List String Ascii Floats Lia.
From Stdlib Require Import DecimalString DecimalNat.
From stdpp Require Import gmap strings list.

Local Open Scope string_scope.
Local Open Scope Z_scope.

(** ** Python values *)

(** An instance of [Exception]; [str_exn e] is Python's [str(e)]. *)
Inductive exn : Type :=
| Exception (msg : string).

Definition str_exn (e : exn) : string :=
  match e with Exception msg => msg end.

(** The result of evaluating an expression: a value, or a raised exception. *)
Inductive outcome (A : Type) : Type :=
| Return (a : A)
| Raise (e : exn).
Arguments Return {A} a.
Arguments Raise {A} e.

(** A reference to an object owned by a collaborator (a tokenizer, a model,
    a client, a pipeline). *)
Record pyobj : Type := PyObj { obj_id : nat }.

(** The values found in chromadb metadata and in pipeline outputs; a value
    of any other type is a [PyObject] with the name of its type. *)
Inductive pyval : Type :=
| PyNone
| PyBool (b : bool)
| PyInt (z : Z)
| PyFloat (f : float)
| PyStr (s : string)
| PyObject (type_name : string).

(** A [Dict[str, Any]]. *)
Abbreviation pydict := (gmap string pyval).

(** [d.get(key, default)] *)
Definition dict_get (d : pydict) (key : string) (default : pyval) : pyval :=
  match d !! key with
  | Some v => v
  | None => default
  end.

Definition nl : string := String (ascii_of_nat 10) EmptyString.

(** ** Interpreter state and the trace of effects *)

Inductive event : Type :=
| LogInfo (msg : string)
| LogError (msg : string)
| Call_AutoTokenizer_from_pretrained (model_name : string)
| Call_AutoModelForSeq2SeqLM_from_pretrained (model_name : string)
| Call_pipeline (model tokenizer : pyobj) (device : Z)
| Call_pipe (pipe : pyobj) (prompt : string) (max_new_tokens : Z)
| Call_SentenceTransformer (model_name : string)
| Call_encode (model : pyobj) (texts : list string)
| Call_chromadb_Client (persist_directory : string)
| Call_get_or_create_collection (client : pyobj) (name : string)
| Call_collection_query (collection : pyobj) (query_embedding : list float)
                        (n_results : Z)
| Call_collection_add (collection : pyobj) (embeddings : list (list float))
                      (documents ids : list string)
                      (metadatas : list pydict).

(** The events that belong to the generation collaborator (everything
    [llm_handler.py] calls). *)
Definition is_generation_call (ev : event) : bool :=
  match ev with
  | Call_AutoTokenizer_from_pretrained _
  | Call_AutoModelForSeq2SeqLM_from_pretrained _
  | Call_pipeline _ _ _
  | Call_pipe _ _ _ => true
  | _ => false
  end.

(** What the vector store keeps under one id. *)
Record StoredVector : Type := {
  embedding : list float;
  document : string;
  stored_metadata : pydict
}.

(** [trace] lists the effects in the order they happened.  [llm_cache] is
    the store of [@lru_cache(maxsize=2)] on [load_llm], most recently used
    first; [embedding_model_cache] the one of [@lru_cache(maxsize=1)] on
    [load_embedding_model], which takes no argument.  [collections] is the
    content of the vector store: per collection name, the stored vectors by
    id (a name that is absent stands for an empty collection). *)
Record state : Type := State {
  trace : list event;
  llm_cache : list (string * pyobj);
  embedding_model_cache : option pyobj;
  collections : gmap string (gmap string StoredVector)
}.

Definition set_trace (t : list event) (s : state) : state :=
  {| trace := t;
     llm_cache := llm_cache s;
     embedding_model_cache := embedding_model_cache s;
     collections := collections s |}.

Definition set_llm_cache (c : list (string * pyobj)) (s : state) : state :=
  {| trace := trace s;
     llm_cache := c;
     embedding_model_cache := embedding_model_cache s;
     collections := collections s |}.

Definition set_embedding_model_cache (c : option pyobj) (s : state) : state :=
  {| trace := trace s;
     llm_cache := llm_cache s;
     embedding_model_cache := c;
     collections := collections s |}.

Definition set_collections (c : gmap string (gmap string StoredVector))
                           (s : state) : state :=
  {| trace := trace s;
     llm_cache := llm_cache s;
     embedding_model_cache := embedding_model_cache s;
     collections := c |}.

(** The stored vectors of a collection. *)
Definition collection_of (name : string) (s : state)
  : gmap string StoredVector :=
  default ∅ (collections s !! name).

Definition M (A : Type) : Type := state -> outcome A * state.

Definition ret {A} (a : A) : M A := fun s => (Return a, s).

Definition raise {A} (e : exn) : M A := fun s => (Raise e, s).

Definition bind {A B} (m : M A) (k : A -> M B) : M B :=
  fun s =>
    match m s with
    | (Return a, s') => k a s'
    | (Raise e, s') => (Raise e, s')
    end.

Notation "'let!' x ':=' c1 'in' c2" := (bind c1 (fun x => c2))
  (at level 10, x name, c1 at level 100, c2 at level 200).

(** [try: body except Exception as e: handler e] *)
Definition try_except {A} (body : M A) (handler : exn -> M A) : M A :=
  fun s =>
    match body s with
    | (Return a, s') => (Return a, s')
    | (Raise e, s') => handler e s'
    end.

Definition emit (ev : event) : M unit :=
  fun s => (Return tt, set_trace (trace s ++ [ev]) s).

(** A call into a collaborator: the call is recorded, then it returns or
    raises. *)
Definition call {A} (ev : event) (o : outcome A) : M A :=
  let! _ := emit ev in fun s => (o, s).

Definition logger_info (msg : string) : M unit := emit (LogInfo msg).
Definition logger_error (msg : string) : M unit := emit (LogError msg).

(** [l[0]], raising [IndexError] on an empty list. *)
Definition index0 {A} (l : list A) : M A :=
  match l with
  | x :: _ => ret x
  | [] => raise (Exception "list index out of range")
  end.

(** ** The collaborators *)

(** What [collection.query(..., include=[documents, distances, metadatas])]
    returns: per query embedding, the rank-ordered documents, distances and
    metadatas. *)
Record QueryResult : Type := {
  documents : list (list string);
  distances : list (list float);
  metadatas : list (list pydict)
}.

Record Collaborators : Type := {
  (* transformers, torch *)
  AutoTokenizer_from_pretrained : string -> outcome pyobj;
  AutoModelForSeq2SeqLM_from_pretrained : string -> outcome pyobj;
  cuda_is_available : bool;
  pipeline : pyobj -> pyobj -> Z -> outcome pyobj;
  pipe_call : pyobj -> string -> Z -> outcome (list pydict);
  (* sentence-transformers; [encode] is [model.encode(...).tolist()] *)
  SentenceTransformer : string -> outcome pyobj;
  encode : pyobj -> list string -> outcome (list (list float));
  (* chromadb *)
  chromadb_Client : string -> outcome pyobj;
  client_get_or_create_collection : pyobj -> string -> outcome pyobj;
  collection_query : pyobj -> list float -> Z -> outcome QueryResult;
  (* whether [collection.add] goes through or raises; what it stores is
     [upsert] below *)
  collection_add : pyobj -> list (list float) -> list string -> list string
                   -> list pydict -> outcome unit
}.

(** ** llm_handler.py *)

Section Pipeline.

Variable C : Collaborators.

Definition DEFAULT_MODEL : string := "google/flan-t5-base".

(** The body of [load_llm], without its cache. *)
Definition load_llm_uncached (model_name : string) : M pyobj :=
  try_except
    (let! _ := logger_info ("Loading LLM: " ++ model_name) in
     let! tokenizer := call (Call_AutoTokenizer_from_pretrained model_name)
                            (AutoTokenizer_from_pretrained C model_name) in
     let! model := call (Call_AutoModelForSeq2SeqLM_from_pretrained model_name)
                        (AutoModelForSeq2SeqLM_from_pretrained C model_name) in
     let device := if cuda_is_available C then 0 else -1 in
     let! pipe := call (Call_pipeline model tokenizer device)
                       (pipeline C model tokenizer device) in
     let! _ := logger_info ("LLM loaded: " ++ model_name) in
     ret pipe)
    (fun e =>
       let! _ := logger_error ("Failed to load LLM " ++ model_name ++ ": "
                               ++ str_exn e) in
       raise e).

Fixpoint cache_lookup (key : string) (cache : list (string * pyobj))
  : option pyobj :=
  match cache with
  | [] => None
  | (k, v) :: rest => if String.eqb k key then Some v else cache_lookup key rest
  end.

Definition cache_remove (key : string) (cache : list (string * pyobj))
  : list (string * pyobj) :=
  List.filter (fun kv => negb (String.eqb (fst kv) key)) cache.

(** [@lru_cache(maxsize=2) def load_llm(model_name)]: a hit returns the
    cached pipeline and makes it the most recent entry; a miss runs the body
    and, when it returns, keeps the two most recent entries.  A raising call
    caches nothing. *)
Definition load_llm (model_name : string) : M pyobj :=
  fun s =>
    match cache_lookup model_name (llm_cache s) with
    | Some pipe =>
        (Return pipe,
         set_llm_cache ((model_name, pipe)
                        :: cache_remove model_name (llm_cache s)) s)
    | None =>
        match load_llm_uncached model_name s with
        | (Return pipe, s') =>
            (Return pipe,
             set_llm_cache (firstn 2 ((model_name, pipe) :: llm_cache s')) s')
        | (Raise e, s') => (Raise e, s')
        end
    end.

Definition format_prompt (question context : string) : string :=
  "You are a helpful assistant. "
  ++ "Answer the question using ONLY the context below. "
  ++ "If the answer is not in the context, say 'I don't know.' "
  ++ "Be as detailed as possible." ++ nl ++ nl
  ++ "Context:" ++ nl ++ context ++ nl ++ nl
  ++ "Question: " ++ question ++ nl ++ "Answer:".

(** [type(v).__name__] *)
Definition type_name_of (v : pyval) : string :=
  match v with
  | PyNone => "NoneType"
  | PyBool _ => "bool"
  | PyInt _ => "int"
  | PyFloat _ => "float"
  | PyStr _ => "str"
  | PyObject n => n
  end.

(** [d[key]], raising [KeyError]. *)
Definition getitem (d : pydict) (key : string) : M pyval :=
  match d !! key with
  | Some v => ret v
  | None => raise (Exception ("'" ++ key ++ "'"))
  end.

(** The characters [str.strip()] removes, each as the bytes of its UTF-8
    encoding: U+0009 to U+000D, U+001C to U+0020, U+0085, U+00A0, U+1680,
    U+2000 to U+200A, U+2028, U+2029, U+202F, U+205F and U+3000. *)
Definition is_space (p : list ascii) : bool :=
  match map nat_of_ascii p with
  | [a] => ((9 <=? a) && (a <=? 13)) || ((28 <=? a) && (a <=? 32))
  | [a; b] => (a =? 194) && ((b =? 133) || (b =? 160))
  | [a; b; c] =>
      ((a =? 225) && (b =? 154) && (c =? 128))
      || ((a =? 226) && (b =? 128)
          && (((128 <=? c) && (c <=? 138))
              || (c =? 168) || (c =? 169) || (c =? 175)))
      || ((a =? 226) && (b =? 129) && (c =? 159))
      || ((a =? 227) && (b =? 128) && (c =? 128))
  | _ => false
  end%nat.

(** [strip_front space l]: [l] without the characters at its front that
    [space] accepts, a character being one, two or three bytes. *)
Fixpoint strip_front (space : list ascii -> bool) (l : list ascii)
  : list ascii :=
  match l with
  | a :: r1 =>
      if space [a] then strip_front space r1
      else
        match r1 with
        | b :: r2 =>
            if space [a; b] then strip_front space r2
            else
              match r2 with
              | c :: r3 =>
                  if space [a; b; c] then strip_front space r3 else l
              | [] => l
              end
        | [] => l
        end
  | [] => []
  end.

(** [s.lstrip()] *)
Definition lstrip (l : list ascii) : list ascii := strip_front is_space l.

(** [s.rstrip()]: the text is read from its end, and each character with
    it. *)
Definition rstrip (l : list ascii) : list ascii :=
  rev (strip_front (fun p => is_space (rev p)) (rev l)).

(** [s.strip()] *)
Definition str_strip (s : string) : string :=
  string_of_list_ascii (rstrip (lstrip (list_ascii_of_string s))).

(** [v.strip()], raising [AttributeError] when [v] is not a [str]. *)
Definition strip (v : pyval) : M string :=
  match v with
  | PyStr s => ret (str_strip s)
  | _ => raise (Exception ("'" ++ type_name_of v
                           ++ "' object has no attribute 'strip'"))
  end.

(** The [try] block of [generate_answer]. *)
Definition generate_answer_try (question context model_name : string)
                               (max_new_tokens : Z) : M (option string) :=
  let! pipe := load_llm model_name in
  let prompt := format_prompt question context in
  let! result := call (Call_pipe pipe prompt max_new_tokens)
                      (pipe_call C pipe prompt max_new_tokens) in
  let! first := index0 result in
  let! text := getitem first "generated_text" in
  let! answer := strip text in
  ret (Some answer).

Definition generate_answer (question context model_name : string)
                           (max_new_tokens : Z) : M (option string) :=
  try_except
    (generate_answer_try question context model_name max_new_tokens)
    (fun e =>
       let! _ := logger_error ("LLM inference failed: " ++ str_exn e) in
       ret None).

(** ** embedding_manager.py: retrieval *)

Definition CHROMA_DB_DIR : string := "data/chromadb".
Definition COLLECTION_NAME : string := "pdf_chunks".
Definition EMBEDDING_MODEL_NAME : string := "all-MiniLM-L6-v2".

Definition load_embedding_model_uncached : M pyobj :=
  try_except
    (let! model := call (Call_SentenceTransformer EMBEDDING_MODEL_NAME)
                        (SentenceTransformer C EMBEDDING_MODEL_NAME) in
     let! _ := logger_info ("Loaded embedding model: "
                            ++ EMBEDDING_MODEL_NAME) in
     ret model)
    (fun e =>
       let! _ := logger_error ("Failed to load embedding model: "
                               ++ str_exn e) in
       raise e).

(** [@lru_cache(maxsize=1) def load_embedding_model()] *)
Definition load_embedding_model : M pyobj :=
  fun s =>
    match embedding_model_cache s with
    | Some model => (Return model, s)
    | None =>
        match load_embedding_model_uncached s with
        | (Return model, s') =>
            (Return model, set_embedding_model_cache (Some model) s')
        | (Raise e, s') => (Raise e, s')
        end
    end.

Definition get_chroma_client : M pyobj :=
  call (Call_chromadb_Client CHROMA_DB_DIR) (chromadb_Client C CHROMA_DB_DIR).

Definition get_or_create_collection (collection_name : string) : M pyobj :=
  let! client := get_chroma_client in
  try_except
    (call (Call_get_or_create_collection client collection_name)
          (client_get_or_create_collection C client collection_name))
    (fun e =>
       let! _ := logger_error ("Error getting/creating collection: "
                               ++ str_exn e) in
       raise e).

(** ** embedding_manager.py: indexing *)

Definition embed_chunks (chunks : list string) : M (list (list float)) :=
  let! model := load_embedding_model in
  try_except
    (call (Call_encode model chunks) (encode C model chunks))
    (fun e =>
       let! _ := logger_error ("Embedding generation failed: "
                               ++ str_exn e) in
       raise e).

(** [str(i)] for a natural number: its decimal digits. *)
Definition str_nat (i : nat) : string :=
  NilEmpty.string_of_uint (Nat.to_uint i).

(** [f"{source_pdf}_{i}"] *)
Definition chunk_id (source_pdf : string) (i : nat) : string :=
  source_pdf ++ "_" ++ str_nat i.

(** [{"source_pdf": source_pdf, "chunk_index": i}] *)
Definition chunk_metadata (source_pdf : string) (i : nat) : pydict :=
  <["source_pdf" := PyStr source_pdf]>
    (<["chunk_index" := PyInt (Z.of_nat i)]> ∅).

(** Modelled from the spec: the store of the vector-search collaborator
    (chromadb, whose code is not in the repository) and what a write does
    to it.  The spec has a collection be a set of stored vectors with a
    globally unique id each, and a write be an upsert of order-aligned
    [(ids, vectors, documents, metadatas)]: every id gets the entry written
    last.  The lists are read in step, as far as the shortest goes. *)
Fixpoint upsert (ids : list string) (embeddings : list (list float))
                (documents : list string) (metadatas : list pydict)
                (stored : gmap string StoredVector)
  : gmap string StoredVector :=
  match ids, embeddings, documents, metadatas with
  | id :: ids', e :: embeddings', d :: documents', m :: metadatas' =>
      upsert ids' embeddings' documents' metadatas'
             (<[id := {| embedding := e; document := d;
                         stored_metadata := m |}]> stored)
  | _, _, _, _ => stored
  end.

(** [collection.add(embeddings=, documents=, ids=, metadatas=)] on the
    collection named [collection_name]: the call raises, or the entries are
    written. *)
Definition add (collection : pyobj) (collection_name : string)
               (embeddings : list (list float)) (documents ids : list string)
               (metadatas : list pydict) : M unit :=
  let! _ := call (Call_collection_add collection embeddings documents ids
                                      metadatas)
                 (collection_add C collection embeddings documents ids
                                 metadatas) in
  fun s =>
    (Return tt,
     set_collections
       (<[collection_name :=
            upsert ids embeddings documents metadatas
                   (collection_of collection_name s)]> (collections s))
       s).

(** [len(chunks)] in an f-string. *)
Definition str_len {A} (l : list A) : string := str_nat (length l).

Definition store_embeddings (embeddings : list (list float))
                            (chunks : list string)
                            (source_pdf collection_name : string) : M unit :=
  let! collection := get_or_create_collection collection_name in
  try_except
    (let ids := map (chunk_id source_pdf) (seq 0 (length chunks)) in
     let metadatas := map (chunk_metadata source_pdf)
                          (seq 0 (length chunks)) in
     let! _ := add collection collection_name embeddings chunks ids
                   metadatas in
     logger_info ("Stored " ++ str_len chunks ++ " embeddings for "
                  ++ source_pdf ++ " in " ++ collection_name))
    (fun e =>
       let! _ := logger_error ("Failed to store embeddings: " ++ str_exn e) in
       raise e).

(** ** embedding_manager.py: retrieval, continued *)

(** One element of the list [query_similar_chunks] returns. *)
Record Retrieved : Type := {
  chunk : string;
  score : float;
  metadata : pydict
}.

(** [zip(docs, dists, metas)]: stops at the shortest of the three. *)
Fixpoint zip3 (docs : list string) (dists : list float) (metas : list pydict)
  : list (string * float * pydict) :=
  match docs, dists, metas with
  | doc :: docs', dist :: dists', meta :: metas' =>
      (doc, dist, meta) :: zip3 docs' dists' metas'
  | _, _, _ => []
  end.

(** The loop body: [1.0 - dist] turns chromadb's distance into a
    similarity. *)
Definition format_result (r : string * float * pydict) : Retrieved :=
  let '(doc, dist, meta) := r in
  {| chunk := doc; score := (1 - dist)%float; metadata := meta |}.

(** The [try] block of [query_similar_chunks]. *)
Definition query_similar_chunks_try (collection model : pyobj)
                                    (query : string) (top_k : Z)
  : M (list Retrieved) :=
  let! embeddings := call (Call_encode model [query])
                          (encode C model [query]) in
  let! query_embedding := index0 embeddings in
  let! results := call (Call_collection_query collection query_embedding
                                              top_k)
                       (collection_query C collection query_embedding
                                         top_k) in
  let! docs := index0 (documents results) in
  let! dists := index0 (distances results) in
  let! metas := index0 (metadatas results) in
  ret (map format_result (zip3 docs dists metas)).

Definition query_similar_chunks (query : string) (top_k : Z)
                                (collection_name : string)
  : M (list Retrieved) :=
  let! collection := get_or_create_collection collection_name in
  let! model := load_embedding_model in
  try_except
    (query_similar_chunks_try collection model query top_k)
    (fun e =>
       let! _ := logger_error ("Query failed: " ++ str_exn e) in
       ret []).

(** ** rag_pipeline.py *)

Record Source : Type := {
  source_pdf : pyval;
  chunk_index : pyval;
  source_score : float
}.

Record AnswerResult : Type := {
  answer : option string;
  sources : list Source;
  confidence : float;
  chunks : list Retrieved;
  error : option string
}.

(** [len(l)] as the float that [/] converts it to. *)
Definition float_of_len {A} (l : list A) : float :=
  PrimFloat.of_uint63 (Uint63.of_Z (Z.of_nat (length l))).

(** [sum(scores)]: the items are added from left to right, starting from 0.
    (CPython 3.12 and later compensate the rounding errors of these
    additions, which changes nothing when no addition rounds.) *)
Definition py_sum (scores : list float) : float :=
  fold_left PrimFloat.add scores 0%float.

(** [float(sum(scores)) / len(scores) if scores else 0.0] *)
Definition mean_score (scores : list float) : float :=
  match scores with
  | [] => 0%float
  | _ => (py_sum scores / float_of_len scores)%float
  end.

Definition format_source (item : Retrieved) : Source :=
  {| source_pdf := dict_get (metadata item) "source_pdf" (PyStr "unknown");
     chunk_index := dict_get (metadata item) "chunk_index" (PyInt (-1));
     source_score := score item |}.

Definition no_context : AnswerResult :=
  {| answer := None; sources := []; confidence := 0%float; chunks := [];
     error := Some "No relevant context found." |}.

Definition failed (e : exn) : AnswerResult :=
  {| answer := None; sources := []; confidence := 0%float; chunks := [];
     error := Some (str_exn e) |}.

Definition answer_question (question : string) (top_k : Z)
                           (collection_name model_name : string)
  : M AnswerResult :=
  try_except
    (let! retrieved := query_similar_chunks question top_k collection_name in
     match retrieved with
     | [] => ret no_context
     | _ =>
         let context := String.concat (nl ++ nl) (map chunk retrieved) in
         let! answer := generate_answer question context model_name 256 in
         let scores := map score retrieved in
         let confidence := mean_score scores in
         let sources := map format_source retrieved in
         ret {| answer := answer; sources := sources;
                confidence := confidence; chunks := retrieved;
                error := None |}
     end)
    (fun e =>
       let! _ := logger_error ("RAG pipeline failed: " ++ str_exn e) in
       ret (failed e)).

End Pipeline.

(** ** pdf_processor.py: chunking *)

(** A byte that continues a character of several bytes: [10xxxxxx]. *)
Definition is_continuation (c : ascii) : bool :=
  let n := nat_of_ascii c in ((128 <=? n) && (n <=? 191))%nat.

(** The number of characters of a text: of its bytes, those that start a
    character. *)
Fixpoint chars (l : list ascii) : nat :=
  match l with
  | [] => 0%nat
  | c :: rest => if is_continuation c then chars rest else S (chars rest)
  end.


(** [chunk_text] builds a [RecursiveCharacterTextSplitter] with its
    [chunk_size], its [overlap] and a fixed list of separators, and returns
    what [split_text] gives.  The splitter is langchain's: its code is not
    in the repository, and this section models it from the spec. *)
Section Splitter.

Variables chunk_size overlap : nat.

Local Open Scope nat_scope.
Local Open Scope list_scope.

(** [ends_with sep acc]: the piece read so far, kept in reverse in [acc],
    ends with [sep]. *)
Definition ends_with (sep acc : list ascii) : bool :=
  bool_decide (firstn (length sep) acc = rev sep).

(** Modelled from the spec: the splitter's cut at one separator.  The text
    is cut after every occurrence of [sep], read from left to right, and
    the separator stays at the end of the piece it closes, so that no
    character is lost (section 8, chunk coverage).  [acc] is the piece
    being read, in reverse.  An empty [sep] cuts after every character. *)
Fixpoint split_on (sep acc text : list ascii) : list (list ascii) :=
  match text with
  | [] => match acc with [] => [] | _ => [rev acc] end
  | c :: rest =>
      if ends_with sep (c :: acc)
      then rev (c :: acc) :: split_on sep [] rest
      else split_on sep (c :: acc) rest
  end.

(** Modelled from the spec: the splitter's recursion over the separators
    (section 4.1: split on a prioritized list of separators, from coarsest
    to finest, at the most natural boundary that keeps a piece within
    [chunk_size]).  A piece within [chunk_size] is kept; a longer one is cut
    at the coarsest separator and its pieces are treated in turn with the
    finer ones.  A piece for which no separator is left stays whole. *)
Fixpoint split_recursive (separators : list (list ascii)) (text : list ascii)
  : list (list ascii) :=
  match separators with
  | [] => [text]
  | sep :: finer =>
      if chars text <=? chunk_size then [text]
      else flat_map (split_recursive finer) (split_on sep [] text)
  end.

(** The last [n] characters of [l]: the longest end of [l] that starts
    with a character and has at most [n] of them. *)
Fixpoint last_chars (n : nat) (l : list ascii) : list ascii :=
  match l with
  | [] => []
  | c :: rest =>
      if (chars l <=? n) && negb (is_continuation c) then l
      else last_chars n rest
  end.

(** Modelled from the spec: how the splitter packs the pieces into chunks
    (sections 3 and 4.1: chunks in document order, each within
    [chunk_size], each after the first beginning [overlap] characters
    before the end of the previous one; section 8: a token longer than
    [chunk_size] forms a chunk alone).  [current] is the chunk being
    filled.  A piece that fits is added to it.  Otherwise [current] is
    closed, and the next chunk starts with the last [overlap] characters
    of [current], or with fewer of them when the piece leaves less room
    within [chunk_size], followed by the piece. *)
Fixpoint merge_pieces (current : list ascii) (pieces : list (list ascii))
  : list (list ascii) :=
  match pieces with
  | [] => match current with [] => [] | _ => [current] end
  | piece :: rest =>
      if chars current + chars piece <=? chunk_size
      then merge_pieces (current ++ piece) rest
      else
        let carried :=
          last_chars (Nat.min overlap (chunk_size - chars piece)) current in
        match current with
        | [] => merge_pieces piece rest
        | _ => current :: merge_pieces (carried ++ piece) rest
        end
  end.

(** Modelled from the spec: [split_text] of the splitter, on the separators
    it was built with (section 4.1: the chunks of a text, none for a text
    that is empty or holds only whitespace). *)
Definition split_text (separators : list string) (text : string)
  : list string :=
  match str_strip text with
  | EmptyString => []
  | _ =>
    map string_of_list_ascii
      (merge_pieces []
         (split_recursive (map list_ascii_of_string separators)
                          (list_ascii_of_string text)))
  end.

End Splitter.

(** [separators=["\n\n", "\n", ".", "!", "?", " "]] *)
Definition separators : list string :=
  [(nl ++ nl)%string; nl; "."; "!"; "?"; " "]%list.

Definition chunk_text (text : string) (chunk_size overlap : nat)
  : list string :=
  split_text chunk_size overlap separators text.

(** * Outside the pipeline: files, the store's administration, the page *)

Local Open Scope list_scope.

(** ** The world *)

Definition bytes : Type := list Byte.byte.

(** One element of [st.session_state.chat_history]: the user's messages
    have a role and a content, the assistant's also sources and a
    confidence ([None] stands for a key the dict does not have). *)
Record Message : Type := {
  role : string;
  content : string;
  message_sources : option (list Source);
  message_confidence : option float
}.

(** [st.session_state]: per key, its value, or [None] while the key is not
    set. *)
Record SessionState : Type := {
  chat_history : option (list Message);
  loaded_pdfs : option (list string);
  processing : option bool;
  session_error : option pyval
}.

(** What the program does besides logging and calling the collaborators of
    the pipeline, in the order it does it.  [St f text] is a call
    [st.f(text, ...)] of Streamlit; its layout arguments ([help],
    [placeholder], css) are not recorded.  [Enter] and [Exit] are the two
    ends of a [with] block. *)
Inductive effect : Type :=
| Print (line : string)
| Call_write_file (path : string) (data : bytes)
| Call_PdfReader (path : string)
| Call_pages (reader : pyobj)
| Call_extract_text (page : pyobj)
| Call_collection_delete (collection : pyobj)
| Call_list_collections (client : pyobj)
| Call_delete_collection (client : pyobj) (name : pyval)
| St (function text : string)
| Add_vertical_space (num_lines : Z)
| Enter (block key : string)
| Exit (block key : string)
| Progress_new (text : string)
| Progress_update (value : float) (text : string)
| Progress_empty
| St_rerun.

(** [pipeline_state] is the state of the pipeline above, [disk] the files
    the program has written, by path, [effects] what it did, oldest first,
    [session_state] Streamlit's, which outlives a run of the script. *)
Record world : Type := World {
  pipeline_state : state;
  disk : gmap string bytes;
  effects : list effect;
  session_state : SessionState
}.

Definition set_pipeline_state (s : state) (w : world) : world :=
  {| pipeline_state := s; disk := disk w; effects := effects w;
     session_state := session_state w |}.

Definition set_disk (d : gmap string bytes) (w : world) : world :=
  {| pipeline_state := pipeline_state w; disk := d; effects := effects w;
     session_state := session_state w |}.

Definition set_effects (l : list effect) (w : world) : world :=
  {| pipeline_state := pipeline_state w; disk := disk w; effects := l;
     session_state := session_state w |}.

Definition set_session_state (ss : SessionState) (w : world) : world :=
  {| pipeline_state := pipeline_state w; disk := disk w;
     effects := effects w; session_state := ss |}.

Definition W (A : Type) : Type := world -> outcome A * world.

Definition retW {A} (a : A) : W A := fun w => (Return a, w).

Definition raiseW {A} (e : exn) : W A := fun w => (Raise e, w).

Definition bindW {A B} (m : W A) (k : A -> W B) : W B :=
  fun w =>
    match m w with
    | (Return a, w') => k a w'
    | (Raise e, w') => (Raise e, w')
    end.

Notation "'let*' x ':=' c1 'in' c2" := (bindW c1 (fun x => c2))
  (at level 10, x name, c1 at level 100, c2 at level 200).

(** [try: body except Exception as e: handler e] *)
Definition try_exceptW {A} (body : W A) (handler : exn -> W A) : W A :=
  fun w =>
    match body w with
    | (Return a, w') => (Return a, w')
    | (Raise e, w') => handler e w'
    end.

(** A function of the pipeline, run on the pipeline's state. *)
Definition lift {A} (m : M A) : W A :=
  fun w =>
    let '(o, s) := m (pipeline_state w) in (o, set_pipeline_state s w).

Definition perform (ev : effect) : W unit :=
  fun w => (Return tt, set_effects (effects w ++ [ev]) w).

(** A call that returns or raises. *)
Definition callW {A} (ev : effect) (o : outcome A) : W A :=
  let* _ := perform ev in fun w => (o, w).

(** [with block(key): body]: the block is left also when [body] raises. *)
Definition with_ {A} (block key : string) (body : W A) : W A :=
  let* _ := perform (Enter block key) in
  fun w =>
    let '(o, w') := body w in
    (o, set_effects (effects w' ++ [Exit block key]) w').

(** [for x in l: body x] *)
Fixpoint for_each {A} (l : list A) (body : A -> W unit) : W unit :=
  match l with
  | [] => retW tt
  | x :: rest => let* _ := body x in for_each rest body
  end.

(** ** The collaborators outside the pipeline *)

(** What the file system and pypdf answer may depend on the files the
    program wrote; the deletions of chromadb decide what they leave in the
    store; Python formats the numbers.  As in [Collaborators], a call
    returns or raises as a function of its arguments, any function. *)
Record Outside : Type := {
  (* os, builtins *)
  os_path_isfile : gmap string bytes -> string -> bool;
  (* [with open(path, "wb") as f: f.write(data)] *)
  write_file : string -> bytes -> gmap string bytes
               -> outcome unit * gmap string bytes;
  (* pypdf; [reader.pages] is read lazily, page by page *)
  PdfReader : gmap string bytes -> string -> outcome pyobj;
  reader_pages : pyobj -> outcome (list (outcome pyobj));
  page_extract_text : pyobj -> outcome (option string);
  (* chromadb *)
  collection_delete : pyobj -> gmap string (gmap string StoredVector)
                      -> outcome unit * gmap string (gmap string StoredVector);
  client_list_collections : pyobj -> gmap string (gmap string StoredVector)
                            -> outcome (list pyval);
  client_delete_collection : pyobj -> pyval
                             -> gmap string (gmap string StoredVector)
                             -> outcome unit
                                * gmap string (gmap string StoredVector);
  (* [format(x, ".2f")], [str(x)] of a float, [str(o)] of an object *)
  format_2f : float -> string;
  str_float : float -> string;
  str_object : string -> string
}.

(** A call of chromadb that may change the store. *)
Definition store_call {A} (ev : effect)
    (f : gmap string (gmap string StoredVector)
         -> outcome A * gmap string (gmap string StoredVector)) : W A :=
  let* _ := perform ev in
  fun w =>
    let '(o, c) := f (collections (pipeline_state w)) in
    (o, set_pipeline_state (set_collections c (pipeline_state w)) w).

Section Program.

Variable C : Collaborators.
Variable O : Outside.

(** ** pdf_processor.py: extraction *)

(** [s.lower()], as far as [is_valid_pdf] needs it: the capital letters of
    ASCII are lowered and every other byte is kept.  Python lowers the
    other capital letters too, none of them to a character of ".pdf". *)
Definition lower_char (c : ascii) : ascii :=
  let n := nat_of_ascii c in
  if ((65 <=? n)%nat && (n <=? 90)%nat)
  then ascii_of_nat (n + 32)
  else c.

Definition lower (s : string) : string :=
  string_of_list_ascii (map lower_char (list_ascii_of_string s)).

(** [s.endswith(suffix)] *)
Definition endswith (s suffix : string) : bool :=
  let l := list_ascii_of_string s in
  let suf := list_ascii_of_string suffix in
  bool_decide (skipn (length l - length suf) l = suf).

Definition is_valid_pdf (pdf_path : string) : W bool :=
  fun w =>
    (Return (os_path_isfile O (disk w) pdf_path
             && endswith (lower pdf_path) ".pdf"), w).

(** [x or ""] *)
Definition or_empty (x : option string) : string :=
  match x with
  | Some s => s
  | None => ""
  end.

(** The loop [for page in reader.pages: text += page.extract_text() or ""] *)
Fixpoint extract_pages (pages : list (outcome pyobj)) (text : string)
  : W string :=
  match pages with
  | [] => retW text
  | next :: rest =>
      let* page := fun w => (next, w) in
      let* page_text := callW (Call_extract_text page)
                              (page_extract_text O page) in
      extract_pages rest (text ++ or_empty page_text)
  end.

Definition extract_text_from_pdf (pdf_path : string) : W (option string) :=
  let* valid := is_valid_pdf pdf_path in
  if negb valid then retW None
  else
    try_exceptW
      (let* reader := fun w =>
                        callW (Call_PdfReader pdf_path)
                              (PdfReader O (disk w) pdf_path) w in
       let* pages := callW (Call_pages reader) (reader_pages O reader) in
       let* text := extract_pages pages "" in
       retW (match str_strip text with
             | EmptyString => None
             | _ => Some text
             end))
      (fun e =>
         let* _ := perform (Print ("Error reading PDF " ++ pdf_path ++ ": "
                                   ++ str_exn e)) in
         retW None).

(** ** embedding_manager.py: administration *)

Definition clear_collection (collection_name : string) : W unit :=
  let* collection := lift (get_or_create_collection C collection_name) in
  try_exceptW
    (let* _ := store_call (Call_collection_delete collection)
                          (collection_delete O collection) in
     lift (logger_info ("Cleared collection: " ++ collection_name)))
    (fun e =>
       lift (logger_error ("Failed to clear collection: " ++ str_exn e))).

(** The loop [for name in names: client.delete_collection(name)] *)
Fixpoint delete_collections (client : pyobj) (names : list pyval) : W unit :=
  match names with
  | [] => retW tt
  | name :: rest =>
      let* _ := store_call (Call_delete_collection client name)
                           (client_delete_collection O client name) in
      delete_collections client rest
  end.

Definition reset_database : W unit :=
  try_exceptW
    (let* client := lift (get_chroma_client C) in
     let* names := store_call (Call_list_collections client)
                     (fun c => (client_list_collections O client c, c)) in
     let* _ := delete_collections client names in
     lift (logger_info "ChromaDB database reset."))
    (fun e =>
       lift (logger_error ("Failed to reset database: " ++ str_exn e))).

(** ** app.py *)

Definition DATA_DIR : string := "data".

Definition EXAMPLE_QUESTIONS : list string :=
  [ "What is the main topic of the document?";
    "Summarize the key findings.";
    "List the steps described in the manual.";
    "What are the limitations mentioned?";
    "Who are the authors?" ].

(** What the widgets of the page return in one run of the script; [file_name]
    is [uploaded_file.name] and [file_data] what [uploaded_file.read()]
    returns. *)
Record UploadedFile : Type := {
  file_name : string;
  file_data : bytes
}.

Record Inputs : Type := {
  clear_all_clicked : bool;
  uploaded_files : list UploadedFile;
  user_question : string;
  submit : bool
}.

(** [os.path.join(a, b)] and [os.path.basename(p)], of posixpath. *)
Definition os_path_join (a b : string) : string :=
  match b with
  | String "/" _ => b
  | _ => if (a =? "")%string || endswith a "/" then a ++ b
         else a ++ "/" ++ b
  end.

Fixpoint basename_from (l : list ascii) (acc : list ascii) : list ascii :=
  match l with
  | [] => acc
  | c :: rest =>
      if Ascii.eqb c "/" then basename_from rest []
      else basename_from rest (acc ++ [c])
  end.

Definition os_path_basename (p : string) : string :=
  string_of_list_ascii (basename_from (list_ascii_of_string p) []).

(** [str(v)], as an f-string formats a value. *)
Definition py_str (v : pyval) : string :=
  match v with
  | PyNone => "None"
  | PyBool true => "True"
  | PyBool false => "False"
  | PyInt z => NilEmpty.string_of_int (Z.to_int z)
  | PyFloat f => str_float O f
  | PyStr s => s
  | PyObject type_name => str_object O type_name
  end.

(** [float(n)] for a count. *)
Definition float_of_nat (n : nat) : float :=
  PrimFloat.of_uint63 (Uint63.of_Z (Z.of_nat n)).

(** Reading [st.session_state.<key>]: an [AttributeError] while the key is
    not set (Streamlit's message goes on with a hint and a link). *)
Definition session_get {A} (field : SessionState -> option A) (key : string)
  : W A :=
  fun w =>
    match field (session_state w) with
    | Some v => (Return v, w)
    | None =>
        (Raise (Exception ("st.session_state has no attribute " ++ key)), w)
    end.

Definition set_chat_history (v : list Message) : W unit :=
  fun w =>
    (Return tt,
     set_session_state
       {| chat_history := Some v;
          loaded_pdfs := loaded_pdfs (session_state w);
          processing := processing (session_state w);
          session_error := session_error (session_state w) |} w).

Definition set_loaded_pdfs (v : list string) : W unit :=
  fun w =>
    (Return tt,
     set_session_state
       {| chat_history := chat_history (session_state w);
          loaded_pdfs := Some v;
          processing := processing (session_state w);
          session_error := session_error (session_state w) |} w).

Definition set_processing (v : bool) : W unit :=
  fun w =>
    (Return tt,
     set_session_state
       {| chat_history := chat_history (session_state w);
          loaded_pdfs := loaded_pdfs (session_state w);
          processing := Some v;
          session_error := session_error (session_state w) |} w).

Definition set_session_error (v : pyval) : W unit :=
  fun w =>
    (Return tt,
     set_session_state
       {| chat_history := chat_history (session_state w);
          loaded_pdfs := loaded_pdfs (session_state w);
          processing := processing (session_state w);
          session_error := Some v |} w).

(** [if key not in st.session_state: st.session_state.key = v] *)
Definition init_key {A} (field : SessionState -> option A)
                    (set : W unit) : W unit :=
  fun w =>
    match field (session_state w) with
    | Some _ => (Return tt, w)
    | None => set w
    end.

Definition init_session_state : W unit :=
  let* _ := init_key chat_history (set_chat_history []) in
  let* _ := init_key loaded_pdfs (set_loaded_pdfs []) in
  let* _ := init_key processing (set_processing false) in
  init_key session_error (set_session_error PyNone).

Definition display_error (msg : string) : W unit :=
  perform (St "error" ("❌ " ++ msg)).

Definition display_success (msg : string) : W unit :=
  perform (St "success" ("✅ " ++ msg)).

(** The body of the loop of [show_sources], for the source at [idx]. *)
Definition show_source (idx : nat) (src : Source) : W unit :=
  with_ "stylable_container" ("src_" ++ str_nat idx)
    (perform
       (St "markdown"
           ("<div class='stSourceBox'>PDF: <b>" ++ py_str (source_pdf src)
            ++ "</b> | Chunk: " ++ py_str (chunk_index src)
            ++ " | Score: " ++ format_2f O (source_score src) ++ "</div>"))).

Fixpoint show_sources_from (idx : nat) (sources : list Source) : W unit :=
  match sources with
  | [] => retW tt
  | src :: rest =>
      let* _ := show_source idx src in show_sources_from (S idx) rest
  end.

Definition show_sources (sources : list Source) : W unit :=
  show_sources_from 0 sources.

(** [main], lines 102 to 122: the sidebar. *)
Definition sidebar (clear_all : bool) : W unit :=
  with_ "sidebar" ""
    (let* _ := perform (St "header" "📚 Document Management") in
     let* _ := perform (St "button" "Clear All Data") in
     let* _ := if clear_all then
                 let* _ := reset_database in
                 let* _ := set_loaded_pdfs [] in
                 let* _ := set_chat_history [] in
                 display_success "Database cleared."
               else retW tt in
     let* _ := perform (St "markdown" "**Loaded PDFs:**") in
     let* pdfs := session_get loaded_pdfs "loaded_pdfs" in
     let* _ := match pdfs with
               | [] => perform (St "info" "No PDFs loaded yet.")
               | _ =>
                   for_each pdfs
                     (fun pdf =>
                        perform (St "markdown"
                                    ("- " ++ os_path_basename pdf)))
               end in
     let* _ := perform (Add_vertical_space 2) in
     let* _ := perform (St "markdown" "---") in
     let* _ := perform (St "markdown" "**Example Questions:**") in
     let* _ := for_each EXAMPLE_QUESTIONS
                 (fun q => perform (St "markdown" ("- _" ++ q ++ "_"))) in
     let* _ := perform (Add_vertical_space 2) in
     let* _ := perform (St "markdown" "---") in
     perform (St "markdown"
                 "<small>Powered by open-source AI. All processing is local.</small>")).

(** [with open(path, "wb") as f: f.write(data)] *)
Definition write_binary (path : string) (data : bytes) : W unit :=
  fun w =>
    let '(o, d) := write_file O path data (disk w) in
    (o, set_disk d (set_effects (effects w ++ [Call_write_file path data]) w)).

(** The body of the upload loop, lines 136 to 148, for the file at [idx] of
    [total]; [continue] ends it early. *)
Definition process_upload (total idx : nat) (uploaded_file : UploadedFile)
  : W unit :=
  let pdf_path := os_path_join DATA_DIR (file_name uploaded_file) in
  let* _ := write_binary pdf_path (file_data uploaded_file) in
  let* text := extract_text_from_pdf pdf_path in
  match text with
  | None | Some EmptyString =>
      display_error ("Failed to extract text from "
                     ++ file_name uploaded_file ++ ".")
  | Some text =>
      let chunks := chunk_text text 1000 150 in
      let* embeddings := lift (embed_chunks C chunks) in
      let* _ := lift (store_embeddings C embeddings chunks
                                       (file_name uploaded_file)
                                       COLLECTION_NAME) in
      let* pdfs := session_get loaded_pdfs "loaded_pdfs" in
      let* _ := if existsb (String.eqb (file_name uploaded_file)) pdfs
                then retW tt
                else set_loaded_pdfs (pdfs ++ [file_name uploaded_file]) in
      perform (Progress_update
                 (float_of_nat (idx + 1) / float_of_nat total)%float
                 ("Processed " ++ file_name uploaded_file))
  end.

(** [for idx, uploaded_file in enumerate(uploaded_files)], from [idx] on. *)
Fixpoint process_uploads (total idx : nat) (files : list UploadedFile)
  : W unit :=
  match files with
  | [] => retW tt
  | uploaded_file :: rest =>
      let* _ := process_upload total idx uploaded_file in
      process_uploads total (S idx) rest
  end.

(** [main], lines 125 to 152: the upload of PDFs. *)
Definition upload (files : list UploadedFile) : W unit :=
  let* _ := perform (St "subheader" "1. Upload PDF(s)") in
  let* _ := perform (St "file_uploader" "Upload one or more PDF files") in
  match files with
  | [] => retW tt
  | _ =>
      let* _ := set_processing true in
      let* _ := perform (Progress_new "Processing PDFs...") in
      let* _ := process_uploads (length files) 0 files in
      let* _ := perform Progress_empty in
      let* _ := set_processing false in
      let* _ := display_success "All PDFs processed and indexed!" in
      perform (Add_vertical_space 1)
  end.

(** The body of the loop that displays the chat history, lines 162 to
    169. *)
Definition show_message (msg : Message) : W unit :=
  if (role msg =? "user")%string then
    perform (St "markdown"
                ("<div class='stChatUser'><b>You:</b> " ++ content msg
                 ++ "</div>"))
  else
    let* _ := perform (St "markdown"
                          ("<div class='stChatMessage'><b>Assistant:</b> "
                           ++ content msg ++ "</div>")) in
    let* _ := match message_sources msg with
              | Some (src :: rest) => show_sources (src :: rest)
              | _ => retW tt
              end in
    match message_confidence msg with
    | Some c =>
        perform (St "markdown"
                    ("<span class='stConfidence'>Confidence: "
                     ++ format_2f O c ++ "</span>"))
    | None => retW tt
    end.

(** [x or default], for an optional string. *)
Definition or_default (x : option string) (default : string) : string :=
  match x with
  | None | Some EmptyString => default
  | Some s => s
  end.

(** [main], lines 194 to 197. *)
Definition limitations : W unit :=
  let* _ := perform (Add_vertical_space 2) in
  with_ "stylable_container" "limitations"
    (perform
       (St "markdown"
           ("**Limitations:**" ++ nl
            ++ "- Only answers questions based on uploaded PDFs." ++ nl
            ++ "- Local models may not match GPT-4 quality." ++ nl
            ++ "- Large PDFs may take time to process." ++ nl
            ++ "- No internet access required after model download."))).

(** [main], lines 155 to 197: the chat.  The function returns early when no
    PDF is loaded, and [st.rerun()] ends the run of the script. *)
Definition chat (question : string) (submitted : bool) : W unit :=
  let* _ := perform (St "subheader" "2. Ask Questions") in
  let* pdfs := session_get loaded_pdfs "loaded_pdfs" in
  match pdfs with
  | [] => perform (St "info" "Please upload at least one PDF to begin.")
  | _ =>
      let* history := session_get chat_history "chat_history" in
      let* _ := for_each history show_message in
      let* _ := with_ "form" "chat_form"
                  (let* _ := perform
                               (St "text_input"
                                   "Type your question about the PDFs:") in
                   perform (St "form_submit_button" "Ask")) in
      if submitted && negb (question =? "")%string then
        let* response :=
          with_ "spinner" "Thinking..."
            (lift (answer_question C question 5 "pdf_chunks"
                                   "google/flan-t5-base")) in
        match error response with
        | Some (String c msg) =>
            let* _ := display_error (String c msg) in
            limitations
        | _ =>
            let* history := session_get chat_history "chat_history" in
            let* _ := set_chat_history
                        (history
                         ++ [ {| role := "user"; content := question;
                                 message_sources := None;
                                 message_confidence := None |} ]) in
            let* history := session_get chat_history "chat_history" in
            let* _ := set_chat_history
                        (history
                         ++ [ {| role := "assistant";
                                 content :=
                                   or_default
                                     (answer response)
                                     "Sorry, I couldn't find an answer.";
                                 message_sources := Some (sources response);
                                 message_confidence :=
                                   Some (confidence response) |} ]) in
            perform St_rerun
        end
      else limitations
  end.

Definition main (inputs : Inputs) : W unit :=
  let* _ := init_session_state in
  let* _ := perform (St "title" "📄 RAG PDF Q&A Assistant") in
  let* _ := perform
              (St "caption"
                  "Upload PDFs, ask questions, and get intelligent answers with local AI!") in
  let* _ := perform (Add_vertical_space 1) in
  let* _ := sidebar (clear_all_clicked inputs) in
  let* _ := upload (uploaded_files inputs) in
  chat (user_question inputs) (submit inputs).

End Program.

(** * Vocabulary of the statements *)

Local Open Scope list_scope.

(** ** Traces and runs *)

(** [adds P m]: running [m] appends events to the trace, all of them
    satisfying [P], and removes none. *)
Definition adds (P : event -> Prop) {A} (m : M A) : Prop :=
  forall s, exists evs, trace (snd (m s)) = trace s ++ evs /\ Forall P evs.

Definition retrieval_event (ev : event) : Prop := is_generation_call ev = false.

(** What [logger.error] does to a state. *)
Definition logged_error (msg : string) (s : state) : state :=
  set_trace (trace s ++ [LogError msg]) s.

(** The result packaged after a non-empty retrieval. *)
Definition packaged (retrieved : list Retrieved) (a : option string)
  : AnswerResult :=
  {| answer := a;
     sources := map format_source retrieved;
     confidence := mean_score (map score retrieved);
     chunks := retrieved;
     error := None |}.

Definition context_of (retrieved : list Retrieved) : string :=
  String.concat (nl ++ nl)%string (map chunk retrieved).

(** The three ways a call of [answer_question] can go. *)
Inductive run_of (C : Collaborators) (question collection_name
                  model_name : string) (top_k : Z) (s : state)
  : AnswerResult -> state -> Prop :=
| NoContext s1 :
    query_similar_chunks C question top_k collection_name s
      = (Return [], s1) ->
    run_of C question collection_name model_name top_k s no_context s1
| Packaged retrieved s1 a s2 :
    query_similar_chunks C question top_k collection_name s
      = (Return retrieved, s1) ->
    retrieved <> [] ->
    generate_answer C question (context_of retrieved) model_name 256 s1
      = (Return a, s2) ->
    run_of C question collection_name model_name top_k s
           (packaged retrieved a) s2
| Failed e s1 :
    query_similar_chunks C question top_k collection_name s
      = (Raise e, s1) ->
    run_of C question collection_name model_name top_k s (failed e)
           (logged_error ("RAG pipeline failed: " ++ str_exn e)%string s1).

(** ** Chunks and tokens *)

(** [blank s]: [s] holds whitespace only, if anything. *)
Definition blank (s : string) : Prop :=
  exists parts,
    Forall (fun p => is_space p = true) parts
    /\ list_ascii_of_string s = concat parts.

(** The tokens of a text: what is left of it when it is cut at every
    separator. *)
Fixpoint tokens_of (separators : list (list ascii)) (text : list ascii)
  : list (list ascii) :=
  match separators with
  | [] => [text]
  | sep :: finer => flat_map (tokens_of finer) (split_on sep [] text)
  end.


(** [no_cut sep p]: no separator [sep] ends strictly inside [p], so cutting
    [p] at [sep] leaves it whole. *)
Definition no_cut (sep p : list ascii) : Prop :=
  forall q r, p = q ++ r -> q <> [] -> r <> [] -> ~ sep `suffix_of` q.

(** [overlapping overlap prev chunks text]: the chunks, each cut into what
    it repeats from the chunk before ([prev] for the first) and what it
    adds, repeat at most [overlap] characters, always the last ones of the
    previous chunk, and what they add is [text], in order. *)
Inductive overlapping (overlap : nat)
  : list ascii -> list (list ascii) -> list ascii -> Prop :=
| overlapping_nil prev : overlapping overlap prev [] []
| overlapping_cons prev carried fresh chunks text :
    carried `suffix_of` prev ->
    (chars carried <= overlap)%nat ->
    fresh <> [] ->
    overlapping overlap (carried ++ fresh) chunks text ->
    overlapping overlap prev ((carried ++ fresh) :: chunks) (fresh ++ text).

(** ** Binary64 numbers as integers *)

(** Nearest integer to [m / 2^n], ties to even. *)
Definition rne (m n : Z) : Z :=
  let q := m / 2 ^ n in
  match 2 * (m mod 2 ^ n) ?= 2 ^ n with
  | Lt => q
  | Gt => q + 1
  | Eq => if Z.even q then q else q + 1
  end.

(** The value [V > 0], in units of [2^-1074], rounded to binary64: at most
    53 significant bits are kept. *)
Definition rnd_pos (V : Z) : Z :=
  let k := Z.max 0 (Z.log2 V - 52) in rne V k * 2 ^ k.

(** Every finite binary64 number is a multiple of [2^-1074]; [fkey x] is that
    multiple.  The infinities get [K_INF], beyond every finite number. *)
Definition K_INF : Z := 2 ^ 2200.
Definition OVERFLOW : Z := 2 ^ 2098.

Definition signed (s : bool) (W : Z) : Z := if s then - W else W.

Definition fkey (x : spec_float) : Z :=
  match x with
  | S754_zero _ | S754_nan => 0
  | S754_infinity s => signed s K_INF
  | S754_finite s m e => signed s (Zpos m * 2 ^ (e + 1074))
  end.

Definition sat (W : Z) : Z := if OVERFLOW <=? W then K_INF else W.

(** Rounding a signed value given in units of [2^-1074]. *)
Definition RND (V : Z) : Z :=
  match V with
  | 0 => 0
  | Zpos _ => sat (rnd_pos V)
  | Zneg _ => - sat (rnd_pos (- V))
  end.

(** [Prim2SF 1.0] *)
Definition SF_one : spec_float := S754_finite false 4503599627370496 (-52).

(** Nearest integer to [N / D], ties to even, for [D > 0]. *)
Definition rne_quot (N D : Z) : Z :=
  let q := N / D in
  match 2 * (N mod D) ?= D with
  | Lt => q
  | Gt => q + 1
  | Eq => if Z.even q then q else q + 1
  end.

(** The quotient [N / D > 0] of a value [N], in units of [2^-1074], by an
    integer [D > 0], rounded to binary64: at most 53 significant bits are
    kept, as in [rnd_pos]. *)
Definition rnd_quot_pos (N D : Z) : Z :=
  let k := Z.max 0 (Z.log2 (N / D) - 52) in rne_quot N (D * 2 ^ k) * 2 ^ k.

(** Rounding the quotient of a signed value by [D > 0]: the multiple of
    [2^-1074] that is the binary64 number nearest to [N / D], ties to
    even. *)
Definition RNDQ (N D : Z) : Z :=
  match N with
  | 0 => 0
  | Zpos _ => sat (rnd_quot_pos N D)
  | Zneg _ => - sat (rnd_quot_pos (- N) D)
  end.

(** [describes N D mrs]: the shift record [mrs] stands for [N / D], with its
    integer part, whether the rest reaches one half, and whether the rest
    is neither nothing nor one half. *)
Definition describes (N D : Z) (mrs : shr_record) : Prop :=
  shr_m mrs = N / D
  /\ shr_r mrs = (D <=? 2 * (N mod D))
  /\ shr_s mrs = negb (N mod D =? 0) && negb (2 * (N mod D) =? D).

(** ** Means *)

(** The value of a float, in units of [2^-1074]: an integer, so that sums
    of values are exact. *)
Definition value (x : float) : Z := fkey (Prim2SF x).

(** A float that is a number: neither NaN nor an infinity. *)
Definition finite_float (x : float) : bool :=
  match Prim2SF x with
  | S754_zero _ | S754_finite _ _ _ => true
  | _ => false
  end.

(** The sums of the first one, two, ... of the values [vs], from [acc]. *)
Fixpoint running_sums (acc : Z) (vs : list Z) : list Z :=
  match vs with
  | [] => []
  | v :: rest => (acc + v) :: running_sums (acc + v) rest
  end.

(** Adding the values one after the other never rounds: every sum on the
    way is a binary64 number. *)
Definition exact_sums (vs : list Z) : Prop :=
  Forall (fun V => RND V = V) (running_sums 0 vs).

(** The sum of the values, exactly. *)
Definition zsum (vs : list Z) : Z := fold_right Z.add 0 vs.

(** The arithmetic mean of the values [vs], as the spec words it: their sum
    divided by their number.  A confidence being a float, this is the
    binary64 number nearest to that fraction (ties to even); nothing else
    is rounded. *)
Definition arithmetic_mean (vs : list Z) : Z :=
  RNDQ (zsum vs) (Z.of_nat (length vs)).

(** ** A concrete world for examples *)

Module Demo.

Definition doc1_meta : pydict :=
  <["source_pdf" := PyStr "doc1"]> (<["chunk_index" := PyInt 0]> ∅).

Definition paris : QueryResult :=
  {| documents := [["The capital of France is Paris."]];
     distances := [[0.25%float]];
     metadatas := [[doc1_meta]] |}.

Definition nothing : QueryResult :=
  {| documents := [[]]; distances := [[]]; metadatas := [[]] |}.

(** Two results, at distances 0.25 and 0.5. *)
Definition two : QueryResult :=
  {| documents := [["Paris is the capital."; "Lyon is a city."]];
     distances := [[0.25%float; 0.5%float]];
     metadatas := [[doc1_meta; doc1_meta]] |}.

(** Two results, at distances [2^-60] and [2^-59]. *)
Definition close : QueryResult :=
  {| documents := [["Paris is the capital."; "Paris, capital of France."]];
     distances := [[0x1p-60%float; 0x1p-59%float]];
     metadatas := [[doc1_meta; doc1_meta]] |}.

(** Three results, at distances 0.5, 0.5 and [1 - 2^-53]. *)
Definition uneven : QueryResult :=
  {| documents := [["Paris is the capital."; "Paris, capital of France.";
                    "Lyon is a city."]];
     distances := [[0.5%float; 0.5%float; 0x1.fffffffffffffp-1%float]];
     metadatas := [[doc1_meta; doc1_meta; doc1_meta]] |}.

(** Collaborators that all work, except as the four arguments say. *)
Definition world (collection : outcome pyobj)
                 (embeddings : outcome (list (list float)))
                 (results : outcome QueryResult)
                 (generated : outcome (list pydict)) : Collaborators :=
  {| AutoTokenizer_from_pretrained := fun _ => Return (PyObj 1);
     AutoModelForSeq2SeqLM_from_pretrained := fun _ => Return (PyObj 2);
     cuda_is_available := false;
     pipeline := fun _ _ _ => Return (PyObj 3);
     pipe_call := fun _ _ _ => generated;
     SentenceTransformer := fun _ => Return (PyObj 4);
     encode := fun _ _ => embeddings;
     chromadb_Client := fun _ => Return (PyObj 5);
     client_get_or_create_collection := fun _ _ => collection;
     collection_query := fun _ _ _ => results;
     collection_add := fun _ _ _ _ _ => Return tt |}.

Definition ok_collection : outcome pyobj := Return (PyObj 6).
Definition ok_embeddings : outcome (list (list float)) :=
  Return [[0.5%float; 0.5%float]].
Definition ok_generated : outcome (list pydict) :=
  Return [ <["generated_text" := PyStr " Paris "]> ∅ ].

Definition fresh : state :=
  {| trace := []; llm_cache := []; embedding_model_cache := None;
     collections := ∅ |}.

Definition question : string := "What is the capital of France?".

End Demo.

(** [steady I P m]: from a state where [I] holds, [m] ends in a state where
    [I] holds, and what it adds to the trace satisfies [P]. *)
Definition steady (I : state -> Prop) (P : event -> Prop) {A} (m : M A)
  : Prop :=
  forall s, I s ->
    I (snd (m s))
    /\ exists evs, trace (snd (m s)) = trace s ++ evs /\ Forall P evs.

(** The cache of [load_llm] is well formed: at most [maxsize = 2] entries,
    under different model names. *)
Definition llm_cache_ok (s : state) : Prop :=
  NoDup (map fst (llm_cache s)) /\ (length (llm_cache s) <= 2)%nat.

(** The calls that load a model: the tokenizer, the language model and its
    pipeline, the embedding model. *)
Definition is_load_call (ev : event) : bool :=
  match ev with
  | Call_AutoTokenizer_from_pretrained _
  | Call_AutoModelForSeq2SeqLM_from_pretrained _
  | Call_pipeline _ _ _
  | Call_SentenceTransformer _ => true
  | _ => false
  end.

(** Both models are in their caches. *)
Definition warm (model_name : string) (s : state) : Prop :=
  embedding_model_cache s <> None
  /\ cache_lookup model_name (llm_cache s) <> None.

(** The events of answering [question] that load no model: log lines, the
    client and the collection being obtained, the question being embedded,
    the vector search and the generation call. *)
Definition answering_event (question : string) (ev : event) : Prop :=
  match ev with
  | LogInfo _ | LogError _
  | Call_chromadb_Client _ | Call_get_or_create_collection _ _
  | Call_collection_query _ _ _ | Call_pipe _ _ _ => True
  | Call_encode _ texts => texts = [question]
  | _ => False
  end.

(** ** Worlds *)

(** [steadyW I P m]: from a world where [I] holds, [m] ends in a world
    where [I] holds, and the effects it adds satisfy [P]. *)
Definition steadyW (I : world -> Prop) (P : effect -> Prop) {A} (m : W A)
  : Prop :=
  forall w, I w ->
    I (snd (m w))
    /\ exists evs, effects (snd (m w)) = effects w ++ evs /\ Forall P evs.

(** [totalW I m]: from a world where [I] holds, [m] returns, in a world
    where [I] holds. *)
Definition totalW (I : world -> Prop) {A} (m : W A) : Prop :=
  forall w, I w -> I (snd (m w)) /\ exists a, fst (m w) = Return a.

(** The four keys of the session are set. *)
Definition session_ready (w : world) : Prop :=
  chat_history (session_state w) <> None
  /\ loaded_pdfs (session_state w) <> None
  /\ processing (session_state w) <> None
  /\ session_error (session_state w) <> None.

(** ** Pages *)

(** [next], an element of [reader.pages], is a page whose text is [t]. *)
Definition page_text_of (O : Outside) (next : outcome pyobj)
                        (t : option string) : Prop :=
  exists page, next = Return page /\ page_extract_text O page = Return t.

(** [text = ""], then [text += t or ""] for every [t] in turn. *)
Definition joined_pages (page_texts : list (option string)) : string :=
  fold_left String.append (map or_empty page_texts) ""%string.

(** Nothing but the effects differs between the two worlds. *)
Definition same_but_effects (w w' : world) : Prop :=
  pipeline_state w' = pipeline_state w
  /\ disk w' = disk w
  /\ session_state w' = session_state w.

(** ** The session *)

(** The loaded PDFs, once set, are listed once each, and all are among
    [allowed]. *)
Definition pdfs_within (allowed : list string) (w : world) : Prop :=
  match loaded_pdfs (session_state w) with
  | Some l => NoDup l /\ incl l allowed
  | None => True
  end.

(** The effects that end an upload: the progress bar is emptied, the success
    is displayed. *)
Definition ends_upload (ev : effect) : Prop :=
  ev = Progress_empty
  \/ ev = St "success" "✅ All PDFs processed and indexed!".

(** [rendersW P m]: [m] only displays: it returns, and changes nothing but
    the effects, to which it adds effects that satisfy [P]. *)
Definition rendersW (P : effect -> Prop) (m : W unit) : Prop :=
  forall w, exists evs,
    m w = (Return tt, set_effects (effects w ++ evs) w) /\ Forall P evs.

(** What is displayed once and for all: texts and blocks, no message of
    success or error, no rerun. *)
Definition is_layout (ev : effect) : Prop :=
  match ev with
  | St function _ =>
      function <> "error" /\ function <> "success"
  | Add_vertical_space _ | Enter _ _ | Exit _ _ => True
  | _ => False
  end.

(** No condition on the effects. *)
Definition any_effect (ev : effect) : Prop := True.

(** ** A concrete world outside the pipeline *)

Module DemoApp.

(** The bytes "%PDF". *)
Definition pdf_bytes : bytes := [Byte.x25; Byte.x50; Byte.x44; Byte.x46].

(** A file system that holds what was written, a PDF reader that wants the
    first byte to be "%" and finds two pages, the second one without text, and a
    store with one collection. *)
Definition outside : Outside :=
  {| os_path_isfile := fun d p => bool_decide (is_Some (d !! p));
     write_file := fun p data d => (Return tt, <[p := data]> d);
     PdfReader := fun d p =>
       match d !! p with
       | Some (Byte.x25 :: _) => Return (PyObj 10)
       | _ => Raise (Exception "EOF marker not found")
       end;
     reader_pages := fun _ => Return [Return (PyObj 11); Return (PyObj 12)];
     page_extract_text := fun page =>
       if (obj_id page =? 11)%nat
       then Return (Some "The capital of France is Paris.")
       else Return None;
     collection_delete := fun _ c => (Return tt, c);
     client_list_collections := fun _ _ => Return [PyStr "pdf_chunks"];
     client_delete_collection := fun _ name c =>
       match name with
       | PyStr n => (Return tt, delete n c)
       | _ => (Raise (Exception "not a name"), c)
       end;
     format_2f := fun _ => "0.75";
     str_float := fun _ => "0.75";
     str_object := fun type_name => type_name |}.

Definition doc1 : UploadedFile :=
  {| file_name := "doc1.pdf"; file_data := pdf_bytes |}.

(** An upload that is no PDF. *)
Definition notes : UploadedFile :=
  {| file_name := "notes.pdf"; file_data := [] |}.

(** The first run of the script: nothing in the session, nothing done. *)
Definition start : world :=
  {| pipeline_state := Demo.fresh;
     disk := ∅;
     effects := [];
     session_state := {| chat_history := None; loaded_pdfs := None;
                         processing := None; session_error := None |} |}.

(** A later run: one PDF loaded, an empty chat. *)
Definition loaded : world :=
  {| pipeline_state := Demo.fresh;
     disk := <["data/doc1.pdf" := pdf_bytes]> ∅;
     effects := [];
     session_state := {| chat_history := Some [];
                         loaded_pdfs := Some ["doc1.pdf"];
                         processing := Some false;
                         session_error := Some PyNone |} |}.

(** The collaborators of the pipeline: all of them work, or the encoder
    raises. *)
Definition working : Collaborators :=
  Demo.world Demo.ok_collection Demo.ok_embeddings (Return Demo.paris)
             Demo.ok_generated.

Definition no_encoder : Collaborators :=
  Demo.world Demo.ok_collection (Raise (Exception "encoder crashed"))
             (Return Demo.paris) Demo.ok_generated.

End DemoApp.

(** * Properties of the pipeline *)

(** ** What a computation adds to the trace *)

Lemma adds_ret P {A} (a : A) : adds P (ret a).
Proof. intros s. exists []. simpl. rewrite app_nil_r. auto. Qed.

Lemma adds_raise P {A} (e : exn) : adds P (@raise A e).
Proof. intros s. exists []. simpl. rewrite app_nil_r. auto. Qed.

Lemma adds_emit (P : event -> Prop) ev : P ev -> adds P (emit ev).
Proof. intros HP s. exists [ev]. simpl. auto. Qed.

Lemma adds_bind P {A B} (m : M A) (k : A -> M B) :
  adds P m -> (forall a, adds P (k a)) -> adds P (bind m k).
Proof.
  intros Hm Hk s. unfold bind.
  destruct (Hm s) as [evs1 [E1 F1]].
  destruct (m s) as [[a | e] s1]; simpl in *.
  - destruct (Hk a s1) as [evs2 [E2 F2]].
    exists (evs1 ++ evs2). rewrite E2, E1, app_assoc.
    split; [reflexivity | apply Forall_app; auto].
  - exists evs1. auto.
Qed.

Lemma adds_try_except P {A} (body : M A) (handler : exn -> M A) :
  adds P body -> (forall e, adds P (handler e)) -> adds P (try_except body handler).
Proof.
  intros Hb Hh s. unfold try_except.
  destruct (Hb s) as [evs1 [E1 F1]].
  destruct (body s) as [[a | e] s1]; simpl in *.
  - exists evs1. auto.
  - destruct (Hh e s1) as [evs2 [E2 F2]].
    exists (evs1 ++ evs2). rewrite E2, E1, app_assoc.
    split; [reflexivity | apply Forall_app; auto].
Qed.

Lemma adds_call (P : event -> Prop) {A} ev (o : outcome A) :
  P ev -> adds P (call ev o).
Proof.
  intros HP. unfold call. apply adds_bind.
  - apply adds_emit, HP.
  - intros _ s. exists []. simpl. rewrite app_nil_r. auto.
Qed.

Lemma adds_index0 P {A} (l : list A) : adds P (index0 l).
Proof. destruct l; [apply adds_raise | apply adds_ret]. Qed.

Ltac adds_step :=
  first [ apply adds_call; reflexivity
        | apply adds_emit; reflexivity
        | apply adds_ret | apply adds_raise | apply adds_index0
        | apply adds_try_except; [| intros ?]
        | apply adds_bind; [| intros ?] ].

Lemma adds_load_embedding_model C : adds retrieval_event (load_embedding_model C).
Proof.
  intros s. unfold load_embedding_model.
  destruct (embedding_model_cache s).
  - exists []. simpl. rewrite app_nil_r. auto.
  - assert (H : adds retrieval_event (load_embedding_model_uncached C)).
    { unfold load_embedding_model_uncached, logger_info, logger_error.
      repeat adds_step. }
    destruct (H s) as [evs [E F]].
    destruct (load_embedding_model_uncached C s) as [[m | e] s1];
      exists evs; simpl in *; auto.
Qed.

Lemma adds_get_or_create_collection C name :
  adds retrieval_event (get_or_create_collection C name).
Proof.
  unfold get_or_create_collection, get_chroma_client, logger_error.
  repeat adds_step.
Qed.

Lemma adds_query_similar_chunks C query top_k name :
  adds retrieval_event (query_similar_chunks C query top_k name).
Proof.
  unfold query_similar_chunks, query_similar_chunks_try, logger_error.
  apply adds_bind; [apply adds_get_or_create_collection | intros collection].
  apply adds_bind; [apply adds_load_embedding_model | intros model].
  repeat adds_step.
Qed.

(** The scenario of the spec: one indexed chunk, "The capital of France is
    Paris.", and the question about the capital of France. *)
Example demo_answer :
  fst (answer_question
         (Demo.world Demo.ok_collection Demo.ok_embeddings
                     (Return Demo.paris) Demo.ok_generated)
         Demo.question 5 COLLECTION_NAME DEFAULT_MODEL Demo.fresh)
  = Return {| answer := Some "Paris";
              sources := [ {| source_pdf := PyStr "doc1";
                              chunk_index := PyInt 0;
                              source_score := 0.75%float |} ];
              confidence := 0.75%float;
              chunks := [ {| chunk := "The capital of France is Paris.";
                             score := 0.75%float;
                             metadata := Demo.doc1_meta |} ];
              error := None |}.
Proof. vm_compute. reflexivity. Qed.

(** ** How [answer_question] runs *)

Section Runs.

Variable C : Collaborators.
Variables question collection_name model_name : string.
Variable top_k : Z.

Lemma generate_answer_caught context max_new_tokens s e s' :
  generate_answer_try C question context model_name max_new_tokens s
    = (Raise e, s') ->
  generate_answer C question context model_name max_new_tokens s
    = (Return None,
       logged_error ("LLM inference failed: " ++ str_exn e)%string s').
Proof. intros H. unfold generate_answer, try_except. rewrite H. reflexivity. Qed.

Lemma generate_answer_passes context max_new_tokens s a s' :
  generate_answer_try C question context model_name max_new_tokens s
    = (Return a, s') ->
  generate_answer C question context model_name max_new_tokens s
    = (Return a, s').
Proof. intros H. unfold generate_answer, try_except. rewrite H. reflexivity. Qed.

(** [generate_answer] has no way to raise. *)
Lemma generate_answer_returns context max_new_tokens s :
  exists a s',
    generate_answer C question context model_name max_new_tokens s
      = (Return a, s').
Proof.
  destruct (generate_answer_try C question context model_name
                                max_new_tokens s) as [[a | e] s'] eqn:E.
  - eauto using generate_answer_passes.
  - eauto using generate_answer_caught.
Qed.

Lemma answer_question_no_context s s1 :
  query_similar_chunks C question top_k collection_name s = (Return [], s1) ->
  answer_question C question top_k collection_name model_name s
    = (Return no_context, s1).
Proof.
  intros H. unfold answer_question, try_except, bind. rewrite H. reflexivity.
Qed.

Lemma answer_question_packaged s retrieved s1 a s2 :
  query_similar_chunks C question top_k collection_name s
    = (Return retrieved, s1) ->
  retrieved <> [] ->
  generate_answer C question (context_of retrieved) model_name 256 s1
    = (Return a, s2) ->
  answer_question C question top_k collection_name model_name s
    = (Return (packaged retrieved a), s2).
Proof.
  intros Hq Hne Hg. unfold answer_question, try_except, bind. rewrite Hq.
  destruct retrieved as [| item rest]; [congruence |].
  unfold context_of in Hg. rewrite Hg. reflexivity.
Qed.

Lemma answer_question_handler s e s1 :
  query_similar_chunks C question top_k collection_name s = (Raise e, s1) ->
  answer_question C question top_k collection_name model_name s
    = (Return (failed e),
       logged_error ("RAG pipeline failed: " ++ str_exn e)%string s1).
Proof.
  intros H. unfold answer_question, try_except, bind. rewrite H. reflexivity.
Qed.

Lemma answer_question_run s :
  exists r s',
    answer_question C question top_k collection_name model_name s
      = (Return r, s')
    /\ run_of C question collection_name model_name top_k s r s'.
Proof.
  destruct (query_similar_chunks C question top_k collection_name s)
    as [[retrieved | e] s1] eqn:Hq.
  - destruct retrieved as [| item rest].
    + exists no_context, s1. split.
      * now apply answer_question_no_context.
      * now constructor.
    + destruct (generate_answer_returns (context_of (item :: rest)) 256 s1)
        as [a [s2 Hg]].
      exists (packaged (item :: rest) a), s2. split.
      * now apply answer_question_packaged with (s1 := s1).
      * now apply Packaged with (s1 := s1).
  - exists (failed e),
      (logged_error ("RAG pipeline failed: " ++ str_exn e)%string s1). split.
    + now apply answer_question_handler.
    + now constructor.
Qed.

End Runs.

(** ** The outcomes of [answer_question] *)

(** C3. When retrieval returns the empty list, [answer_question] returns
    answer [None], no sources, confidence 0.0 and the error "No relevant
    context found.", in the state retrieval left: nothing ran after it, and
    the events added to the trace contain no call of the generation
    collaborator. *)
Theorem no_context_on_empty_retrieval
    C question top_k collection_name model_name s s1 :
  query_similar_chunks C question top_k collection_name s = (Return [], s1) ->
  answer_question C question top_k collection_name model_name s
    = (Return {| answer := None; sources := []; confidence := 0%float;
                 chunks := [];
                 error := Some "No relevant context found."%string |}, s1)
  /\ exists evs, trace s1 = trace s ++ evs
                 /\ Forall (fun ev => is_generation_call ev = false) evs.
Proof.
  intros Hq. split.
  - now apply answer_question_no_context.
  - destruct (adds_query_similar_chunks C question top_k collection_name s)
      as [evs [E F]].
    rewrite Hq in E. simpl in E. now exists evs.
Qed.

Lemma no_context_on_empty_retrieval_witness :
  exists s1,
    query_similar_chunks
      (Demo.world Demo.ok_collection Demo.ok_embeddings (Return Demo.nothing)
                  Demo.ok_generated)
      Demo.question 5 COLLECTION_NAME Demo.fresh = (Return [], s1)
    /\ fst (answer_question
              (Demo.world Demo.ok_collection Demo.ok_embeddings
                          (Return Demo.nothing) Demo.ok_generated)
              Demo.question 5 COLLECTION_NAME DEFAULT_MODEL Demo.fresh)
       = Return no_context.
Proof.
  eexists. split.
  - vm_compute. reflexivity.
  - match goal with
    | |- fst (answer_question ?C ?q ?k ?cn ?mn ?s) = _ =>
        destruct (no_context_on_empty_retrieval C q k cn mn s
                    (snd (query_similar_chunks C q k cn s))) as [E _];
          [ vm_compute; reflexivity | rewrite E; reflexivity ]
    end.
Defined.

(** C1 as stated fails: the generation collaborator raises, and the result
    has a null error, a source and a non-zero confidence. *)
Lemma generation_failure_counterexample :
  pipe_call
    (Demo.world Demo.ok_collection Demo.ok_embeddings (Return Demo.paris)
                (Raise (Exception "CUDA out of memory")))
    (PyObj 3)
    (format_prompt Demo.question "The capital of France is Paris.") 256
  = Raise (Exception "CUDA out of memory")
  /\ fst (answer_question
            (Demo.world Demo.ok_collection Demo.ok_embeddings
                        (Return Demo.paris)
                        (Raise (Exception "CUDA out of memory")))
            Demo.question 5 COLLECTION_NAME DEFAULT_MODEL Demo.fresh)
     = Return {| answer := None;
                 sources := [ {| source_pdf := PyStr "doc1";
                                 chunk_index := PyInt 0;
                                 source_score := 0.75%float |} ];
                 confidence := 0.75%float;
                 chunks := [ {| chunk := "The capital of France is Paris.";
                                score := 0.75%float;
                                metadata := Demo.doc1_meta |} ];
                 error := None |}
  /\ In (Call_pipe (PyObj 3)
           (format_prompt Demo.question "The capital of France is Paris.")
           256)
        (trace (snd (answer_question
            (Demo.world Demo.ok_collection Demo.ok_embeddings
                        (Return Demo.paris)
                        (Raise (Exception "CUDA out of memory")))
            Demo.question 5 COLLECTION_NAME DEFAULT_MODEL Demo.fresh))).
Proof.
  split; [reflexivity | split].
  - vm_compute. reflexivity.
  - vm_compute. tauto.
Qed.

(** C1, amended. When the generation step fails after a non-empty retrieval,
    [generate_answer] catches the failure, logs it and returns [None];
    [answer_question] then returns answer [None] with error [None], one
    source per retrieved chunk and the mean similarity as confidence. *)
Theorem generation_failure_result
    C question top_k collection_name model_name s retrieved s1 e s2 :
  query_similar_chunks C question top_k collection_name s
    = (Return retrieved, s1) ->
  retrieved <> [] ->
  generate_answer_try C question (context_of retrieved) model_name 256 s1
    = (Raise e, s2) ->
  answer_question C question top_k collection_name model_name s
    = (Return {| answer := None;
                 sources := map format_source retrieved;
                 confidence := mean_score (map score retrieved);
                 chunks := retrieved;
                 error := None |},
       logged_error ("LLM inference failed: " ++ str_exn e)%string s2).
Proof.
  intros Hq Hne Hg.
  apply answer_question_packaged with (s1 := s1); auto.
  now apply generate_answer_caught.
Qed.

Lemma generation_failure_result_witness :
  fst (answer_question
         (Demo.world Demo.ok_collection Demo.ok_embeddings (Return Demo.paris)
                     (Raise (Exception "CUDA out of memory")))
         Demo.question 5 COLLECTION_NAME DEFAULT_MODEL Demo.fresh)
  = Return (packaged [ {| chunk := "The capital of France is Paris.";
                          score := 0.75%float;
                          metadata := Demo.doc1_meta |} ] None).
Proof.
  match goal with
  | |- fst (answer_question ?C ?q ?k ?cn ?mn ?s) = Return (packaged ?l _) =>
      rewrite (generation_failure_result C q k cn mn s l
                 (snd (query_similar_chunks C q k cn s))
                 (Exception "CUDA out of memory")
                 (snd (generate_answer_try C q (context_of l) mn 256
                         (snd (query_similar_chunks C q k cn s)))))
  end.
  - reflexivity.
  - vm_compute. reflexivity.
  - discriminate.
  - vm_compute. reflexivity.
Defined.

(** [generate_answer] returns [None] only when its [try] block raised. *)
Lemma generate_answer_None C question context model_name max_new_tokens s s' :
  generate_answer C question context model_name max_new_tokens s
    = (Return None, s') ->
  exists e s2,
    generate_answer_try C question context model_name max_new_tokens s
      = (Raise e, s2).
Proof.
  unfold generate_answer, try_except.
  destruct (generate_answer_try C question context model_name
                                max_new_tokens s) as [[a | e] s2] eqn:E.
  - intros H. injection H as Ha _. subst a. exfalso. revert E.
    unfold generate_answer_try, bind, ret, strip, getitem, index0, call,
      emit, raise.
    repeat match goal with
           | |- context [match ?x with _ => _ end] => destruct x
           end; simpl; congruence.
  - eauto.
Qed.

(** C2 as stated fails: after a generation failure both [answer] and
    [error] are null. *)
Lemma answer_xor_error_counterexample :
  exists r,
    fst (answer_question
           (Demo.world Demo.ok_collection Demo.ok_embeddings
                       (Return Demo.paris)
                       (Raise (Exception "CUDA out of memory")))
           Demo.question 5 COLLECTION_NAME DEFAULT_MODEL Demo.fresh)
    = Return r
    /\ answer r = None /\ error r = None.
Proof. eexists. split; [vm_compute; reflexivity | split; reflexivity]. Qed.

(** C2, amended. [answer_question] always returns a result, in which at
    most one of [answer] and [error] is non-null; whenever [error] is
    non-null, [answer] is null, [sources] is empty and [confidence] is 0.0;
    both are null exactly in the runs where retrieval was non-empty and the
    generation step raised. *)
Theorem answer_and_error C question top_k collection_name model_name s :
  exists r s',
    answer_question C question top_k collection_name model_name s
      = (Return r, s')
    /\ (answer r = None \/ error r = None)
    /\ (error r <> None ->
        answer r = None /\ sources r = [] /\ confidence r = 0%float)
    /\ (answer r = None -> error r = None ->
        exists retrieved s1 e s2,
          query_similar_chunks C question top_k collection_name s
            = (Return retrieved, s1)
          /\ retrieved <> []
          /\ generate_answer_try C question (context_of retrieved)
                                 model_name 256 s1 = (Raise e, s2)).
Proof.
  destruct (answer_question_run C question collection_name model_name top_k s)
    as [r [s' [E R]]].
  exists r, s'. split; [exact E |].
  destruct R as [s1 Hq | retrieved s1 a s2 Hq Hne Hg | e s1 Hq]; simpl.
  - repeat split; auto. discriminate.
  - repeat split; auto; try congruence.
    intros Ha _. subst a.
    apply generate_answer_None in Hg. destruct Hg as [e [s3 Hg]].
    now exists retrieved, s1, e, s3.
  - repeat split; auto. discriminate.
Qed.

(** C4 as stated fails: a failure of the generation collaborator leaves
    [error] null, and a failure of the embedding collaborator during the
    query is reported as "No relevant context found.", not by its message. *)
Lemma error_carries_message_counterexample :
  (exists r,
     fst (answer_question
            (Demo.world Demo.ok_collection Demo.ok_embeddings
                        (Return Demo.paris)
                        (Raise (Exception "CUDA out of memory")))
            Demo.question 5 COLLECTION_NAME DEFAULT_MODEL Demo.fresh)
     = Return r
     /\ error r = None)
  /\ (exists r,
        fst (answer_question
               (Demo.world Demo.ok_collection
                           (Raise (Exception "encoder crashed"))
                           (Return Demo.paris) Demo.ok_generated)
               Demo.question 5 COLLECTION_NAME DEFAULT_MODEL Demo.fresh)
        = Return r
        /\ error r = Some "No relevant context found."%string
        /\ error r <> Some "encoder crashed"%string).
Proof.
  split; eexists; (split; [vm_compute; reflexivity |]).
  - reflexivity.
  - split; [reflexivity | discriminate].
Qed.

(** C4, amended. [answer_question] never raises: it always returns a
    result.  The exceptions that reach its handler are those that escape
    [query_similar_chunks]; for them the result has a null answer, no
    sources, confidence 0.0 and the exception's message as error.  (A
    failure inside the query is reported as no context, and a generation
    failure as a null answer with a null error: C10 and C1.) *)
Theorem answer_question_never_raises
    C question top_k collection_name model_name s :
  (exists r s',
     answer_question C question top_k collection_name model_name s
       = (Return r, s'))
  /\ (forall e s1,
        query_similar_chunks C question top_k collection_name s
          = (Raise e, s1) ->
        fst (answer_question C question top_k collection_name model_name s)
        = Return {| answer := None; sources := []; confidence := 0%float;
                    chunks := []; error := Some (str_exn e) |})
  /\ (forall r s',
        answer_question C question top_k collection_name model_name s
          = (Return r, s') ->
        error r <> None ->
        error r <> Some "No relevant context found."%string ->
        exists e s1,
          query_similar_chunks C question top_k collection_name s
            = (Raise e, s1)
          /\ error r = Some (str_exn e)).
Proof.
  split; [| split].
  - destruct (answer_question_run C question collection_name model_name
                                  top_k s) as [r [s' [E _]]].
    eauto.
  - intros e s1 Hq.
    rewrite (answer_question_handler C question collection_name model_name
                                     top_k s e s1 Hq).
    reflexivity.
  - intros r s' E Herr Hnc.
    destruct (answer_question_run C question collection_name model_name
                                  top_k s) as [r0 [s0 [E0 R]]].
    rewrite E in E0. injection E0 as -> ->.
    destruct R as [s1 Hq | retrieved s1 a s2 Hq Hne Hg | e s1 Hq];
      simpl in *; try congruence.
    now exists e, s1.
Qed.

(** ** The context handed to generation *)

(** Once the pipeline is loaded, [generate_answer] calls it with the prompt
    built from the question and the context it was given. *)
Lemma generate_answer_calls_pipe
    C question context model_name max_new_tokens s pipe s1 a s2 :
  load_llm C model_name s = (Return pipe, s1) ->
  generate_answer C question context model_name max_new_tokens s
    = (Return a, s2) ->
  In (Call_pipe pipe (format_prompt question context) max_new_tokens)
     (trace s2).
Proof.
  intros Hl. unfold generate_answer, try_except, generate_answer_try, bind.
  rewrite Hl. unfold call, bind, emit, logger_error, emit. simpl.
  destruct (pipe_call C pipe (format_prompt question context) max_new_tokens)
    as [result | e]; simpl.
  - destruct result as [| first rest]; simpl.
    + intros H. injection H as _ <-. simpl.
      rewrite !in_app_iff. simpl. auto.
    + unfold getitem. destruct (first !! "generated_text"%string) as [v |];
        simpl.
      * destruct v; simpl; intros H; injection H as _ <-; simpl;
          rewrite ?in_app_iff; simpl; auto.
      * intros H. injection H as _ <-. simpl.
        rewrite !in_app_iff. simpl. auto.
  - intros H. injection H as _ <-. simpl.
    rewrite !in_app_iff. simpl. auto.
Qed.

Lemma string_length_app (s1 s2 : string) :
  String.length (s1 ++ s2)%string = (String.length s1 + String.length s2)%nat.
Proof. induction s1 as [| c s1 IH]; simpl; [reflexivity | now rewrite IH]. Qed.

(** [sep.join(parts)] neither drops nor cuts anything: its length is the
    total length of the parts plus one separator between neighbours. *)
Lemma length_join (sep : string) (parts : list string) :
  String.length (String.concat sep parts)
  = (list_sum (map String.length parts)
     + String.length sep * (length parts - 1))%nat.
Proof.
  induction parts as [| p rest IH]; [simpl; lia |].
  destruct rest as [| p' rest'].
  - simpl. lia.
  - change (String.concat sep (p :: p' :: rest'))
      with (p ++ sep ++ String.concat sep (p' :: rest'))%string.
    rewrite !string_length_app, IH. simpl. lia.
Qed.

(** The chunk texts of a retrieval are the collaborator's documents, in the
    collaborator's rank order. *)
Lemma retrieved_chunks_in_rank_order docs dists metas :
  map chunk (map format_result (zip3 docs dists metas))
  = firstn (Nat.min (length dists) (length metas)) docs.
Proof.
  revert dists metas. induction docs as [| doc docs IH]; intros dists metas.
  - now rewrite firstn_nil.
  - destruct dists as [| dist dists]; [reflexivity |].
    destruct metas as [| meta metas]; [reflexivity |].
    simpl. f_equal. apply IH.
Qed.

(** C8. After a non-empty retrieval the generation step is run on the chunk
    texts of the retrieved items, in retrieval order, joined by a blank line
    (two newlines); the whole of that string goes into the prompt the
    pipeline is called with. *)
Theorem context_is_joined_chunks
    C question top_k collection_name model_name s retrieved s1 :
  query_similar_chunks C question top_k collection_name s
    = (Return retrieved, s1) ->
  retrieved <> [] ->
  exists a s2,
    generate_answer C question
      (String.concat (nl ++ nl)%string (map chunk retrieved))
      model_name 256 s1 = (Return a, s2)
    /\ answer_question C question top_k collection_name model_name s
       = (Return (packaged retrieved a), s2)
    /\ forall pipe s1',
         load_llm C model_name s1 = (Return pipe, s1') ->
         In (Call_pipe pipe
               (format_prompt question
                  (String.concat (nl ++ nl)%string (map chunk retrieved)))
               256)
            (trace s2).
Proof.
  intros Hq Hne.
  destruct (generate_answer_returns C question model_name
              (context_of retrieved) 256 s1) as [a [s2 Hg]].
  exists a, s2. split; [exact Hg | split].
  - now apply answer_question_packaged with (s1 := s1).
  - intros pipe s1' Hl.
    exact (generate_answer_calls_pipe C question (context_of retrieved)
             model_name 256 s1 pipe s1' a s2 Hl Hg).
Qed.

Lemma context_is_joined_chunks_witness :
  exists s2,
    answer_question
      (Demo.world Demo.ok_collection Demo.ok_embeddings (Return Demo.two)
                  Demo.ok_generated)
      Demo.question 5 COLLECTION_NAME DEFAULT_MODEL Demo.fresh
    = (Return (packaged [ {| chunk := "Paris is the capital.";
                             score := 0.75%float;
                             metadata := Demo.doc1_meta |};
                          {| chunk := "Lyon is a city.";
                             score := 0.5%float;
                             metadata := Demo.doc1_meta |} ]
                        (Some "Paris"%string)), s2)
    /\ In (Call_pipe (PyObj 3)
             (format_prompt Demo.question
                ("Paris is the capital." ++ nl ++ nl ++ "Lyon is a city."))
             256)
          (trace s2).
Proof.
  match goal with
  | |- exists s2, answer_question ?C ?q ?k ?cn ?mn ?s
                  = (Return (packaged ?l _), _) /\ _ =>
      destruct (context_is_joined_chunks C q k cn mn s l
                  (snd (query_similar_chunks C q k cn s)))
        as [a [s2 [Hg [E Hin]]]];
        [ vm_compute; reflexivity | discriminate | ];
        assert (Ha : a = Some "Paris"%string)
          by (vm_compute in Hg; congruence);
        exists s2; split;
        [ rewrite E, Ha; reflexivity
        | apply (Hin (PyObj 3)
                   (snd (load_llm C mn (snd (query_similar_chunks C q k cn s)))));
          vm_compute; reflexivity ]
  end.
Defined.

(** ** Failures during retrieval *)

(** [get_or_create_collection] and [load_embedding_model] are called before
    the [try] of [query_similar_chunks]: what they raise, it raises. *)
Lemma query_similar_chunks_propagates C query top_k collection_name s :
  (forall e s1,
     get_or_create_collection C collection_name s = (Raise e, s1) ->
     query_similar_chunks C query top_k collection_name s = (Raise e, s1))
  /\ (forall collection s1 e s2,
        get_or_create_collection C collection_name s
          = (Return collection, s1) ->
        load_embedding_model C s1 = (Raise e, s2) ->
        query_similar_chunks C query top_k collection_name s = (Raise e, s2)).
Proof.
  split.
  - intros e s1 H. unfold query_similar_chunks, bind. now rewrite H.
  - intros collection s1 e s2 H1 H2. unfold query_similar_chunks, bind.
    now rewrite H1, H2.
Qed.

(** C10 as stated fails: the vector-search collaborator raises while the
    collection is obtained, [query_similar_chunks] raises in turn, and
    [answer_question] reports the exception's message. *)
Lemma retrieval_failure_counterexample :
  fst (query_similar_chunks
         (Demo.world (Raise (Exception "database is locked"))
                     Demo.ok_embeddings (Return Demo.paris) Demo.ok_generated)
         Demo.question 5 COLLECTION_NAME Demo.fresh)
  = Raise (Exception "database is locked")
  /\ exists r,
       fst (answer_question
              (Demo.world (Raise (Exception "database is locked"))
                          Demo.ok_embeddings (Return Demo.paris)
                          Demo.ok_generated)
              Demo.question 5 COLLECTION_NAME DEFAULT_MODEL Demo.fresh)
       = Return r
       /\ error r = Some "database is locked"%string
       /\ error r <> Some "No relevant context found."%string.
Proof.
  split; [vm_compute; reflexivity |].
  eexists. split; [vm_compute; reflexivity |].
  split; [reflexivity | discriminate].
Qed.

(** C10, amended. Once the collection and the embedding model are obtained,
    every exception of the query (embedding the question, the vector search,
    reading its result) is caught by [query_similar_chunks], which logs it
    and returns the empty list; [answer_question] then reports "No relevant
    context found.", as for an empty corpus.  (An exception raised while the
    collection or the model is obtained is not caught there.) *)
Theorem query_failure_is_no_context
    C question top_k collection_name model_name s collection s1 model s2 e s3 :
  get_or_create_collection C collection_name s = (Return collection, s1) ->
  load_embedding_model C s1 = (Return model, s2) ->
  query_similar_chunks_try C collection model question top_k s2
    = (Raise e, s3) ->
  query_similar_chunks C question top_k collection_name s
    = (Return [], logged_error ("Query failed: " ++ str_exn e)%string s3)
  /\ fst (answer_question C question top_k collection_name model_name s)
     = Return {| answer := None; sources := []; confidence := 0%float;
                 chunks := [];
                 error := Some "No relevant context found."%string |}.
Proof.
  intros H1 H2 H3.
  assert (Hq : query_similar_chunks C question top_k collection_name s
               = (Return [],
                  logged_error ("Query failed: " ++ str_exn e)%string s3)).
  { unfold query_similar_chunks, bind, try_except.
    rewrite H1, H2, H3. reflexivity. }
  split; [exact Hq |].
  now rewrite (answer_question_no_context C question collection_name
                 model_name top_k s _ Hq).
Qed.

Lemma query_failure_is_no_context_witness :
  fst (answer_question
         (Demo.world Demo.ok_collection (Raise (Exception "encoder crashed"))
                     (Return Demo.paris) Demo.ok_generated)
         Demo.question 5 COLLECTION_NAME DEFAULT_MODEL Demo.fresh)
  = Return no_context.
Proof.
  match goal with
  | |- fst (answer_question ?C ?q ?k ?cn ?mn ?s) = _ =>
      pose (s1 := snd (get_or_create_collection C cn s));
      pose (s2 := snd (load_embedding_model C s1));
      destruct (query_failure_is_no_context C q k cn mn s (PyObj 6) s1
                  (PyObj 4) s2 (Exception "encoder crashed")
                  (snd (query_similar_chunks_try C (PyObj 6) (PyObj 4) q k
                          s2)))
        as [_ E];
        [ vm_compute; reflexivity .. | exact E ]
  end.
Defined.

(** ** Indexing: deterministic ids *)

Section Indexing.

Local Open Scope nat_scope.

Lemma str_nat_inj i j : str_nat i = str_nat j -> i = j.
Proof.
  unfold str_nat. intros H.
  assert (Hu : Some (Nat.to_uint i) = Some (Nat.to_uint j)).
  { rewrite <- (NilEmpty.usu (Nat.to_uint i)), <- (NilEmpty.usu (Nat.to_uint j)).
    now rewrite H. }
  injection Hu as Hu.
  rewrite <- (Unsigned.of_to i), <- (Unsigned.of_to j). now rewrite Hu.
Qed.

Lemma string_app_inv_head (p a b : string) :
  (p ++ a)%string = (p ++ b)%string -> a = b.
Proof. induction p as [| c p IH]; simpl; [auto | intros H; injection H; auto]. Qed.

(** Within a document, different chunk indexes get different ids. *)
Lemma chunk_id_inj source_pdf i j :
  chunk_id source_pdf i = chunk_id source_pdf j -> i = j.
Proof.
  unfold chunk_id. intros H.
  apply string_app_inv_head in H. apply string_app_inv_head in H.
  now apply str_nat_inj.
Qed.

Lemma NoDup_chunk_ids source_pdf start n :
  NoDup (map (chunk_id source_pdf) (seq start n)).
Proof.
  apply NoDup_fmap_2.
  - intros i j. apply chunk_id_inj.
  - apply NoDup_ListNoDup, List.seq_NoDup.
Qed.

Lemma upsert_lookup_notin ids embeddings documents metadatas stored id :
  id ∉ ids ->
  upsert ids embeddings documents metadatas stored !! id = stored !! id.
Proof.
  revert embeddings documents metadatas stored.
  induction ids as [| id0 ids IH]; intros es ds ms stored Hnotin;
    [reflexivity |].
  apply not_elem_of_cons in Hnotin as [Hne Hnotin].
  destruct es as [| e es], ds as [| d ds], ms as [| m ms]; try reflexivity.
  simpl. rewrite IH by assumption. now apply lookup_insert_ne.
Qed.

(** After a write, the entry under the [i]-th id is the [i]-th one written. *)
Lemma upsert_lookup ids embeddings documents metadatas stored i id e d m :
  NoDup ids ->
  ids !! i = Some id -> embeddings !! i = Some e ->
  documents !! i = Some d -> metadatas !! i = Some m ->
  upsert ids embeddings documents metadatas stored !! id
  = Some {| embedding := e; document := d; stored_metadata := m |}.
Proof.
  revert embeddings documents metadatas stored i.
  induction ids as [| id0 ids IH]; intros es ds ms stored i Hnd Hi He Hd Hm;
    [discriminate |].
  apply NoDup_cons in Hnd as [Hnotin Hnd].
  destruct es as [| e0 es]; [now destruct i |].
  destruct ds as [| d0 ds]; [now destruct i |].
  destruct ms as [| m0 ms]; [now destruct i |].
  destruct i as [| i]; simpl in *.
  - injection Hi as ->. injection He as ->. injection Hd as ->.
    injection Hm as ->.
    rewrite upsert_lookup_notin by assumption. apply lookup_insert_eq.
  - now apply IH with (i := i).
Qed.

(** The ids a write fills, when the four lists have the same length. *)
Lemma upsert_dom ids embeddings documents metadatas stored :
  length embeddings = length ids ->
  length documents = length ids ->
  length metadatas = length ids ->
  dom (upsert ids embeddings documents metadatas stored)
  = list_to_set ids ∪ dom stored.
Proof.
  revert embeddings documents metadatas stored.
  induction ids as [| id ids IH]; intros es ds ms stored He Hd Hm.
  - simpl. apply set_eq. intros x.
    rewrite elem_of_union, elem_of_empty. tauto.
  - destruct es as [| e es]; [discriminate |].
    destruct ds as [| d ds]; [discriminate |].
    destruct ms as [| m ms]; [discriminate |].
    simpl in *. rewrite IH by lia. rewrite dom_insert_L.
    apply set_eq. intros x. rewrite !elem_of_union. tauto.
Qed.

Variable C : Collaborators.

(** A call of [store_embeddings] that returns has written its entries to
    the named collection, and nothing else. *)
Lemma store_embeddings_stored
    embeddings chunks source_pdf collection_name s s' :
  store_embeddings C embeddings chunks source_pdf collection_name s
    = (Return tt, s') ->
  collection_of collection_name s'
  = upsert (map (chunk_id source_pdf) (seq 0 (length chunks)))
           embeddings chunks
           (map (chunk_metadata source_pdf) (seq 0 (length chunks)))
           (collection_of collection_name s).
Proof.
  unfold store_embeddings, get_or_create_collection, get_chroma_client,
    add, try_except, bind, call, emit, bind, logger_info, logger_error, emit,
    raise.
  simpl.
  destruct (chromadb_Client C CHROMA_DB_DIR) as [client | e]; simpl;
    [| discriminate].
  destruct (client_get_or_create_collection C client collection_name)
    as [collection | e]; simpl; [| discriminate].
  destruct (collection_add C collection embeddings chunks _ _) as [[] | e];
    simpl; [| discriminate].
  intros H. injection H as <-.
  unfold collection_of. simpl. now rewrite lookup_insert_eq.
Qed.

End Indexing.

(** C7. Indexing a document again under the same [source_pdf], with no more
    chunks than before, leaves the size of the collection unchanged, and
    the single entry under each id "{source_pdf}_{i}" is the one written
    last: re-indexing overwrites.  (The store and its write are the spec's:
    see [upsert].) *)
Theorem reindexing_overwrites
    C embeddings chunks embeddings' chunks' source_pdf collection_name
    s s1 s2 :
  length embeddings = length chunks ->
  length embeddings' = length chunks' ->
  (length chunks' <= length chunks)%nat ->
  store_embeddings C embeddings chunks source_pdf collection_name s
    = (Return tt, s1) ->
  store_embeddings C embeddings' chunks' source_pdf collection_name s1
    = (Return tt, s2) ->
  size (collection_of collection_name s2)
  = size (collection_of collection_name s1)
  /\ forall (i : nat) e d,
       embeddings' !! i = Some e -> chunks' !! i = Some d ->
       collection_of collection_name s2
         !! (source_pdf ++ "_" ++ str_nat i)%string
       = Some {| embedding := e; document := d;
                 stored_metadata := chunk_metadata source_pdf i |}.
Proof.
  intros He He' Hle H1 H2.
  apply store_embeddings_stored in H1, H2.
  split.
  - rewrite <- !size_dom. f_equal.
    rewrite H2, upsert_dom by (rewrite ?length_map, ?length_seq; lia).
    rewrite H1 at 2.
    rewrite upsert_dom by (rewrite ?length_map, ?length_seq; lia).
    assert (Hsub : (list_to_set (map (chunk_id source_pdf)
                                     (seq 0 (length chunks')))
                    : gset string)
                   ⊆ list_to_set (map (chunk_id source_pdf)
                                      (seq 0 (length chunks)))).
    { intros id. rewrite !elem_of_list_to_set, !list_elem_of_In, !in_map_iff.
      intros [i [Hi Hin]]. exists i. split; [exact Hi |].
      apply in_seq in Hin. apply in_seq. lia. }
    rewrite H1 at 1.
    rewrite upsert_dom by (rewrite ?length_map, ?length_seq; lia).
    apply set_eq. intros x. rewrite !elem_of_union.
    specialize (Hsub x). tauto.
  - intros i e d Hie Hid. rewrite H2.
    assert (Hlt : (i < length chunks')%nat) by (eapply lookup_lt_Some; eauto).
    apply upsert_lookup with (i := i); auto.
    + apply NoDup_chunk_ids.
    + rewrite list_lookup_fmap, lookup_seq_lt by assumption. reflexivity.
    + rewrite list_lookup_fmap, lookup_seq_lt by assumption. reflexivity.
Qed.

Lemma reindexing_overwrites_witness :
  let C := Demo.world Demo.ok_collection Demo.ok_embeddings
                      (Return Demo.paris) Demo.ok_generated in
  let s1 := snd (store_embeddings C [[0.5%float]] ["Paris is in France."]
                                  "doc1" COLLECTION_NAME Demo.fresh) in
  let s2 := snd (store_embeddings C [[0.25%float]]
                                  ["The capital of France is Paris."]
                                  "doc1" COLLECTION_NAME s1) in
  size (collection_of COLLECTION_NAME s2) = 1%nat
  /\ size (collection_of COLLECTION_NAME s2)
     = size (collection_of COLLECTION_NAME s1)
  /\ collection_of COLLECTION_NAME s2 !! "doc1_0"%string
     = Some {| embedding := [0.25%float];
               document := "The capital of France is Paris.";
               stored_metadata := chunk_metadata "doc1" 0 |}.
Proof.
  intros C s1 s2.
  destruct (reindexing_overwrites C [[0.5%float]] ["Paris is in France."]
              [[0.25%float]] ["The capital of France is Paris."]
              "doc1" COLLECTION_NAME Demo.fresh s1 s2)
    as [Hsize Hlookup];
    [ reflexivity | reflexivity | simpl; lia
    | vm_compute; reflexivity | vm_compute; reflexivity | ].
  split; [vm_compute; reflexivity | split; [exact Hsize |]].
  exact (Hlookup 0%nat [0.25%float] "The capital of France is Paris."%string
                 eq_refl eq_refl).
Defined.

(** * Whitespace *)

Section Whitespace.

Local Open Scope nat_scope.

Ltac booleans :=
  repeat match goal with
         | H : _ = true |- _ =>
             first [ apply andb_true_iff in H as [? ?]
                   | apply orb_true_iff in H as [? | ?]
                   | apply Nat.eqb_eq in H
                   | apply Nat.leb_le in H ]
         end.

Lemma is_space_length p : is_space p = true -> 1 <= length p <= 3.
Proof.
  destruct p as [| a [| b [| c [| d p]]]]; simpl; try discriminate; lia.
Qed.

(** No whitespace character begins another one, read from the front or from
    the end. *)
Definition prefix_free (space : list ascii -> bool) : Prop :=
  forall p, space p = true ->
    1 <= length p <= 3
    /\ forall a b c, 
         (p = [a; b] -> space [a] = false)
         /\ (p = [a; b; c] -> space [a] = false /\ space [a; b] = false).

Lemma is_space_prefix_free : prefix_free is_space.
Proof.
  intros p Hp. split; [now apply is_space_length |].
  intros a b c. split; [intros -> | intros ->]; unfold is_space in *;
    cbn [map] in *; booleans; subst;
    repeat split; apply not_true_is_false; intros Hx; booleans; lia.
Qed.

Lemma is_space_rev_prefix_free : prefix_free (fun p => is_space (rev p)).
Proof.
  intros p Hp. split.
  - apply is_space_length in Hp. now rewrite length_rev in Hp.
  - intros a b c. split; [intros -> | intros ->]; unfold is_space in *;
      cbn [map rev app] in *; booleans; subst;
      repeat split; apply not_true_is_false; intros Hx; booleans; lia.
Qed.

Section StripFront.

Variable space : list ascii -> bool.
Hypothesis space_free : prefix_free space.

(** A whitespace character at the front goes. *)
Lemma strip_front_app p l :
  space p = true -> strip_front space (p ++ l) = strip_front space l.
Proof.
  intros Hp. destruct (space_free p Hp) as [Hlen Hfree].
  destruct p as [| a [| b [| c [| d p]]]]; simpl in Hlen; try lia.
  - simpl. now rewrite Hp.
  - destruct (Hfree a b a) as [H2 _]. simpl. now rewrite (H2 eq_refl), Hp.
  - destruct (Hfree a b c) as [_ H3]. destruct (H3 eq_refl) as [H1 H2].
    simpl. now rewrite H1, H2, Hp.
Qed.

Lemma strip_front_blank parts :
  Forall (fun p => space p = true) parts ->
  strip_front space (concat parts) = [].
Proof.
  induction 1 as [| p parts Hp _ IH]; [reflexivity |].
  simpl. now rewrite strip_front_app.
Qed.

(** What [strip_front] removes is whitespace, and what it leaves does not
    start with a whitespace character. *)
Lemma strip_front_spec l :
  exists parts,
    Forall (fun p => space p = true) parts
    /\ l = concat parts ++ strip_front space l
    /\ forall p rest, strip_front space l = p ++ rest -> space p = false.
Proof.
  assert (H : forall n l, length l <= n ->
            exists parts,
              Forall (fun p => space p = true) parts
              /\ l = concat parts ++ strip_front space l
              /\ forall p rest,
                   strip_front space l = p ++ rest -> space p = false).
  { clear l. induction n as [| n IH]; intros l Hn.
    - destruct l; [| simpl in Hn; lia]. exists []. repeat split; auto.
      intros p rest E. simpl in E. symmetry in E.
      apply app_eq_nil in E as [-> _].
      apply not_true_is_false. intros Hp. apply space_free in Hp.
      simpl in Hp. lia.
    - assert (Hkeep : forall l : list ascii,
                 (forall p rest, l = p ++ rest -> space p = false) ->
                 strip_front space l = l ->
                 exists parts,
                   Forall (fun p => space p = true) parts
                   /\ l = concat parts ++ strip_front space l
                   /\ forall p rest,
                        strip_front space l = p ++ rest -> space p = false).
      { intros l0 Hno E. exists []. rewrite E. repeat split; auto. }
      assert (Hgo : forall (p l0 : list ascii),
                 space p = true -> length l0 <= n ->
                 strip_front space (p ++ l0) = strip_front space l0 ->
                 exists parts,
                   Forall (fun p => space p = true) parts
                   /\ p ++ l0 = concat parts ++ strip_front space (p ++ l0)
                   /\ forall q rest,
                        strip_front space (p ++ l0) = q ++ rest ->
                        space q = false).
      { intros p l0 Hp Hl0 E. rewrite E.
        destruct (IH l0 Hl0) as [parts [F [Hc Hno]]].
        exists (p :: parts). split; [now constructor |]. split; [| exact Hno].
        simpl. rewrite <- app_assoc. now f_equal. }
      assert (Hnil : forall p : list ascii, p = [] -> space p = false).
      { intros p ->. apply not_true_is_false. intros Hp.
        apply space_free in Hp. simpl in Hp. lia. }
      assert (Hlong : forall p : list ascii, 3 < length p -> space p = false).
      { intros p Hl. apply not_true_is_false. intros Hp.
        apply space_free in Hp. lia. }
      destruct l as [| a r1]; [apply (IH []); simpl; lia |].
      simpl in Hn.
      destruct (space [a]) eqn:E1.
      { apply (Hgo [a] r1 E1); [lia |]. simpl. now rewrite E1. }
      destruct r1 as [| b r2].
      { apply Hkeep; [| simpl; now rewrite E1].
        intros p rest E. destruct p as [| x [| y p]]; [now apply Hnil | |].
        - injection E as <- _. exact E1.
        - discriminate. }
      simpl in Hn.
      destruct (space [a; b]) eqn:E2.
      { apply (Hgo [a; b] r2 E2); [lia |]. simpl. now rewrite E1, E2. }
      destruct r2 as [| c r3].
      { apply Hkeep; [| simpl; now rewrite E1, E2].
        intros p rest E. destruct p as [| x [| y [| z p]]]; [now apply Hnil | | |].
        - injection E as <- _. exact E1.
        - injection E as <- <- _. exact E2.
        - discriminate. }
      simpl in Hn.
      destruct (space [a; b; c]) eqn:E3.
      { apply (Hgo [a; b; c] r3 E3); [lia |]. simpl. now rewrite E1, E2, E3. }
      apply Hkeep; [| simpl; now rewrite E1, E2, E3].
      intros p rest E.
      destruct p as [| x [| y [| z [| t p]]]]; [now apply Hnil | | | |].
      + injection E as <- _. exact E1.
      + injection E as <- <- _. exact E2.
      + injection E as <- <- <- _. exact E3.
      + apply Hlong. simpl. lia. }
  apply (H (length l)). lia.
Qed.

End StripFront.

Lemma string_of_list_ascii_nil l : string_of_list_ascii l = ""%string -> l = [].
Proof. destruct l; [reflexivity | discriminate]. Qed.

Lemma concat_rev_parts (parts : list (list ascii)) :
  rev (concat parts) = concat (rev (map (@rev ascii) parts)).
Proof.
  induction parts as [| p parts IH]; [reflexivity |].
  simpl. rewrite rev_app_distr, IH, concat_app. simpl.
  now rewrite app_nil_r.
Qed.

(** [strip] leaves nothing exactly of a blank text. *)
Lemma str_strip_blank s : str_strip s = ""%string <-> blank s.
Proof.
  unfold str_strip, blank. split.
  - intros H. apply string_of_list_ascii_nil in H.
    destruct (strip_front_spec is_space is_space_prefix_free
                (list_ascii_of_string s)) as [parts [F [Hc Hno]]].
    fold (lstrip (list_ascii_of_string s)) in Hc, Hno.
    set (l := lstrip (list_ascii_of_string s)) in *.
    unfold rstrip in H. apply (f_equal (@rev ascii)) in H.
    rewrite rev_involutive in H. simpl in H.
    destruct (strip_front_spec _ is_space_rev_prefix_free (rev l))
      as [back [Fb [Hb _]]].
    rewrite H, app_nil_r in Hb.
    apply (f_equal (@rev ascii)) in Hb.
    rewrite rev_involutive, concat_rev_parts in Hb.
    assert (Hl : l = []).
    { destruct (rev (map (@rev ascii) back)) as [| p ps] eqn:E.
      - exact Hb.
      - exfalso. simpl in Hb.
        assert (Hp : is_space p = true).
        { assert (Hin : In p (rev (map (@rev ascii) back)))
            by (rewrite E; now left).
          apply in_rev, in_map_iff in Hin as [q [<- Hq]].
          rewrite List.Forall_forall in Fb. now apply Fb. }
        rewrite (Hno p (concat ps) Hb) in Hp. discriminate. }
    exists parts. split; [exact F |]. now rewrite Hl, app_nil_r in Hc.
  - intros [parts [F E]]. rewrite E. unfold lstrip.
    now rewrite (strip_front_blank is_space is_space_prefix_free parts F).
Qed.

End Whitespace.

(** * Properties of the chunker *)

Section SplitterFacts.

Local Open Scope nat_scope.

Variables chunk_size overlap : nat.

(** Cutting loses nothing: the pieces, put back together, are the text. *)
Lemma concat_split_on sep acc text :
  concat (split_on sep acc text) = rev acc ++ text.
Proof.
  revert acc. induction text as [| c rest IH]; intros acc.
  - destruct acc; simpl; now rewrite ?app_nil_r.
  - simpl. destruct (ends_with sep (c :: acc)); simpl; rewrite IH; simpl.
    + now rewrite <- app_assoc.
    + now rewrite <- app_assoc.
Qed.

Lemma concat_split_recursive seps text :
  concat (split_recursive chunk_size seps text) = text.
Proof.
  revert text. induction seps as [| sep finer IH]; intros text; simpl.
  - now rewrite app_nil_r.
  - destruct (chars text <=? chunk_size); simpl; [now rewrite app_nil_r |].
    rewrite <- (concat_split_on sep [] text) at 2. simpl.
    induction (split_on sep [] text) as [| p ps IHp]; simpl; [reflexivity |].
    now rewrite concat_app, IH, IHp.
Qed.



Lemma chars_last_chars n (l : list ascii) : chars (last_chars n l) <= n.
Proof.
  induction l as [| c rest IH]; [simpl; lia |].
  cbn [last_chars].
  destruct ((chars (c :: rest) <=? n) && negb (is_continuation c)) eqn:E;
    [| exact IH].
  apply andb_true_iff in E as [E _]. now apply Nat.leb_le.
Qed.




End SplitterFacts.

Section ChunkBound.

Local Open Scope nat_scope.



(** ** Tokens are indivisible *)

Lemma ends_with_suffix sep acc :
  ends_with sep acc = true <-> sep `suffix_of` rev acc.
Proof.
  unfold ends_with. rewrite bool_decide_eq_true. split.
  - intros H. exists (rev (skipn (length sep) acc)).
    rewrite <- (firstn_skipn (length sep) acc) at 1.
    now rewrite rev_app_distr, H, rev_involutive.
  - intros [k Hk].
    assert (Hacc : acc = rev sep ++ rev k).
    { rewrite <- (rev_involutive acc), Hk, rev_app_distr. reflexivity. }
    rewrite Hacc, <- length_rev.
    rewrite firstn_app, firstn_all, Nat.sub_diag. simpl.
    apply app_nil_r.
Qed.

Lemma split_on_no_cut sep text :
  forall acc,
    (forall q r, rev acc = q ++ r -> q <> [] -> ~ sep `suffix_of` q) ->
    Forall (no_cut sep) (split_on sep acc text).
Proof.
  induction text as [| c rest IH]; intros acc Hacc.
  - destruct acc as [| a acc']; simpl; constructor; [| constructor].
    intros q r Hp Hq _. now apply (Hacc q r).
  - simpl. destruct (ends_with sep (c :: acc)) eqn:Hends.
    + constructor.
      * intros q r Hp Hq Hr. simpl in Hp.
        destruct (exists_last Hr) as [r' [x ->]].
        rewrite app_assoc in Hp. apply app_inj_tail in Hp as [Hp _].
        now apply (Hacc q r').
      * apply IH. intros q r Hp Hq. destruct q; [exfalso; now apply Hq | discriminate].
    + apply IH. intros q r Hp Hq. simpl in Hp.
      destruct r as [| x r0].
      * rewrite app_nil_r in Hp. subst q.
        intros Hs. apply (ends_with_suffix sep (c :: acc)) in Hs. congruence.
      * destruct (@exists_last _ (x :: r0)) as [r' [y Hr']]; [discriminate |].
        rewrite Hr', app_assoc in Hp. apply app_inj_tail in Hp as [Hp _].
        now apply (Hacc q r').
Qed.

Lemma no_cut_split_on sep text :
  forall acc,
    no_cut sep (rev acc ++ text) -> rev acc ++ text <> [] ->
    split_on sep acc text = [rev acc ++ text].
Proof.
  induction text as [| c rest IH]; intros acc Hcut Hne.
  - rewrite app_nil_r in *.
    destruct acc; [exfalso; now apply Hne | reflexivity].
  - simpl. destruct rest as [| c' rest'].
    + destruct (ends_with sep (c :: acc)); reflexivity.
    + destruct (ends_with sep (c :: acc)) eqn:Hends.
      * exfalso. apply ends_with_suffix in Hends.
        apply (Hcut (rev (c :: acc)) (c' :: rest')).
        -- simpl. now rewrite <- app_assoc.
        -- simpl. now destruct (rev acc).
        -- discriminate.
        -- exact Hends.
      * rewrite IH.
        -- simpl. now rewrite <- app_assoc.
        -- simpl. now rewrite <- app_assoc.
        -- simpl. now destruct (rev acc).
Qed.

Lemma no_cut_part sep u p v : no_cut sep (u ++ p ++ v) -> no_cut sep p.
Proof.
  intros Hcut q r -> Hq Hr [k Hk].
  apply (Hcut (u ++ q) (r ++ v)).
  - now rewrite <- !app_assoc.
  - now destruct u, q.
  - now destruct r.
  - exists (u ++ k). rewrite Hk. now rewrite app_assoc.
Qed.

Lemma in_concat_part (p : list ascii) (l : list (list ascii)) :
  In p l -> exists u v, concat l = u ++ p ++ v.
Proof.
  induction l as [| x l IH]; [intros [] |].
  intros [-> | Hin].
  - exists [], (concat l). reflexivity.
  - destruct (IH Hin) as [u [v E]]. exists (x ++ u), v.
    simpl. rewrite E. now rewrite <- app_assoc.
Qed.

Lemma concat_tokens_of seps text : concat (tokens_of seps text) = text.
Proof.
  revert text. induction seps as [| sep finer IH]; intros text; simpl.
  - now rewrite app_nil_r.
  - rewrite <- (concat_split_on sep [] text) at 2. simpl.
    induction (split_on sep [] text) as [| p ps IHp]; simpl; [reflexivity |].
    now rewrite concat_app, IH, IHp.
Qed.

Lemma tokens_of_no_cut seps text t sep :
  In t (tokens_of seps text) -> In sep seps -> no_cut sep t.
Proof.
  revert text. induction seps as [| sep0 finer IH]; intros text Ht Hsep;
    [destruct Hsep |].
  simpl in Ht. apply in_flat_map in Ht as [q [Hq Ht]].
  destruct Hsep as [-> | Hsep]; [| now apply (IH q)].
  assert (Hcut : no_cut sep q).
  { pose proof (split_on_no_cut sep text []) as H.
    rewrite Forall_forall in H. apply H.
    - intros q0 r0 Hp Hq0. destruct q0; [exfalso; now apply Hq0 | discriminate].
    - now apply list_elem_of_In. }
  destruct (in_concat_part t _ Ht) as [u [v E]].
  rewrite concat_tokens_of in E. rewrite E in Hcut.
  now apply no_cut_part in Hcut.
Qed.

(** A token cannot be cut again: cutting it at any of the separators
    gives the token back. *)
Lemma token_indivisible seps text t sep :
  In t (tokens_of seps text) -> In sep seps -> t <> [] ->
  split_on sep [] t = [t].
Proof.
  intros Ht Hsep Hne.
  apply (no_cut_split_on sep t []); [| exact Hne].
  now apply (tokens_of_no_cut seps text).
Qed.

(** ** Chunks cover the text, with bounded overlap *)

Lemma split_on_nonempty sep text acc :
  Forall (fun p => p <> []) (split_on sep acc text).
Proof.
  revert acc. induction text as [| c rest IH]; intros acc; simpl.
  - destruct acc as [| a acc']; constructor; [| constructor].
    simpl. now destruct (rev acc').
  - destruct (ends_with sep (c :: acc)); [constructor |]; auto.
    simpl. now destruct (rev acc).
Qed.

Lemma split_recursive_nonempty chunk_size seps text :
  text <> [] ->
  Forall (fun p => p <> []) (split_recursive chunk_size seps text).
Proof.
  revert text. induction seps as [| sep finer IH]; intros text Hne; simpl.
  - now constructor.
  - destruct (chars text <=? chunk_size); [now constructor |].
    pose proof (split_on_nonempty sep text []) as Hs.
    induction Hs as [| p ps Hp _ IHs]; simpl; [constructor |].
    apply Forall_app. split; [now apply IH | exact IHs].
Qed.

Lemma last_chars_suffix n (l : list ascii) : last_chars n l `suffix_of` l.
Proof.
  induction l as [| c rest IH]; [reflexivity |].
  cbn [last_chars].
  destruct ((chars (c :: rest) <=? n) && negb (is_continuation c));
    [reflexivity | now apply suffix_cons_r].
Qed.

Lemma merge_pieces_overlapping chunk_size overlap pieces :
  Forall (fun p => p <> []) pieces ->
  forall prev carried fresh,
    carried `suffix_of` prev ->
    chars carried <= overlap ->
    (fresh = [] -> carried = []) ->
    overlapping overlap prev
      (merge_pieces chunk_size overlap (carried ++ fresh) pieces)
      (fresh ++ concat pieces).
Proof.
  induction 1 as [| piece rest Hpiece _ IH];
    intros prev carried fresh Hsuf Hlen Hfresh; cbn [merge_pieces concat].
  - rewrite app_nil_r.
    destruct (carried ++ fresh) as [| c current] eqn:E.
    + apply app_eq_nil in E as [_ ->]. constructor.
    + rewrite <- E.
      assert (Hf : fresh <> [])
        by (intros ->; rewrite (Hfresh eq_refl) in E; discriminate).
      pose proof (overlapping_cons overlap prev carried fresh [] [] Hsuf Hlen
                    Hf (overlapping_nil _ _)) as H.
      now rewrite app_nil_r in H.
  - destruct (chars (carried ++ fresh) + chars piece <=? chunk_size).
    + rewrite <- app_assoc. rewrite app_assoc with (l := fresh).
      apply IH; auto. intros H. apply app_eq_nil in H as [_ ->].
      now contradiction Hpiece.
    + destruct (carried ++ fresh) as [| c current] eqn:E.
      * apply app_eq_nil in E as [-> ->]. simpl.
        apply (IH prev [] piece); auto; simpl; lia.
      * rewrite <- E. constructor; auto.
        -- intros ->. rewrite (Hfresh eq_refl) in E. discriminate.
        -- apply IH.
           ++ apply last_chars_suffix.
           ++ pose proof (chars_last_chars
                            (Nat.min overlap (chunk_size - chars piece))
                            (carried ++ fresh)). lia.
           ++ intros ->. now contradiction Hpiece.
Qed.

(** The chunks of a text that is not blank cover it: each chunk after the
    first begins with at most [overlap] characters from the end of the chunk
    before, and what the chunks add, put end to end, is the text. *)
Lemma chunk_text_overlapping text chunk_size overlap :
  ~ blank text ->
  exists chunks,
    chunk_text text chunk_size overlap = map string_of_list_ascii chunks
    /\ overlapping overlap [] chunks (list_ascii_of_string text).
Proof.
  intros Hnb. unfold chunk_text, split_text.
  destruct (str_strip text) as [| c0 rest0] eqn:Es;
    [exfalso; now apply Hnb, str_strip_blank |].
  destruct text as [| c text']; [discriminate |].
  - eexists. split; [reflexivity |].
    set (text := String c text').
    assert (Hne : list_ascii_of_string text <> []) by discriminate.
    rewrite <- (concat_split_recursive chunk_size
                  (map list_ascii_of_string separators)
                  (list_ascii_of_string text)) at 2.
    apply (merge_pieces_overlapping chunk_size overlap _
             (split_recursive_nonempty chunk_size _ _ Hne) [] [] []);
      auto; simpl; lia.
Qed.

End ChunkBound.

(** * Binary64 subtraction from 1.0 *)

Section Binary64.

Local Open Scope Z_scope.

Lemma compare_scale a b c : 0 < c -> (a * c ?= b * c) = (a ?= b).
Proof.
  intros Hc. destruct (Z.compare_spec a b).
  - subst. apply Z.compare_refl.
  - apply Z.compare_lt_iff. nia.
  - apply Z.compare_gt_iff. nia.
Qed.

Lemma rne_bounds m n : 0 <= n -> m / 2 ^ n <= rne m n <= m / 2 ^ n + 1.
Proof.
  intros Hn. unfold rne.
  destruct (2 * (m mod 2 ^ n) ?= 2 ^ n); [destruct (Z.even _) | |]; lia.
Qed.

Lemma rne_mono m1 m2 n : 0 <= n -> m1 <= m2 -> rne m1 n <= rne m2 n.
Proof.
  intros Hn Hle.
  assert (Hp : 0 < 2 ^ n) by (apply Z.pow_pos_nonneg; lia).
  assert (Hq : m1 / 2 ^ n <= m2 / 2 ^ n) by (apply Z.div_le_mono; lia).
  destruct (Z.eq_dec (m1 / 2 ^ n) (m2 / 2 ^ n)) as [E | NE].
  - assert (Hr : m1 mod 2 ^ n <= m2 mod 2 ^ n).
    { rewrite !Z.mod_eq by lia. rewrite E. lia. }
    unfold rne. rewrite E.
    destruct (Z.compare_spec (2 * (m1 mod 2 ^ n)) (2 ^ n));
      destruct (Z.compare_spec (2 * (m2 mod 2 ^ n)) (2 ^ n));
      try destruct (Z.even _); lia.
  - pose proof (rne_bounds m1 n Hn). pose proof (rne_bounds m2 n Hn). lia.
Qed.

Lemma rne_scale m n j : 0 <= n -> 0 <= j -> rne (m * 2 ^ j) (n + j) = rne m n.
Proof.
  intros Hn Hj.
  assert (Hpn : 0 < 2 ^ n) by (apply Z.pow_pos_nonneg; lia).
  assert (Hpj : 0 < 2 ^ j) by (apply Z.pow_pos_nonneg; lia).
  unfold rne. rewrite Z.pow_add_r by lia.
  rewrite Z.div_mul_cancel_r by lia.
  rewrite Z.mul_mod_distr_r by lia.
  replace (2 * (m mod 2 ^ n * 2 ^ j)) with ((2 * (m mod 2 ^ n)) * 2 ^ j) by ring.
  rewrite (compare_scale _ _ _ Hpj). reflexivity.
Qed.

Lemma rne_exact m n : 0 <= n -> rne (m * 2 ^ n) n = m.
Proof.
  intros Hn.
  assert (Hpn : 0 < 2 ^ n) by (apply Z.pow_pos_nonneg; lia).
  unfold rne. rewrite Z.div_mul by lia. rewrite Z.mod_mul by lia.
  assert (Hc : (2 * 0 ?= 2 ^ n) = Lt) by (apply Z.compare_lt_iff; lia).
  now rewrite Hc.
Qed.

Lemma rnd_pos_mono V1 V2 : 0 < V1 -> V1 <= V2 -> rnd_pos V1 <= rnd_pos V2.
Proof.
  intros Hpos Hle. unfold rnd_pos.
  set (k1 := Z.max 0 (Z.log2 V1 - 52)). set (k2 := Z.max 0 (Z.log2 V2 - 52)).
  assert (Hk : k1 <= k2) by (pose proof (Z.log2_le_mono V1 V2 Hle); lia).
  assert (H1 : 0 <= k1) by lia.
  assert (Hp1 : 0 < 2 ^ k1) by (apply Z.pow_pos_nonneg; lia).
  destruct (Z.eq_dec k1 k2) as [E | NE].
  - rewrite <- E. apply Z.mul_le_mono_nonneg_r; [lia |].
    now apply rne_mono.
  - assert (Hk2 : k2 = Z.log2 V2 - 52) by lia.
    assert (Hp2 : 0 < 2 ^ k2) by (apply Z.pow_pos_nonneg; lia).
    (* the smaller one is at most 2^(53+k1) *)
    assert (Hu : rne V1 k1 <= 2 ^ 53).
    { pose proof (rne_bounds V1 k1 H1) as [_ Hb].
      assert (V1 / 2 ^ k1 < 2 ^ 53); [| lia].
      apply Z.div_lt_upper_bound; [lia |].
      rewrite <- Z.pow_add_r by lia.
      destruct (Z.log2_spec V1 Hpos) as [_ Hlt].
      eapply Z.lt_le_trans; [exact Hlt |].
      apply Z.pow_le_mono_r; lia. }
    assert (Hl : 2 ^ 52 <= rne V2 k2).
    { pose proof (rne_bounds V2 k2 ltac:(lia)) as [Hb _].
      assert (2 ^ 52 <= V2 / 2 ^ k2); [| lia].
      apply Z.div_le_lower_bound; [lia |].
      rewrite <- Z.pow_add_r by lia.
      destruct (Z.log2_spec V2 ltac:(lia)) as [Hge _].
      replace (k2 + 52) with (Z.log2 V2) by lia. exact Hge. }
    apply Z.le_trans with (2 ^ 53 * 2 ^ k1).
    + apply Z.mul_le_mono_nonneg_r; lia.
    + apply Z.le_trans with (2 ^ 52 * 2 ^ k2).
      * rewrite <- !Z.pow_add_r by lia. apply Z.pow_le_mono_r; lia.
      * apply Z.mul_le_mono_nonneg_r; lia.
Qed.

Lemma rnd_pos_pos V : 0 < V -> 0 < rnd_pos V.
Proof.
  intros Hpos. unfold rnd_pos.
  set (k := Z.max 0 (Z.log2 V - 52)).
  assert (Hp : 0 < 2 ^ k) by (apply Z.pow_pos_nonneg; lia).
  apply Z.mul_pos_pos; [| exact Hp].
  pose proof (rne_bounds V k ltac:(lia)) as [Hb _].
  assert (1 <= V / 2 ^ k); [| lia].
  apply Z.div_le_lower_bound; [lia |].
  destruct (Z.log2_spec V Hpos) as [Hge _].
  destruct (Z.max_spec 0 (Z.log2 V - 52)) as [[_ E] | [_ E]]; fold k in E;
    rewrite E.
  - eapply Z.le_trans; [| exact Hge].
    rewrite Z.mul_1_r. apply Z.pow_le_mono_r; lia.
  - simpl. lia.
Qed.

(** ** The rounding of [SpecFloat], in closed form *)

Lemma fexp_eq x : fexp prec emax x = Z.max (x - 53) (-1074).
Proof. reflexivity. Qed.

Lemma digits2_bounds p :
  2 ^ (Zpos (digits2_pos p) - 1) <= Zpos p < 2 ^ Zpos (digits2_pos p).
Proof.
  induction p as [p IH | p IH |]; simpl digits2_pos.
  - rewrite Pos2Z.inj_succ.
    replace (Z.succ (Zpos (digits2_pos p)) - 1)
      with (Z.succ (Zpos (digits2_pos p) - 1)) by lia.
    rewrite !Z.pow_succ_r by lia. lia.
  - rewrite Pos2Z.inj_succ.
    replace (Z.succ (Zpos (digits2_pos p)) - 1)
      with (Z.succ (Zpos (digits2_pos p) - 1)) by lia.
    rewrite !Z.pow_succ_r by lia. lia.
  - simpl. lia.
Qed.

Lemma digits2_log2 p : Zpos (digits2_pos p) = Z.log2 (Zpos p) + 1.
Proof.
  pose proof (digits2_bounds p) as [Hl Hu].
  assert (H : Z.log2 (Zpos p) = Zpos (digits2_pos p) - 1); [| lia].
  apply Z.log2_unique; [lia |].
  split; [exact Hl |].
  now replace (Z.succ (Zpos (digits2_pos p) - 1)) with (Zpos (digits2_pos p))
    by lia.
Qed.

Lemma iter_xO m d : Zpos (Pos.iter xO m d) = Zpos m * 2 ^ Zpos d.
Proof.
  induction d as [| d IH] using Pos.peano_ind.
  - simpl. lia.
  - rewrite Pos.iter_succ, Pos2Z.inj_succ, Z.pow_succ_r by lia.
    rewrite Pos2Z.inj_xO, IH. ring.
Qed.

Lemma iter_pos_nat {A} (f : A -> A) n x :
  SpecFloat.iter_pos f n x = Nat.iter (Pos.to_nat n) f x.
Proof.
  revert x. induction n as [n IH | n IH |]; intros x; simpl SpecFloat.iter_pos.
  - rewrite !IH, Pos2Nat.inj_xI.
    replace (S (2 * Pos.to_nat n))%nat
      with (Pos.to_nat n + (Pos.to_nat n + 1))%nat by lia.
    rewrite !Nat.iter_add. reflexivity.
  - rewrite !IH, Pos2Nat.inj_xO.
    replace (2 * Pos.to_nat n)%nat with (Pos.to_nat n + Pos.to_nat n)%nat
      by lia.
    rewrite Nat.iter_add. reflexivity.
  - reflexivity.
Qed.

Lemma shr_1_spec m r s :
  0 <= m ->
  shr_1 {| shr_m := m; shr_r := r; shr_s := s |}
  = {| shr_m := m / 2; shr_r := Z.odd m; shr_s := r || s |}.
Proof.
  intros Hm. rewrite <- Z.div2_div.
  destruct m as [| [p | p |] |]; try reflexivity. lia.
Qed.

(** [n + 1] right shifts of [m]: the quotient, the last bit shifted out,
    and whether anything was shifted out before it. *)
Lemma shr_iter m n :
  0 <= m ->
  Nat.iter (S n) shr_1 {| shr_m := m; shr_r := false; shr_s := false |}
  = {| shr_m := m / 2 ^ Z.of_nat (S n);
       shr_r := Z.odd (m / 2 ^ Z.of_nat n);
       shr_s := negb (m mod 2 ^ Z.of_nat n =? 0) |}.
Proof.
  intros Hm. induction n as [| n IH].
  - change (Nat.iter 1 shr_1 ?x) with (shr_1 x).
    rewrite shr_1_spec by exact Hm.
    simpl Z.of_nat. rewrite Z.pow_0_r, Z.pow_1_r, Z.div_1_r, Z.mod_1_r.
    reflexivity.
  - change (Nat.iter (S (S n)) shr_1 ?x) with (shr_1 (Nat.iter (S n) shr_1 x)).
    rewrite IH.
    assert (Hp : 0 < 2 ^ Z.of_nat n) by (apply Z.pow_pos_nonneg; lia).
    assert (HpS : 0 < 2 ^ Z.of_nat (S n)) by (apply Z.pow_pos_nonneg; lia).
    rewrite shr_1_spec by (apply Z.div_pos; lia).
    f_equal.
    + rewrite Z.div_div by lia.
      rewrite (Nat2Z.inj_succ (S n)), Z.pow_succ_r by lia.
      f_equal. ring.
    + (* sticky: some bit below position [S n] is set *)
      rewrite (Nat2Z.inj_succ n), Z.pow_succ_r by lia.
      rewrite (Z.mul_comm 2), Z.rem_mul_r by lia.
      rewrite Zodd_mod.
      destruct (Z.eqb_spec (m mod 2 ^ Z.of_nat n) 0) as [E0 | N0];
        destruct (Z.eqb_spec ((m / 2 ^ Z.of_nat n) mod 2) 1) as [E1 | N1];
        simpl.
      * rewrite E0, E1. symmetry. apply negb_true_iff, Z.eqb_neq. lia.
      * assert (Hb : (m / 2 ^ Z.of_nat n) mod 2 = 0)
          by (pose proof (Z.mod_pos_bound (m / 2 ^ Z.of_nat n) 2); lia).
        rewrite E0, Hb, Z.mul_0_r. reflexivity.
      * symmetry. apply negb_true_iff, Z.eqb_neq.
        pose proof (Z.mod_pos_bound m (2 ^ Z.of_nat n)). lia.
      * symmetry. apply negb_true_iff, Z.eqb_neq.
        pose proof (Z.mod_pos_bound m (2 ^ Z.of_nat n)).
        pose proof (Z.mod_pos_bound (m / 2 ^ Z.of_nat n) 2). lia.
Qed.

Lemma rne_0 m : rne m 0 = m.
Proof.
  unfold rne. rewrite Z.pow_0_r, Z.div_1_r, Z.mod_1_r. reflexivity.
Qed.

(** Shifting [m] right by [n] bits with the round and sticky bits of
    [SpecFloat], then rounding to nearest even, is [rne m n]. *)
Lemma shr_round m e n :
  0 <= m -> 0 <= n ->
  let '(mrs, e') :=
    shr {| shr_m := m; shr_r := false; shr_s := false |} e n in
  e' = e + n
  /\ shr_m mrs = m / 2 ^ n
  /\ round_nearest_even (shr_m mrs) (loc_of_shr_record mrs) = rne m n.
Proof.
  intros Hm Hn. destruct n as [| p |]; [| | lia].
  - simpl. rewrite Z.add_0_r, Z.div_1_r, rne_0. auto.
  - unfold shr. rewrite iter_pos_nat.
    destruct (Pos2Nat.is_succ p) as [n Hp]. rewrite Hp.
    rewrite shr_iter by exact Hm.
    assert (Hz : Z.of_nat (S n) = Zpos p) by (rewrite <- Hp; apply positive_nat_Z).
    rewrite Hz. cbn [shr_m]. split; [reflexivity | split; [reflexivity |]].
    assert (Hpn : 0 < 2 ^ Z.of_nat n) by (apply Z.pow_pos_nonneg; lia).
    assert (Hpow : 2 ^ Zpos p = 2 ^ Z.of_nat n * 2).
    { rewrite <- Hz, Nat2Z.inj_succ, Z.pow_succ_r by lia. ring. }
    assert (Hrem : m mod 2 ^ Zpos p
                   = m mod 2 ^ Z.of_nat n
                     + 2 ^ Z.of_nat n * ((m / 2 ^ Z.of_nat n) mod 2)).
    { rewrite Hpow. apply Z.rem_mul_r; lia. }
    pose proof (Z.mod_pos_bound m (2 ^ Z.of_nat n) Hpn) as Hlow.
    pose proof (Z.mod_pos_bound (m / 2 ^ Z.of_nat n) 2 ltac:(lia)) as Hbit.
    rewrite Zodd_mod. unfold rne.
    destruct (Z.eqb_spec ((m / 2 ^ Z.of_nat n) mod 2) 1) as [E1 | N1];
      destruct (Z.eqb_spec (m mod 2 ^ Z.of_nat n) 0) as [E0 | N0];
      cbn [negb loc_of_shr_record round_nearest_even].
    + assert (Hc : (2 * (m mod 2 ^ Zpos p) ?= 2 ^ Zpos p) = Eq)
        by (apply Z.compare_eq_iff; lia).
      now rewrite Hc.
    + assert (Hc : (2 * (m mod 2 ^ Zpos p) ?= 2 ^ Zpos p) = Gt)
        by (apply Z.compare_gt_iff; lia).
      now rewrite Hc.
    + assert (Hc : (2 * (m mod 2 ^ Zpos p) ?= 2 ^ Zpos p) = Lt)
        by (apply Z.compare_lt_iff; nia).
      now rewrite Hc.
    + assert (Hc : (2 * (m mod 2 ^ Zpos p) ?= 2 ^ Zpos p) = Lt)
        by (apply Z.compare_lt_iff; nia).
      now rewrite Hc.
Qed.

(** ** Floats as integers *)

Lemma shr_nonpos mrs e n : n <= 0 -> shr mrs e n = (mrs, e).
Proof. destruct n; try reflexivity. lia. Qed.

Lemma log2_scaled (m : positive) j :
  0 <= j -> Z.log2 (Zpos m * 2 ^ j) = Zpos (digits2_pos m) - 1 + j.
Proof.
  intros Hj. rewrite Z.log2_mul_pow2 by lia. rewrite digits2_log2. lia.
Qed.

Lemma binary_round_aux_key s (mz : positive) ez :
  -1074 <= ez ->
  ez <= fexp prec emax (Zpos (digits2_pos mz) + ez) ->
  binary_round_aux prec emax s (Zpos mz) ez loc_Exact <> S754_nan
  /\ fkey (binary_round_aux prec emax s (Zpos mz) ez loc_Exact)
     = signed s (sat (rnd_pos (Zpos mz * 2 ^ (ez + 1074)))).
Proof.
  intros Hez Hfexp. rewrite fexp_eq in Hfexp.
  unfold binary_round_aux, shr_fexp.
  cbn [shr_record_of_loc Zdigits2]. rewrite fexp_eq.
  pose proof (digits2_bounds mz) as [Hdl Hdu].
  set (d := Zpos (digits2_pos mz)) in *.
  set (t := Z.max (d + ez - 53) (-1074)) in *.
  assert (Hd : 0 < d) by (unfold d; lia).
  pose proof (shr_round (Zpos mz) ez (t - ez) ltac:(lia) ltac:(lia)) as Hshr.
  destruct (shr {| shr_m := Zpos mz; shr_r := false; shr_s := false |} ez
                (t - ez)) as [mrs e'].
  destruct Hshr as [He' [_ HN]]. rewrite HN.
  replace e' with t by lia. clear He' HN mrs e'.
  set (n := t - ez). set (N := rne (Zpos mz) n).
  (* the value, and what it rounds to *)
  assert (HW : rnd_pos (Zpos mz * 2 ^ (ez + 1074)) = N * 2 ^ (t + 1074)).
  { unfold rnd_pos. rewrite log2_scaled by lia. fold d.
    replace (Z.max 0 (d - 1 + (ez + 1074) - 52)) with (n + (ez + 1074))
      by (unfold n, t; lia).
    rewrite rne_scale by (unfold n; lia). fold N.
    f_equal. f_equal. unfold n. lia. }
  rewrite HW. clear HW.
  assert (Hpn : 0 < 2 ^ n) by (apply Z.pow_pos_nonneg; unfold n; lia).
  (* the rounded mantissa has 53 bits at most, or is 2^53 *)
  assert (HNu : N <= 2 ^ 53).
  { destruct (Z.eq_dec n 0) as [E | NE].
    - unfold N. rewrite E, rne_0.
      assert (d <= 53) by (unfold n, t in E; lia).
      assert (2 ^ d <= 2 ^ 53) by (apply Z.pow_le_mono_r; lia). lia.
    - pose proof (rne_bounds (Zpos mz) n ltac:(unfold n; lia)) as [_ Hb].
      fold N in Hb.
      assert (Zpos mz / 2 ^ n < 2 ^ 53); [| lia].
      apply Z.div_lt_upper_bound; [lia |].
      rewrite <- Z.pow_add_r by (unfold n; lia).
      replace (n + 53) with d by (unfold n, t in *; lia). exact Hdu. }
  assert (HNl : 1 <= N /\ (-1074 < t -> 2 ^ 52 <= N)).
  { destruct (Z.eq_dec n 0) as [E | NE].
    - unfold N. rewrite E, rne_0. split; [lia |].
      intros Ht. assert (d = 53) by (unfold n, t in *; lia).
      replace 52 with (d - 1) by lia. exact Hdl.
    - pose proof (rne_bounds (Zpos mz) n ltac:(unfold n; lia)) as [Hb _].
      fold N in Hb.
      assert (2 ^ 52 <= Zpos mz / 2 ^ n); [| lia].
      apply Z.div_le_lower_bound; [lia |].
      rewrite <- Z.pow_add_r by (unfold n; lia).
      replace (n + 52) with (d - 1) by (unfold n, t in *; lia). exact Hdl. }
  destruct HNl as [HN1 HN52].
  destruct N as [| pN |] eqn:EN; [lia | | lia].
  cbn [Zdigits2]. rewrite fexp_eq.
  pose proof (digits2_bounds pN) as [HdNl HdNu].
  set (dN := Zpos (digits2_pos pN)) in *.
  assert (Ht : -1074 <= t) by (unfold t; lia).
  assert (Hpt : 0 < 2 ^ (t + 1074)) by (apply Z.pow_pos_nonneg; lia).
  destruct (Z.eq_dec (Zpos pN) (2 ^ 53)) as [E53 | N53].
  - (* the carry: one more shift *)
    assert (HdN : dN = 54).
    { assert (H : Z.log2 (Zpos pN) = 53)
        by (rewrite E53; apply Z.log2_pow2; lia).
      unfold dN. rewrite digits2_log2. lia. }
    replace (Z.max (dN + t - 53) (-1074) - t) with 1 by lia.
    pose proof (shr_round (Zpos pN) t 1 ltac:(lia) ltac:(lia)) as Hshr.
    destruct (shr {| shr_m := Zpos pN; shr_r := false; shr_s := false |} t 1)
      as [mrs e''].
    destruct Hshr as [He'' [Hm _]]. rewrite Hm, He'', E53.
    change (2 ^ 53 / 2 ^ 1) with (Zpos 4503599627370496).
    unfold emax, prec. change (1024 - 53) with 971.
    destruct (Z.leb_spec (t + 1) 971) as [Hle | Hgt].
    + split; [discriminate |]. cbn [fkey]. f_equal.
      unfold sat, OVERFLOW.
      destruct (Z.leb_spec (2 ^ 2098) (2 ^ 53 * 2 ^ (t + 1074))) as [Ho | Ho].
      * exfalso. rewrite <- Z.pow_add_r in Ho by lia.
        apply Z.pow_le_mono_r_iff in Ho; lia.
      * replace (t + 1 + 1074) with (Z.succ (t + 1074)) by lia.
        rewrite Z.pow_succ_r by lia.
        change (2 ^ 53) with (Zpos 4503599627370496 * 2). ring.
    + split; [discriminate |]. cbn [fkey]. f_equal.
      unfold sat, OVERFLOW.
      destruct (Z.leb_spec (2 ^ 2098) (2 ^ 53 * 2 ^ (t + 1074))) as [Ho | Ho];
        [reflexivity |].
      exfalso. rewrite <- Z.pow_add_r in Ho by lia.
      apply Z.pow_lt_mono_r_iff in Ho; lia.
  - (* no carry *)
    assert (HdN : dN <= 53).
    { destruct (Z.le_gt_cases dN 53) as [H | H]; [exact H |].
      assert (2 ^ 53 <= 2 ^ (dN - 1)) by (apply Z.pow_le_mono_r; lia). lia. }
    rewrite shr_nonpos by lia. cbn [shr_m].
    unfold emax, prec. change (1024 - 53) with 971.
    destruct (Z.leb_spec t 971) as [Hle | Hgt].
    + split; [discriminate |]. cbn [fkey]. f_equal.
      unfold sat, OVERFLOW.
      destruct (Z.leb_spec (2 ^ 2098) (Zpos pN * 2 ^ (t + 1074))) as [Ho | Ho];
        [| reflexivity].
      exfalso.
      assert (Zpos pN * 2 ^ (t + 1074) < 2 ^ 53 * 2 ^ (t + 1074))
        by (apply Z.mul_lt_mono_pos_r; lia).
      assert (2 ^ 53 * 2 ^ (t + 1074) <= 2 ^ 2098).
      { rewrite <- Z.pow_add_r by lia. apply Z.pow_le_mono_r; lia. }
      lia.
    + split; [discriminate |]. cbn [fkey]. f_equal.
      unfold sat, OVERFLOW.
      destruct (Z.leb_spec (2 ^ 2098) (Zpos pN * 2 ^ (t + 1074))) as [Ho | Ho];
        [reflexivity |].
      exfalso.
      assert (2 ^ 52 * 2 ^ (t + 1074) <= Zpos pN * 2 ^ (t + 1074))
        by (apply Z.mul_le_mono_nonneg_r; [lia | apply HN52; lia]).
      assert (2 ^ 2098 <= 2 ^ 52 * 2 ^ (t + 1074)).
      { rewrite <- Z.pow_add_r by lia. apply Z.pow_le_mono_r; lia. }
      lia.
Qed.

Lemma binary_round_key s (m : positive) e :
  -1074 <= e ->
  binary_round prec emax s m e <> S754_nan
  /\ fkey (binary_round prec emax s m e)
     = signed s (sat (rnd_pos (Zpos m * 2 ^ (e + 1074)))).
Proof.
  intros He. unfold binary_round, shl_align. rewrite fexp_eq.
  set (d := Zpos (digits2_pos m)).
  set (t := Z.max (d + e - 53) (-1074)).
  destruct (t - e) as [| p | p] eqn:Hte.
  - apply binary_round_aux_key; [lia |]. rewrite fexp_eq. fold d. lia.
  - apply binary_round_aux_key; [lia |]. rewrite fexp_eq. fold d. lia.
  - assert (Hp : Zpos p = e - t) by lia.
    assert (Hv : Zpos (Pos.iter xO m p) * 2 ^ (t + 1074)
                 = Zpos m * 2 ^ (e + 1074)).
    { rewrite iter_xO, <- Z.mul_assoc, <- Z.pow_add_r by (unfold t; lia).
      f_equal. f_equal. lia. }
    rewrite <- Hv. apply binary_round_aux_key; [unfold t; lia |].
    rewrite fexp_eq.
    assert (Hd : Zpos (digits2_pos (Pos.iter xO m p)) = d + Zpos p).
    { rewrite digits2_log2, iter_xO, Z.log2_mul_pow2 by lia.
      unfold d. rewrite digits2_log2. lia. }
    rewrite Hd. unfold t. lia.
Qed.

Lemma binary_normalize_key M e :
  -1074 <= e ->
  binary_normalize prec emax M e false <> S754_nan
  /\ fkey (binary_normalize prec emax M e false) = RND (M * 2 ^ (e + 1074)).
Proof.
  intros He.
  assert (Hp : 0 < 2 ^ (e + 1074)) by (apply Z.pow_pos_nonneg; lia).
  destruct M as [| m | m]; unfold binary_normalize.
  - split; [discriminate | reflexivity].
  - destruct (binary_round_key false m e He) as [Hn Hk].
    split; [exact Hn |]. rewrite Hk. cbn [signed].
    destruct (Zpos m * 2 ^ (e + 1074)) eqn:E; try lia. reflexivity.
  - destruct (binary_round_key true m e He) as [Hn Hk].
    split; [exact Hn |]. rewrite Hk. cbn [signed].
    destruct (Zneg m * 2 ^ (e + 1074)) as [| v | v] eqn:E; try lia.
    cbn [RND]. do 3 f_equal. lia.
Qed.

Lemma K_INF_bounds : 0 < OVERFLOW /\ OVERFLOW < K_INF.
Proof.
  unfold OVERFLOW, K_INF. split.
  - apply Z.pow_pos_nonneg; lia.
  - apply Z.pow_lt_mono_r; lia.
Qed.

Lemma sat_mono W1 W2 : W1 <= W2 -> sat W1 <= sat W2.
Proof.
  pose proof K_INF_bounds. unfold sat.
  destruct (Z.leb_spec OVERFLOW W1); destruct (Z.leb_spec OVERFLOW W2); lia.
Qed.

Lemma sat_pos W : 0 < W -> 0 < sat W.
Proof.
  pose proof K_INF_bounds. unfold sat. destruct (Z.leb_spec OVERFLOW W); lia.
Qed.

Lemma RND_mono V1 V2 : V1 <= V2 -> RND V1 <= RND V2.
Proof.
  intros Hle.
  assert (Hpos : forall V, 0 < V -> 0 < sat (rnd_pos V))
    by (intros V HV; now apply sat_pos, rnd_pos_pos).
  destruct V1 as [| v1 | v1], V2 as [| v2 | v2]; cbn [RND]; try lia.
  - pose proof (Hpos (Zpos v2)). lia.
  - apply sat_mono, rnd_pos_mono; lia.
  - pose proof (Hpos (- Zneg v1)). lia.
  - pose proof (Hpos (- Zneg v1)). pose proof (Hpos (Zpos v2)). lia.
  - assert (sat (rnd_pos (- Zneg v2)) <= sat (rnd_pos (- Zneg v1))); [| lia].
    apply sat_mono, rnd_pos_mono; lia.
Qed.

(** ** Valid floats are ordered as their keys *)

Lemma valid_finite s m e :
  valid_binary (S754_finite s m e) = true ->
  -1074 <= e <= 971
  /\ Zpos (digits2_pos m) <= 53
  /\ (-1074 < e -> Zpos (digits2_pos m) = 53).
Proof.
  unfold SpecFloat.valid_binary, bounded, canonical_mantissa.
  rewrite fexp_eq. intros H. apply andb_prop in H as [Hc Hb].
  apply Z.eqb_eq in Hc. apply Z.leb_le in Hb.
  unfold emax, prec in Hb. lia.
Qed.

Lemma finite_key_bounds s m e :
  valid_binary (S754_finite s m e) = true ->
  0 < Zpos m * 2 ^ (e + 1074) < OVERFLOW.
Proof.
  intros Hv. apply valid_finite in Hv as [He [Hd _]].
  pose proof (digits2_bounds m) as [_ Hu].
  assert (Hp : 0 < 2 ^ (e + 1074)) by (apply Z.pow_pos_nonneg; lia).
  split; [lia |].
  apply Z.lt_le_trans with (2 ^ 53 * 2 ^ (e + 1074)).
  - apply Z.mul_lt_mono_pos_r; [lia |].
    eapply Z.lt_le_trans; [exact Hu | apply Z.pow_le_mono_r; lia].
  - unfold OVERFLOW. rewrite <- Z.pow_add_r by lia.
    apply Z.pow_le_mono_r; lia.
Qed.

(** Magnitudes of valid finite floats compare as [SFcompare] has it:
    exponents first, then mantissas. *)
Lemma finite_compare m1 e1 m2 e2 :
  valid_binary (S754_finite false m1 e1) = true ->
  valid_binary (S754_finite false m2 e2) = true ->
  match e1 ?= e2 with
  | Lt => Lt
  | Gt => Gt
  | Eq => Pos.compare_cont Eq m1 m2
  end
  = (Zpos m1 * 2 ^ (e1 + 1074) ?= Zpos m2 * 2 ^ (e2 + 1074)).
Proof.
  intros Hv1 Hv2.
  apply valid_finite in Hv1 as [He1 [Hd1 Hn1]].
  apply valid_finite in Hv2 as [He2 [Hd2 Hn2]].
  pose proof (digits2_bounds m1) as [Hl1 Hu1].
  pose proof (digits2_bounds m2) as [Hl2 Hu2].
  assert (Hlt : forall (ma mb : positive) ea eb,
             -1074 <= ea -> ea < eb ->
             Zpos ma < 2 ^ 53 -> 2 ^ 52 <= Zpos mb ->
             Zpos ma * 2 ^ (ea + 1074) < Zpos mb * 2 ^ (eb + 1074)).
  { intros ma mb ea eb Hea Hlt Ha Hb.
    assert (0 < 2 ^ (ea + 1074)) by (apply Z.pow_pos_nonneg; lia).
    assert (0 < 2 ^ (eb + 1074)) by (apply Z.pow_pos_nonneg; lia).
    apply Z.lt_le_trans with (2 ^ 53 * 2 ^ (ea + 1074)).
    - apply Z.mul_lt_mono_pos_r; lia.
    - apply Z.le_trans with (2 ^ 52 * 2 ^ (eb + 1074)).
      + rewrite <- !Z.pow_add_r by lia. apply Z.pow_le_mono_r; lia.
      + apply Z.mul_le_mono_nonneg_r; lia. }
  assert (Hs1 : Zpos m1 < 2 ^ 53).
  { eapply Z.lt_le_trans; [exact Hu1 | apply Z.pow_le_mono_r; lia]. }
  assert (Hs2 : Zpos m2 < 2 ^ 53).
  { eapply Z.lt_le_trans; [exact Hu2 | apply Z.pow_le_mono_r; lia]. }
  destruct (Z.compare_spec e1 e2) as [E | L | G].
  - subst e2. rewrite compare_scale by (apply Z.pow_pos_nonneg; lia).
    reflexivity.
  - symmetry. apply Z.compare_lt_iff. apply Hlt; try lia.
    rewrite Hn2 in Hl2 by lia. exact Hl2.
  - symmetry. apply Z.compare_gt_iff. apply Hlt; try lia.
    rewrite Hn1 in Hl1 by lia. exact Hl1.
Qed.

Lemma compare_key x y :
  valid_binary x = true -> valid_binary y = true ->
  x <> S754_nan -> y <> S754_nan ->
  SFcompare x y = Some (fkey x ?= fkey y).
Proof.
  intros Hx Hy Nx Ny. pose proof K_INF_bounds as [HO HK].
  destruct x as [sx | sx | | sx mx ex]; [| | congruence |];
    destruct y as [sy | sy | | sy my ey]; try congruence;
    try pose proof (finite_key_bounds _ _ _ Hx) as Bx;
    try pose proof (finite_key_bounds _ _ _ Hy) as By;
    cbn [SFcompare fkey];
    try (repeat match goal with s : bool |- _ => destruct s end;
         cbn [signed]; f_equal; symmetry;
         first [ apply Z.compare_eq_iff; lia
               | apply Z.compare_lt_iff; lia
               | apply Z.compare_gt_iff; lia ]).
  - assert (Hx' : valid_binary (S754_finite false mx ex) = true) by exact Hx.
    assert (Hy' : valid_binary (S754_finite false my ey) = true) by exact Hy.
    destruct sx, sy; cbn [signed]; f_equal.
    + rewrite Z.compare_opp.
      rewrite <- (finite_compare my ey mx ex Hy' Hx').
      rewrite (Z.compare_antisym ey ex).
      destruct (ey ?= ex); cbn [CompOpp]; try reflexivity.
      rewrite Pos.compare_cont_antisym. reflexivity.
    + symmetry. apply Z.compare_lt_iff. lia.
    + symmetry. apply Z.compare_gt_iff. lia.
    + apply finite_compare; assumption.
Qed.

(** ** [1.0 - y] *)

Lemma shl_align_fst (m : positive) e e' :
  e' <= e -> Zpos (fst (shl_align m e e')) = Zpos m * 2 ^ (e - e').
Proof.
  intros Hle. unfold shl_align. destruct (e' - e) as [| p | p] eqn:E.
  - replace (e - e') with 0 by lia. cbn [fst]. rewrite Z.pow_0_r. lia.
  - lia.
  - cbn [fst]. rewrite iter_xO. f_equal. f_equal. lia.
Qed.

Lemma rnd_pos_exact m j :
  0 <= j -> 2 ^ 52 <= m < 2 ^ 53 -> rnd_pos (m * 2 ^ j) = m * 2 ^ j.
Proof.
  intros Hj [Hl Hu]. unfold rnd_pos.
  assert (Hlog : Z.log2 m = 52).
  { apply Z.log2_unique; [lia |]. split; [exact Hl | exact Hu]. }
  rewrite Z.log2_mul_pow2, Hlog by lia.
  replace (Z.max 0 (j + 52 - 52)) with j by lia.
  now rewrite rne_exact.
Qed.

Lemma sat_rnd_big V : OVERFLOW <= V -> sat (rnd_pos V) = K_INF.
Proof.
  intros HV. pose proof K_INF_bounds as [HO _].
  assert (H : OVERFLOW <= rnd_pos V).
  { replace OVERFLOW with (rnd_pos OVERFLOW).
    - apply rnd_pos_mono; lia.
    - unfold OVERFLOW. change (2 ^ 2098) with (2 ^ 52 * 2 ^ 2046).
      apply rnd_pos_exact; lia. }
  unfold sat. destruct (Z.leb_spec OVERFLOW (rnd_pos V)); [reflexivity | lia].
Qed.

(** The fkey of [1.0 - y] is the rounding of [1 - y], for every valid [y]
    other than NaN. *)
Lemma sub_one_key y :
  valid_binary y = true -> y <> S754_nan ->
  SF64sub SF_one y <> S754_nan
  /\ fkey (SF64sub SF_one y) = RND (2 ^ 1074 - fkey y).
Proof.
  intros Hv Hn. pose proof K_INF_bounds as [HO HK].
  assert (H1074 : 2 ^ 1074 < OVERFLOW).
  { unfold OVERFLOW. apply Z.pow_lt_mono_r; lia. }
  assert (Hp1074 : 0 < 2 ^ 1074) by (apply Z.pow_pos_nonneg; lia).
  assert (H2 : 2 * OVERFLOW <= K_INF).
  { unfold OVERFLOW, K_INF. rewrite <- Z.pow_succ_r by lia.
    apply Z.pow_le_mono_r; lia. }
  assert (Hone : RND (2 ^ 1074) = 2 ^ 1074).
  { destruct (2 ^ 1074) as [| v | v] eqn:E; try lia. cbn [RND].
    rewrite <- E. change (2 ^ 1074) with (2 ^ 52 * 2 ^ 1022).
    rewrite rnd_pos_exact by lia. change (2 ^ 52 * 2 ^ 1022) with (2 ^ 1074).
    unfold sat. destruct (Z.leb_spec OVERFLOW (2 ^ 1074)); [lia | reflexivity]. }
  destruct y as [sy | sy | | sy my ey]; [| | congruence |].
  - (* zero *)
    split; [destruct sy; discriminate |].
    cbn [fkey]. rewrite Z.sub_0_r, Hone. reflexivity.
  - (* infinity *)
    split; [destruct sy; discriminate |].
    destruct sy; cbn [SF64sub SFsub SF_one fkey signed negb].
    + destruct (2 ^ 1074 - - K_INF) as [| v | v] eqn:E; try lia.
      cbn [RND]. rewrite <- E. rewrite sat_rnd_big by lia. reflexivity.
    + destruct (2 ^ 1074 - K_INF) as [| v | v] eqn:E; try lia.
      cbn [RND]. rewrite <- E. rewrite sat_rnd_big by lia. reflexivity.
  - (* finite *)
    pose proof (valid_finite _ _ _ Hv) as [He _].
    unfold SF64sub, SFsub, SF_one.
    set (ez := Z.min (-52) ey).
    destruct (binary_normalize_key
                (cond_Zopp false
                   (Zpos (fst (shl_align 4503599627370496 (-52) ez)))
                 - cond_Zopp sy (Zpos (fst (shl_align my ey ez))))
                ez ltac:(unfold ez; lia)) as [Hnan Hkey].
    split; [exact Hnan |]. rewrite Hkey. f_equal.
    rewrite !shl_align_fst by (unfold ez; lia).
    assert (Hpz : 0 < 2 ^ (ez + 1074))
      by (apply Z.pow_pos_nonneg; unfold ez; lia).
    assert (Ha : 4503599627370496 * 2 ^ (-52 - ez) * 2 ^ (ez + 1074)
                 = 2 ^ 1074).
    { rewrite <- Z.mul_assoc, <- Z.pow_add_r by (unfold ez; lia).
      replace (-52 - ez + (ez + 1074)) with 1022 by lia. reflexivity. }
    assert (Hb : Zpos my * 2 ^ (ey - ez) * 2 ^ (ez + 1074)
                 = Zpos my * 2 ^ (ey + 1074)).
    { rewrite <- Z.mul_assoc, <- Z.pow_add_r by (unfold ez; lia).
      f_equal. f_equal. lia. }
    destruct sy; cbn [cond_Zopp fkey signed]; lia.
Qed.

(** Subtracting from 1.0 reverses the order, up to rounding: of two floats
    [a <= b], [1.0 - b] is at most [1.0 - a]. *)
Lemma one_minus_antitone_le (a b : float) :
  (a <=? b)%float = true -> (1 - b <=? 1 - a)%float = true.
Proof.
  rewrite !leb_spec, !sub_spec.
  change (Prim2SF 1) with SF_one.
  intros Hle. unfold SFleb in Hle.
  assert (Ha : Prim2SF a <> S754_nan /\ Prim2SF b <> S754_nan).
  { split; intros E; rewrite E in Hle.
    - discriminate.
    - destruct (Prim2SF a); discriminate. }
  destruct Ha as [Na Nb].
  rewrite (compare_key _ _ (Prim2SF_valid a) (Prim2SF_valid b) Na Nb) in Hle.
  assert (Hk : fkey (Prim2SF a) <= fkey (Prim2SF b)).
  { unfold Z.le.
    destruct (fkey (Prim2SF a) ?= fkey (Prim2SF b)); discriminate. }
  destruct (sub_one_key _ (Prim2SF_valid a) Na) as [Nra Kra].
  destruct (sub_one_key _ (Prim2SF_valid b) Nb) as [Nrb Krb].
  assert (Va : valid_binary (SF64sub SF_one (Prim2SF a)) = true).
  { change SF_one with (Prim2SF 1). rewrite <- sub_spec. apply Prim2SF_valid. }
  assert (Vb : valid_binary (SF64sub SF_one (Prim2SF b)) = true).
  { change SF_one with (Prim2SF 1). rewrite <- sub_spec. apply Prim2SF_valid. }
  unfold SFleb. rewrite (compare_key _ _ Vb Va Nrb Nra), Krb, Kra.
  assert (Hr : RND (2 ^ 1074 - fkey (Prim2SF b))
               <= RND (2 ^ 1074 - fkey (Prim2SF a)))
    by (apply RND_mono; lia).
  destruct (Z.compare_spec (RND (2 ^ 1074 - fkey (Prim2SF b)))
                           (RND (2 ^ 1074 - fkey (Prim2SF a))));
    [reflexivity | reflexivity | lia].
Qed.

Lemma ltb_leb (a b : float) :
  (a <? b)%float = true -> (a <=? b)%float = true.
Proof.
  rewrite ltb_spec, leb_spec. unfold SFltb, SFleb.
  destruct (SFcompare (Prim2SF a) (Prim2SF b)) as [[| |] |];
    congruence.
Qed.

Lemma one_minus_antitone (a b : float) :
  (a <? b)%float = true -> (1 - b <=? 1 - a)%float = true.
Proof. intros H. now apply one_minus_antitone_le, ltb_leb. Qed.

End Binary64.

(** * Binary64 division, sums and means *)

Section Division.

Local Open Scope Z_scope.

Ltac reflect_Z :=
  repeat match goal with
         | |- context [Z.leb ?a ?b] => destruct (Z.leb_spec a b)
         | |- context [Z.eqb ?a ?b] => destruct (Z.eqb_spec a b)
         | H : context [Z.leb ?a ?b] |- _ => destruct (Z.leb_spec a b)
         | H : context [Z.eqb ?a ?b] |- _ => destruct (Z.eqb_spec a b)
         end.

Lemma rne_quot_pow m n : rne m n = rne_quot m (2 ^ n).
Proof. reflexivity. Qed.

Lemma rne_quot_scale N D c :
  0 < D -> 0 < c -> rne_quot (N * c) (D * c) = rne_quot N D.
Proof.
  intros HD Hc. unfold rne_quot.
  rewrite Z.div_mul_cancel_r by lia.
  rewrite Z.mul_mod_distr_r by lia.
  replace (2 * (N mod D * c)) with ((2 * (N mod D)) * c) by ring.
  now rewrite (compare_scale _ _ _ Hc).
Qed.

Lemma rne_quot_bounds N D :
  0 < D -> N / D <= rne_quot N D <= N / D + 1.
Proof.
  intros HD. unfold rne_quot.
  destruct (2 * (N mod D) ?= D); [destruct (Z.even _) | |]; lia.
Qed.

Lemma describes_shr_1 N D mrs :
  0 <= N -> 0 < D -> describes N D mrs -> describes N (D * 2) (shr_1 mrs).
Proof.
  intros HN HD [Hm [Hr Hs]]. destruct mrs as [m r s]. cbn [shr_m shr_r shr_s] in *.
  assert (Hm0 : 0 <= m) by (subst m; apply Z.div_pos; lia).
  rewrite shr_1_spec by exact Hm0.
  pose proof (Z.mod_pos_bound N D HD) as Hrem.
  pose proof (Z.mod_pos_bound (N / D) 2 ltac:(lia)) as Hbit.
  assert (Hrem2 : N mod (D * 2) = N mod D + D * ((N / D) mod 2))
    by (apply Z.rem_mul_r; lia).
  unfold describes. cbn [shr_m shr_r shr_s].
  rewrite Hrem2, Hr, Hs, Zodd_mod, Hm. clear Hr Hs Hrem2.
  split; [now rewrite Z.div_div by lia |].
  assert (Hb : (N / D) mod 2 = 0 \/ (N / D) mod 2 = 1) by lia.
  destruct Hb as [Hb | Hb]; rewrite Hb, ?Z.mul_0_r, ?Z.mul_1_r, ?Z.add_0_r;
    split; reflect_Z; cbn; try reflexivity; try lia.
Qed.

Lemma describes_iter N D mrs (n : nat) :
  0 <= N -> 0 < D -> describes N D mrs ->
  describes N (D * 2 ^ Z.of_nat n) (Nat.iter n shr_1 mrs).
Proof.
  intros HN HD H. induction n as [| n IH].
  - simpl. now rewrite Z.mul_1_r.
  - rewrite Nat2Z.inj_succ, Z.pow_succ_r by lia.
    replace (D * (2 * 2 ^ Z.of_nat n)) with (D * 2 ^ Z.of_nat n * 2) by ring.
    cbn [Nat.iter]. apply describes_shr_1; [exact HN | | exact IH].
    apply Z.mul_pos_pos; [exact HD | apply Z.pow_pos_nonneg; lia].
Qed.

Lemma shr_describes N D mrs e n :
  0 <= N -> 0 < D -> 0 <= n -> describes N D mrs ->
  snd (shr mrs e n) = e + n
  /\ describes N (D * 2 ^ n) (fst (shr mrs e n)).
Proof.
  intros HN HD Hn H. destruct n as [| p |]; [| | lia].
  - simpl. rewrite Z.add_0_r, Z.mul_1_r. auto.
  - unfold shr. cbn [fst snd]. split; [reflexivity |].
    rewrite iter_pos_nat, <- (positive_nat_Z p).
    now apply describes_iter.
Qed.

Lemma round_describes N D mrs :
  0 < D -> describes N D mrs ->
  round_nearest_even (shr_m mrs) (loc_of_shr_record mrs) = rne_quot N D.
Proof.
  intros HD [Hm [Hr Hs]]. destruct mrs as [m r s].
  cbn [shr_m shr_r shr_s] in *. subst m.
  pose proof (Z.mod_pos_bound N D HD) as Hrem.
  unfold rne_quot.
  destruct r, s; cbn [loc_of_shr_record round_nearest_even];
    symmetry in Hr, Hs; reflect_Z; cbn in Hs; try discriminate.
  all: match goal with
       | |- context [?a ?= ?b] => destruct (Z.compare_spec a b)
       end; try lia; reflexivity.
Qed.

Lemma describes_location q r m2 N :
  0 < m2 -> N / m2 = q -> N mod m2 = r ->
  describes N m2 (shr_record_of_loc q (new_location m2 r)).
Proof.
  intros Hm <- <-.
  pose proof (Z.mod_pos_bound N m2 Hm) as Hrem.
  unfold new_location, new_location_even, new_location_odd, describes.
  destruct (Z.even m2) eqn:Ev.
  - destruct (Z.eqb_spec (N mod m2) 0) as [E0 | N0].
    + cbn. rewrite E0. repeat split. symmetry. apply Z.leb_gt. lia.
    + destruct (Z.compare_spec (2 * (N mod m2)) m2); cbn;
        repeat split; reflect_Z; cbn; try reflexivity; lia.
  - assert (Ho : Z.odd m2 = true) by (rewrite <- Z.negb_even, Ev; reflexivity).
    apply Z.odd_spec in Ho as [k Hk].
    destruct (Z.eqb_spec (N mod m2) 0) as [E0 | N0].
    + cbn. rewrite E0. repeat split. symmetry. apply Z.leb_gt. lia.
    + destruct (Z.compare_spec (2 * (N mod m2) + 1) m2); cbn;
        repeat split; reflect_Z; cbn; try reflexivity; lia.
Qed.


Lemma zdigits2_bounds q :
  0 <= q -> q < 2 ^ Zdigits2 q /\ (0 < q -> 2 ^ (Zdigits2 q - 1) <= q)
            /\ 0 <= Zdigits2 q.
Proof.
  intros Hq. destruct q as [| p | p]; [| | lia].
  - simpl. lia.
  - cbn [Zdigits2]. pose proof (digits2_bounds p). lia.
Qed.

(** The mantissa of [N / D] at the exponent the format gives it has at most
    53 bits, and exactly 53 above the subnormal range. *)
Lemma quot_mantissa_bounds q e N D :
  0 <= N -> 0 < D -> q = N / D ->
  e <= fexp prec emax (Zdigits2 q + e) ->
  let t := fexp prec emax (Zdigits2 q + e) in
  0 <= N / (D * 2 ^ (t - e)) < 2 ^ 53
  /\ (-1074 < t -> 2 ^ 52 <= N / (D * 2 ^ (t - e))).
Proof.
  intros HN HD Hq Hfexp t. rewrite fexp_eq in Hfexp.
  assert (Ht : t = Z.max (Zdigits2 q + e - 53) (-1074)) by apply fexp_eq.
  assert (Hq0 : 0 <= q) by (subst q; apply Z.div_pos; lia).
  destruct (zdigits2_bounds q Hq0) as [Hdu [Hdl Hd0]].
  set (d := Zdigits2 q) in *.
  set (n := t - e).
  assert (Hn : 0 <= n) by (unfold n; lia).
  assert (Hpn : 0 < 2 ^ n) by (apply Z.pow_pos_nonneg; lia).
  assert (HF : N / (D * 2 ^ n) = q / 2 ^ n)
    by (rewrite Hq; symmetry; apply Z.div_div; lia).
  rewrite HF. split; [split |].
  - apply Z.div_pos; lia.
  - apply Z.div_lt_upper_bound; [lia |].
    rewrite <- Z.pow_add_r by lia.
    eapply Z.lt_le_trans; [exact Hdu |].
    apply Z.pow_le_mono_r; unfold n; lia.
  - intros Hnorm. assert (Hnd : n = d - 53) by (unfold n; lia).
    assert (0 < q).
    { destruct (Z.eq_dec q 0) as [E0 | N0]; [| lia].
      exfalso. unfold d in *. rewrite E0 in *. simpl in *. lia. }
    apply Z.div_le_lower_bound; [lia |].
    rewrite <- Z.pow_add_r by lia.
    replace (n + 52) with (d - 1) by lia. auto.
Qed.

(** Rounding [N / D], given as a mantissa [q] and a location, at the
    exponent the format gives it. *)
Lemma binary_round_aux_quot s q e l N D :
  0 <= N -> 0 < D ->
  describes N D (shr_record_of_loc q l) ->
  e <= fexp prec emax (Zdigits2 q + e) ->
  let t := fexp prec emax (Zdigits2 q + e) in
  binary_round_aux prec emax s q e l <> S754_nan
  /\ fkey (binary_round_aux prec emax s q e l)
     = signed s (sat (rne_quot N (D * 2 ^ (t - e)) * 2 ^ (t + 1074))).
Proof.
  intros HN HD Hdesc Hfexp t. unfold binary_round_aux, shr_fexp.
  fold t.
  assert (Hq : q = N / D).
  { destruct Hdesc as [Hm _]. now destruct l as [| []]. }
  destruct (quot_mantissa_bounds q e N D HN HD Hq Hfexp) as [[HQ0 HFu] HFl].
  fold t in HQ0, HFu, HFl.
  rewrite fexp_eq in Hfexp.
  assert (Ht : t = Z.max (Zdigits2 q + e - 53) (-1074)) by apply fexp_eq.
  set (n := t - e) in *.
  assert (Hn : 0 <= n) by (unfold n; lia).
  destruct (shr_describes N D (shr_record_of_loc q l) e n HN HD Hn Hdesc)
    as [He' Hd'].
  destruct (shr (shr_record_of_loc q l) e n) as [mrs e'].
  cbn [fst snd] in He', Hd'.
  assert (Hpn : 0 < 2 ^ n) by (apply Z.pow_pos_nonneg; lia).
  assert (HDn : 0 < D * 2 ^ n) by (apply Z.mul_pos_pos; lia).
  rewrite (round_describes N (D * 2 ^ n) mrs HDn Hd').
  replace e' with t by (unfold n in He'; lia). clear He' Hd' mrs e'.
  set (M := rne_quot N (D * 2 ^ n)).
  pose proof (rne_quot_bounds N (D * 2 ^ n) HDn) as HM. fold M in HM.
  assert (HNu : M <= 2 ^ 53) by lia.
  assert (HN52 : -1074 < t -> 2 ^ 52 <= M) by (intros H; specialize (HFl H); lia).
  assert (HM0 : 0 <= M) by lia.
  assert (Htl : -1074 <= t) by lia.
  assert (Hpt : 0 < 2 ^ (t + 1074)) by (apply Z.pow_pos_nonneg; lia).
  clearbody M t. clear - HNu HN52 HM0 Htl Hpt.
  destruct M as [| pN |] eqn:EN; [| | lia].
  - (* the quotient rounds to nothing *)
    assert (t = -1074).
    { destruct (Z.eq_dec t (-1074)); [assumption |].
      assert (2 ^ 52 <= 0) by (apply HN52; lia). lia. }
    subst t. cbn. split; [discriminate |]. now destruct s.
  - cbn [shr_record_of_loc Zdigits2]. rewrite fexp_eq.
    pose proof (digits2_bounds pN) as [HdNl HdNu].
    set (dN := Zpos (digits2_pos pN)) in *.
    destruct (Z.eq_dec (Zpos pN) (2 ^ 53)) as [E53 | N53].
    + (* the carry: one more shift *)
      assert (HdN : dN = 54).
      { assert (H : Z.log2 (Zpos pN) = 53)
          by (rewrite E53; apply Z.log2_pow2; lia).
        unfold dN. rewrite digits2_log2. lia. }
      replace (Z.max (dN + t - 53) (-1074) - t) with 1 by lia.
      pose proof (shr_round (Zpos pN) t 1 ltac:(lia) ltac:(lia)) as Hshr.
      destruct (shr {| shr_m := Zpos pN; shr_r := false; shr_s := false |} t 1)
        as [mrs e''].
      destruct Hshr as [He'' [Hm _]]. rewrite Hm, He'', E53.
      change (2 ^ 53 / 2 ^ 1) with (Zpos 4503599627370496).
      unfold emax, prec. change (1024 - 53) with 971.
      destruct (Z.leb_spec (t + 1) 971) as [Hle | Hgt].
      * split; [discriminate |]. cbn [fkey]. f_equal.
        unfold sat, OVERFLOW.
        destruct (Z.leb_spec (2 ^ 2098) (2 ^ 53 * 2 ^ (t + 1074))) as [Ho | Ho].
        -- exfalso. rewrite <- Z.pow_add_r in Ho by lia.
           apply Z.pow_le_mono_r_iff in Ho; lia.
        -- replace (t + 1 + 1074) with (Z.succ (t + 1074)) by lia.
           rewrite Z.pow_succ_r by lia.
           change (2 ^ 53) with (Zpos 4503599627370496 * 2). ring.
      * split; [discriminate |]. cbn [fkey]. f_equal.
        unfold sat, OVERFLOW.
        destruct (Z.leb_spec (2 ^ 2098) (2 ^ 53 * 2 ^ (t + 1074))) as [Ho | Ho];
          [reflexivity |].
        exfalso. rewrite <- Z.pow_add_r in Ho by lia.
        apply Z.pow_lt_mono_r_iff in Ho; lia.
    + (* no carry *)
      assert (HdN : dN <= 53).
      { destruct (Z.le_gt_cases dN 53) as [H | H]; [exact H |].
        assert (2 ^ 53 <= 2 ^ (dN - 1)) by (apply Z.pow_le_mono_r; lia). lia. }
      rewrite shr_nonpos by lia. cbn [shr_m].
      unfold emax, prec. change (1024 - 53) with 971.
      destruct (Z.leb_spec t 971) as [Hle | Hgt].
      * split; [discriminate |]. cbn [fkey]. f_equal.
        unfold sat, OVERFLOW.
        destruct (Z.leb_spec (2 ^ 2098) (Zpos pN * 2 ^ (t + 1074))) as [Ho | Ho];
          [| reflexivity].
        exfalso.
        assert (Zpos pN * 2 ^ (t + 1074) < 2 ^ 53 * 2 ^ (t + 1074))
          by (apply Z.mul_lt_mono_pos_r; lia).
        assert (2 ^ 53 * 2 ^ (t + 1074) <= 2 ^ 2098).
        { rewrite <- Z.pow_add_r by lia. apply Z.pow_le_mono_r; lia. }
        lia.
      * split; [discriminate |]. cbn [fkey]. f_equal.
        unfold sat, OVERFLOW.
        destruct (Z.leb_spec (2 ^ 2098) (Zpos pN * 2 ^ (t + 1074))) as [Ho | Ho];
          [reflexivity |].
        exfalso.
        assert (2 ^ 52 * 2 ^ (t + 1074) <= Zpos pN * 2 ^ (t + 1074))
          by (apply Z.mul_le_mono_nonneg_r; [lia | apply HN52; lia]).
        assert (2 ^ 2098 <= 2 ^ 52 * 2 ^ (t + 1074)).
        { rewrite <- Z.pow_add_r by lia. apply Z.pow_le_mono_r; lia. }
        lia.
Qed.


Lemma rnd_quot_pos_at A B k :
  0 <= A -> 0 < B -> 0 <= k ->
  A / (B * 2 ^ k) < 2 ^ 53 ->
  (0 < k -> 2 ^ 52 <= A / (B * 2 ^ k)) ->
  rnd_quot_pos A B = rne_quot A (B * 2 ^ k) * 2 ^ k.
Proof.
  intros HA HB Hk Hu Hl. unfold rnd_quot_pos.
  assert (Hpk : 0 < 2 ^ k) by (apply Z.pow_pos_nonneg; lia).
  assert (HF : A / (B * 2 ^ k) = A / B / 2 ^ k)
    by (symmetry; apply Z.div_div; lia).
  rewrite HF in Hu, Hl.
  assert (HQ : 0 <= A / B) by (apply Z.div_pos; lia).
  assert (Hk' : Z.max 0 (Z.log2 (A / B) - 52) = k); [| now rewrite Hk'].
  destruct (Z.eq_dec k 0) as [-> | Hk0].
  - rewrite Z.pow_0_r, Z.div_1_r in Hu.
    destruct (Z.eq_dec (A / B) 0) as [-> | Hne]; [reflexivity |].
    assert (Z.log2 (A / B) < 53) by (apply Z.log2_lt_pow2; lia). lia.
  - specialize (Hl ltac:(lia)).
    assert (Hlo : 2 ^ 52 * 2 ^ k <= A / B).
    { pose proof (Z.mul_div_le (A / B) (2 ^ k) Hpk). nia. }
    assert (Hhi : A / B < 2 ^ 53 * 2 ^ k).
    { pose proof (Z.mod_pos_bound (A / B) (2 ^ k) Hpk).
      pose proof (Z.div_mod (A / B) (2 ^ k) ltac:(lia)). nia. }
    rewrite <- Z.pow_add_r in Hlo, Hhi by lia.
    assert (Z.log2 (A / B) = 52 + k); [| lia].
    apply Z.log2_unique; [lia |]. split; [exact Hlo |].
    now replace (Z.succ (52 + k)) with (53 + k) by lia.
Qed.

Lemma rnd_quot_pos_scale A B c :
  0 < B -> 0 < c -> rnd_quot_pos (A * c) (B * c) = rnd_quot_pos A B.
Proof.
  intros HB Hc. unfold rnd_quot_pos.
  rewrite Z.div_mul_cancel_r by lia.
  set (k := Z.max 0 (Z.log2 (A / B) - 52)).
  assert (Hpk : 0 < 2 ^ k) by (apply Z.pow_pos_nonneg; lia).
  replace (B * c * 2 ^ k) with (B * 2 ^ k * c) by ring.
  rewrite rne_quot_scale by nia. reflexivity.
Qed.

(** Equal fractions round alike. *)
Lemma rnd_quot_pos_cross A B N D :
  0 < B -> 0 < D -> A * D = N * B -> rnd_quot_pos A B = rnd_quot_pos N D.
Proof.
  intros HB HD E.
  rewrite <- (rnd_quot_pos_scale A B D HB HD), E.
  rewrite (Z.mul_comm B D). now apply rnd_quot_pos_scale.
Qed.

(** The quotient of [mx * 2^ex] by [my * 2^ey], computed as the mantissa
    [mx * 2^s / (my * 2^n)] at the exponent [t], is the rounding of the
    quotient of the two values. *)
Lemma rnd_quot_at_exponent mx my ex ey e' s a b n t :
  0 < mx -> 0 < my -> -1074 <= ex -> -1074 <= ey ->
  0 <= s -> s + e' = ex - ey ->
  0 <= a -> 0 <= b -> a - b = e' + 1074 ->
  0 <= n -> t = e' + n -> -1074 <= t ->
  mx * 2 ^ s / (my * 2 ^ n) < 2 ^ 53 ->
  (-1074 < t -> 2 ^ 52 <= mx * 2 ^ s / (my * 2 ^ n)) ->
  rne_quot (mx * 2 ^ s) (my * 2 ^ n) * 2 ^ (t + 1074)
  = rnd_quot_pos (mx * 2 ^ (ex + 1074) * 2 ^ 1074) (my * 2 ^ (ey + 1074)).
Proof.
  intros Hmx Hmy Hex Hey Hs Hse Ha Hb Hab Hn Ht Htl HFu HFl.
  assert (Hps : 0 < 2 ^ s) by (apply Z.pow_pos_nonneg; lia).
  assert (Hpa : 0 < 2 ^ a) by (apply Z.pow_pos_nonneg; lia).
  assert (Hpb : 0 < 2 ^ b) by (apply Z.pow_pos_nonneg; lia).
  assert (Hpn : 0 < 2 ^ n) by (apply Z.pow_pos_nonneg; lia).
  assert (Hpy : 0 < 2 ^ (ey + 1074)) by (apply Z.pow_pos_nonneg; lia).
  assert (HB : 0 < my * 2 ^ b) by (apply Z.mul_pos_pos; assumption).
  assert (HD : 0 < my * 2 ^ (ey + 1074)) by (apply Z.mul_pos_pos; assumption).
  assert (HDn : 0 < my * 2 ^ n) by (apply Z.mul_pos_pos; assumption).
  assert (Hscale : my * 2 ^ b * 2 ^ (t + 1074) = my * 2 ^ n * 2 ^ a).
  { rewrite <- !Z.mul_assoc, <- !Z.pow_add_r by lia.
    f_equal. f_equal. lia. }
  rewrite <- (rnd_quot_pos_cross (mx * 2 ^ s * 2 ^ a) (my * 2 ^ b)
                (mx * 2 ^ (ex + 1074) * 2 ^ 1074) (my * 2 ^ (ey + 1074))
                HB HD).
  - rewrite (rnd_quot_pos_at (mx * 2 ^ s * 2 ^ a) (my * 2 ^ b) (t + 1074)).
    + rewrite Hscale. now rewrite rne_quot_scale.
    + apply Z.mul_nonneg_nonneg; [apply Z.mul_nonneg_nonneg |]; lia.
    + exact HB.
    + lia.
    + rewrite Hscale, Z.div_mul_cancel_r by lia. exact HFu.
    + intros Hk. rewrite Hscale, Z.div_mul_cancel_r by lia.
      apply HFl. lia.
  - replace (mx * 2 ^ s * 2 ^ a * (my * 2 ^ (ey + 1074)))
      with (mx * my * (2 ^ s * 2 ^ a * 2 ^ (ey + 1074))) by ring.
    replace (mx * 2 ^ (ex + 1074) * 2 ^ 1074 * (my * 2 ^ b))
      with (mx * my * (2 ^ (ex + 1074) * 2 ^ 1074 * 2 ^ b)) by ring.
    f_equal. rewrite <- !Z.pow_add_r by lia.
    f_equal. lia.
Qed.

(** The fkey of [x / y] is the rounding of the quotient, for finite [x] and
    [y]. *)
Lemma div_key sx mx ex sy my ey :
  valid_binary (S754_finite sx mx ex) = true ->
  valid_binary (S754_finite sy my ey) = true ->
  SF64div (S754_finite sx mx ex) (S754_finite sy my ey) <> S754_nan
  /\ fkey (SF64div (S754_finite sx mx ex) (S754_finite sy my ey))
     = signed (xorb sx sy)
         (sat (rnd_quot_pos (Zpos mx * 2 ^ (ex + 1074) * 2 ^ 1074)
                            (Zpos my * 2 ^ (ey + 1074)))).
Proof.
  intros Hvx Hvy.
  apply valid_finite in Hvx as [Hex [Hdx Hnx]].
  apply valid_finite in Hvy as [Hey [Hdy Hny]].
  pose proof (digits2_bounds mx) as [Hxl Hxu].
  pose proof (digits2_bounds my) as [Hyl Hyu].
  unfold SF64div, SFdiv, SFdiv_core_binary. cbn [Zdigits2].
  set (d1 := Zpos (digits2_pos mx)) in *.
  set (d2 := Zpos (digits2_pos my)) in *.
  rewrite fexp_eq.
  set (e' := Z.min (Z.max (d1 + ex - (d2 + ey) - 53) (-1074)) (ex - ey)).
  assert (He'1 : e' <= ex - ey) by (unfold e'; lia).
  assert (He'2 : -1074 < e' -> e' <= d1 + ex - (d2 + ey) - 53)
    by (unfold e'; lia).
  clearbody e'.
  set (s := ex - ey - e').
  assert (Hs : 0 <= s) by (unfold s; lia).
  assert (Hse : s + e' = ex - ey) by (unfold s; lia).
  set (m' := match s with
             | 0 => Zpos mx
             | Zpos _ => Z.shiftl (Zpos mx) s
             | Zneg _ => 0
             end).
  assert (Hm' : m' = Zpos mx * 2 ^ s).
  { unfold m'. destruct s as [| p | p] eqn:Es; [| | lia].
    - rewrite Z.pow_0_r. lia.
    - apply Z.shiftl_mul_pow2. lia. }
  clearbody m' s.
  assert (Hps : 0 < 2 ^ s) by (apply Z.pow_pos_nonneg; lia).
  assert (Hm'0 : 0 < m') by (rewrite Hm'; lia).
  destruct (Z.div_eucl m' (Zpos my)) as [q r] eqn:Ediv.
  assert (Hq : m' / Zpos my = q) by (unfold Z.div; now rewrite Ediv).
  assert (Hr : m' mod Zpos my = r) by (unfold Z.modulo; now rewrite Ediv).
  pose proof (describes_location q r (Zpos my) m' ltac:(lia) Hq Hr) as Hdesc.
  assert (Hq0 : 0 <= q) by (subst q; apply Z.div_pos; lia).
  destruct (zdigits2_bounds q Hq0) as [Hqu [Hql Hqd]].
  assert (Hfexp : e' <= fexp prec emax (Zdigits2 q + e')).
  { rewrite fexp_eq.
    destruct (Z.le_gt_cases e' (-1074)) as [Hlow | Hhigh]; [lia |].
    assert (Hs53 : 53 + d2 - d1 <= s) by (specialize (He'2 Hhigh); lia).
    assert (H52 : 2 ^ 52 <= q).
    { rewrite <- Hq. apply Z.div_le_lower_bound; [lia |].
      rewrite Z.mul_comm.
      apply Z.le_trans with (2 ^ 52 * 2 ^ d2).
      - apply Z.mul_le_mono_nonneg_l; lia.
      - rewrite Hm'. apply Z.le_trans with (2 ^ (d1 - 1) * 2 ^ s).
        + rewrite <- !Z.pow_add_r by lia. apply Z.pow_le_mono_r; lia.
        + apply Z.mul_le_mono_nonneg_r; lia. }
    assert (52 < Zdigits2 q).
    { apply (Z.pow_lt_mono_r_iff 2); lia. }
    lia. }
  destruct (binary_round_aux_quot (xorb sx sy) q e' (new_location (Zpos my) r)
              m' (Zpos my) ltac:(lia) ltac:(lia) Hdesc Hfexp) as [Hnan Hkey].
  split; [exact Hnan |]. rewrite Hkey. f_equal. f_equal.
  destruct (quot_mantissa_bounds q e' m' (Zpos my) ltac:(lia) ltac:(lia)
              (eq_sym Hq) Hfexp) as [[HF0 HFu] HFl].
  set (t := fexp prec emax (Zdigits2 q + e')) in *.
  assert (Ht : -1074 <= t) by (unfold t; rewrite fexp_eq; lia).
  clearbody t. rewrite Hm' in *.
  apply (rnd_quot_at_exponent (Zpos mx) (Zpos my) ex ey e' s
           (Z.max 0 (e' + 1074)) (Z.max 0 (- (e' + 1074))) (t - e') t);
    try assumption; lia.
Qed.


(** ** Sums and means *)

Lemma RND_pos V : 0 < V -> RND V = sat (rnd_pos V).
Proof. destruct V; try lia. reflexivity. Qed.

Lemma RND_neg V : 0 < V -> RND (- V) = - sat (rnd_pos V).
Proof. destruct V; try lia. reflexivity. Qed.

Lemma RND_valid s m e :
  valid_binary (S754_finite s m e) = true ->
  RND (fkey (S754_finite s m e)) = fkey (S754_finite s m e).
Proof.
  intros Hv. pose proof (finite_key_bounds s m e Hv) as [Hpos Hlt].
  apply valid_finite in Hv as [He [Hd Hn]].
  pose proof (digits2_bounds m) as [Hl Hu].
  assert (Hr : rnd_pos (Zpos m * 2 ^ (e + 1074)) = Zpos m * 2 ^ (e + 1074)).
  { destruct (Z.eq_dec e (-1074)) as [-> | Hne].
    - change (-1074 + 1074) with 0. rewrite Z.pow_0_r, Z.mul_1_r.
      unfold rnd_pos.
      assert (Z.log2 (Zpos m) < 53).
      { apply Z.log2_lt_pow2; [lia |].
        eapply Z.lt_le_trans; [exact Hu | apply Z.pow_le_mono_r; lia]. }
      replace (Z.max 0 (Z.log2 (Zpos m) - 52)) with 0 by lia.
      rewrite rne_0, Z.pow_0_r. lia.
    - rewrite Hn in Hl, Hu by lia. apply rnd_pos_exact; lia. }
  assert (Hs : sat (Zpos m * 2 ^ (e + 1074)) = Zpos m * 2 ^ (e + 1074)).
  { unfold sat. destruct (Z.leb_spec OVERFLOW (Zpos m * 2 ^ (e + 1074))); lia. }
  cbn [fkey]. destruct s; cbn [signed].
  - rewrite RND_neg by lia. now rewrite Hr, Hs.
  - rewrite RND_pos by lia. now rewrite Hr, Hs.
Qed.

(** The fkey of [x + y] is the rounding of the sum, for [x] and [y] that
    are numbers. *)
Lemma add_key x y :
  valid_binary x = true -> valid_binary y = true ->
  (forall s, x <> S754_infinity s) -> x <> S754_nan ->
  (forall s, y <> S754_infinity s) -> y <> S754_nan ->
  SF64add x y <> S754_nan
  /\ fkey (SF64add x y) = RND (fkey x + fkey y).
Proof.
  intros Hvx Hvy Hix Hnx Hiy Hny.
  destruct x as [sx | sx | | sx mx ex]; [| now destruct (Hix sx) | congruence |];
    destruct y as [sy | sy | | sy my ey];
    try (now destruct (Hiy sy)); try congruence.
  - split; [destruct sx, sy; discriminate |]. now destruct sx, sy.
  - split; [discriminate |].
    change (SF64add (S754_zero sx) (S754_finite sy my ey))
      with (S754_finite sy my ey).
    change (fkey (S754_zero sx)) with 0. rewrite Z.add_0_l.
    symmetry. now apply RND_valid.
  - split; [discriminate |].
    change (SF64add (S754_finite sx mx ex) (S754_zero sy))
      with (S754_finite sx mx ex).
    change (fkey (S754_zero sy)) with 0. rewrite Z.add_0_r.
    symmetry. now apply RND_valid.
  - pose proof (valid_finite _ _ _ Hvx) as [Hex _].
    pose proof (valid_finite _ _ _ Hvy) as [Hey _].
    unfold SF64add, SFadd.
    set (ez := Z.min ex ey).
    destruct (binary_normalize_key
                (cond_Zopp sx (Zpos (fst (shl_align mx ex ez)))
                 + cond_Zopp sy (Zpos (fst (shl_align my ey ez))))
                ez ltac:(unfold ez; lia)) as [Hnan Hkey].
    split; [exact Hnan |]. rewrite Hkey. f_equal.
    rewrite !shl_align_fst by (unfold ez; lia).
    assert (Hpz : 0 < 2 ^ (ez + 1074))
      by (apply Z.pow_pos_nonneg; unfold ez; lia).
    assert (Ha : Zpos mx * 2 ^ (ex - ez) * 2 ^ (ez + 1074)
                 = Zpos mx * 2 ^ (ex + 1074)).
    { rewrite <- Z.mul_assoc, <- Z.pow_add_r by (unfold ez; lia).
      f_equal. f_equal. lia. }
    assert (Hb : Zpos my * 2 ^ (ey - ez) * 2 ^ (ez + 1074)
                 = Zpos my * 2 ^ (ey + 1074)).
    { rewrite <- Z.mul_assoc, <- Z.pow_add_r by (unfold ez; lia).
      f_equal. f_equal. lia. }
    clearbody ez.
    destruct sx, sy; cbn [cond_Zopp fkey signed]; lia.
Qed.


Lemma RND_int n : 0 < n < 2 ^ 53 -> RND (n * 2 ^ 1074) = n * 2 ^ 1074.
Proof.
  intros [Hl Hu].
  set (j := Z.log2 n).
  destruct (Z.log2_spec n Hl) as [Hjl Hju]. fold j in Hjl, Hju.
  assert (Hj : 0 <= j) by apply Z.log2_nonneg.
  assert (Hj52 : j <= 52).
  { assert (j < 53); [| lia]. apply (Z.pow_lt_mono_r_iff 2); lia. }
  assert (E : n * 2 ^ 1074 = n * 2 ^ (52 - j) * 2 ^ (1022 + j)).
  { rewrite <- Z.mul_assoc, <- Z.pow_add_r by lia.
    f_equal. f_equal. lia. }
  assert (Hpj : 0 < 2 ^ (52 - j)) by (apply Z.pow_pos_nonneg; lia).
  assert (Hm : 2 ^ 52 <= n * 2 ^ (52 - j) < 2 ^ 53).
  { assert (E52 : 2 ^ 52 = 2 ^ j * 2 ^ (52 - j))
      by (rewrite <- Z.pow_add_r by lia; f_equal; lia).
    assert (E53 : 2 ^ 53 = 2 ^ Z.succ j * 2 ^ (52 - j))
      by (rewrite <- Z.pow_add_r by lia; f_equal; lia).
    rewrite E52, E53. split.
    - apply Z.mul_le_mono_nonneg_r; lia.
    - apply Z.mul_lt_mono_pos_r; lia. }
  assert (Hpos : 0 < n * 2 ^ 1074)
    by (apply Z.mul_pos_pos; [lia | apply Z.pow_pos_nonneg; lia]).
  rewrite RND_pos by exact Hpos.
  rewrite E, rnd_pos_exact by lia.
  unfold sat.
  destruct (Z.leb_spec OVERFLOW (n * 2 ^ (52 - j) * 2 ^ (1022 + j)));
    [| reflexivity].
  exfalso. unfold OVERFLOW in *.
  assert (n * 2 ^ (52 - j) * 2 ^ (1022 + j) < 2 ^ 53 * 2 ^ (1022 + j)).
  { apply Z.mul_lt_mono_pos_r; [apply Z.pow_pos_nonneg; lia | lia]. }
  assert (2 ^ 53 * 2 ^ (1022 + j) <= 2 ^ 2098).
  { rewrite <- Z.pow_add_r by lia. apply Z.pow_le_mono_r; lia. }
  lia.
Qed.

(** [len(scores)] as a float: a positive number, the length itself. *)
Lemma float_of_len_key {A} (l : list A) :
  l <> [] -> Z.of_nat (length l) < 2 ^ 53 ->
  exists m e,
    Prim2SF (float_of_len l) = S754_finite false m e
    /\ Zpos m * 2 ^ (e + 1074) = Z.of_nat (length l) * 2 ^ 1074.
Proof.
  intros Hne Hlt. unfold float_of_len.
  set (n := Z.of_nat (length l)) in *.
  assert (Hn : 0 < n) by (unfold n; destruct l; [congruence | simpl; lia]).
  pose proof (Prim2SF_valid (of_uint63 (Uint63.of_Z n))) as Hv.
  rewrite of_uint63_spec in *. rewrite Uint63.of_Z_spec in *.
  assert (Hmod : n mod Uint63.wB = n).
  { apply Z.mod_small. split; [lia |].
    eapply Z.lt_trans; [exact Hlt |]. reflexivity. }
  rewrite Hmod in *.
  destruct (binary_normalize_key n 0 ltac:(lia)) as [Hnan Hkey].
  change (0 + 1074) with 1074 in Hkey. rewrite RND_int in Hkey by lia.
  pose proof K_INF_bounds as [HO HK].
  assert (Hbig : n * 2 ^ 1074 < OVERFLOW).
  { unfold OVERFLOW.
    apply Z.lt_le_trans with (2 ^ 53 * 2 ^ 1074).
    - apply Z.mul_lt_mono_pos_r; [apply Z.pow_pos_nonneg; lia | lia].
    - rewrite <- Z.pow_add_r by lia. apply Z.pow_le_mono_r; lia. }
  assert (Hpos : 0 < n * 2 ^ 1074)
    by (apply Z.mul_pos_pos; [lia | apply Z.pow_pos_nonneg; lia]).
  destruct (binary_normalize prec emax n 0 false) as [s | s | | s m e];
    cbn [fkey] in Hkey; try lia; try congruence.
  - destruct s; cbn [signed] in Hkey; lia.
  - pose proof (finite_key_bounds s m e Hv).
    destruct s; cbn [signed] in Hkey; [lia |].
    now exists m, e.
Qed.

Lemma finite_float_spec x :
  finite_float x = true ->
  (forall s, Prim2SF x <> S754_infinity s) /\ Prim2SF x <> S754_nan.
Proof.
  unfold finite_float. destruct (Prim2SF x); try discriminate;
    split; congruence.
Qed.

Lemma finite_value_bound x :
  finite_float x = true -> - OVERFLOW < value x < OVERFLOW.
Proof.
  unfold finite_float, value. pose proof (Prim2SF_valid x) as Hv.
  pose proof K_INF_bounds.
  destruct (Prim2SF x) as [s | s | | s m e]; try discriminate; intros _.
  - cbn. lia.
  - pose proof (finite_key_bounds s m e Hv). destruct s; cbn; lia.
Qed.

(** An addition that does not round gives the sum, a number. *)
Lemma add_exact (x y : float) :
  finite_float x = true -> finite_float y = true ->
  RND (value x + value y) = value x + value y ->
  finite_float (x + y) = true /\ value (x + y)%float = value x + value y.
Proof.
  intros Hx Hy HR.
  pose proof (finite_value_bound x Hx) as Bx.
  pose proof (finite_value_bound y Hy) as By.
  destruct (finite_float_spec x Hx) as [Hix Hnx].
  destruct (finite_float_spec y Hy) as [Hiy Hny].
  destruct (add_key (Prim2SF x) (Prim2SF y) (Prim2SF_valid x)
              (Prim2SF_valid y) Hix Hnx Hiy Hny) as [Hnan Hkey].
  unfold value in *. rewrite add_spec. rewrite Hkey, HR.
  split; [| reflexivity].
  unfold finite_float. rewrite add_spec.
  rewrite HR in Hkey. pose proof K_INF_bounds as [HO HK].
  assert (H2 : 2 * OVERFLOW <= K_INF).
  { unfold OVERFLOW, K_INF. rewrite <- Z.pow_succ_r by lia.
    apply Z.pow_le_mono_r; lia. }
  destruct (SF64add (Prim2SF x) (Prim2SF y)) as [s | s | | s m e];
    try reflexivity; [| congruence].
  exfalso. destruct s; cbn [fkey signed] in Hkey; lia.
Qed.

Lemma py_sum_exact scores acc :
  finite_float acc = true ->
  Forall (fun x => finite_float x = true) scores ->
  Forall (fun V => RND V = V) (running_sums (value acc) (map value scores)) ->
  finite_float (fold_left PrimFloat.add scores acc) = true
  /\ value (fold_left PrimFloat.add scores acc)
     = value acc + zsum (map value scores).
Proof.
  revert acc. induction scores as [| x scores IH]; intros acc Ha Hf Hs.
  - simpl. split; [exact Ha | lia].
  - inversion Hf as [| ? ? Hx Hf']; subst.
    cbn [map running_sums] in Hs. inversion Hs as [| ? ? HR Hs']; subst.
    destruct (add_exact acc x Ha Hx HR) as [Hfin Hval].
    cbn [fold_left map zsum fold_right].
    rewrite <- Hval in Hs'.
    destruct (IH (acc + x)%float Hfin Hf' Hs') as [Hfin' Hval'].
    split; [exact Hfin' |]. rewrite Hval', Hval. unfold zsum. lia.
Qed.

Lemma RNDQ_pos N D : 0 < N -> RNDQ N D = sat (rnd_quot_pos N D).
Proof. destruct N; try lia. reflexivity. Qed.

Lemma RNDQ_neg N D : 0 < N -> RNDQ (- N) D = - sat (rnd_quot_pos N D).
Proof. destruct N; try lia. reflexivity. Qed.

Lemma rne_quot_le N D M :
  0 < D -> N <= M * D -> rne_quot N D <= M.
Proof.
  intros HD Hle.
  pose proof (rne_quot_bounds N D HD) as [_ Hb].
  pose proof (Z.mod_pos_bound N D HD) as Hrem.
  pose proof (Z.div_mod N D ltac:(lia)) as Hdm.
  assert (Hq : N / D <= M) by (apply Z.div_le_upper_bound; lia).
  destruct (Z.eq_dec (N / D) M) as [E | NE]; [| lia].
  assert (H0 : N mod D = 0) by nia.
  unfold rne_quot. rewrite H0, E.
  assert (Hc : (2 * 0 ?= D) = Lt) by (apply Z.compare_lt_iff; lia).
  rewrite Hc. lia.
Qed.

Lemma rnd_quot_pos_nonneg N D : 0 <= N -> 0 < D -> 0 <= rnd_quot_pos N D.
Proof.
  intros HN HD. unfold rnd_quot_pos.
  set (k := Z.max 0 (Z.log2 (N / D) - 52)).
  assert (Hpk : 0 < 2 ^ k) by (apply Z.pow_pos_nonneg; lia).
  assert (HDk : 0 < D * 2 ^ k) by (apply Z.mul_pos_pos; lia).
  pose proof (rne_quot_bounds N (D * 2 ^ k) HDk) as [Hb _].
  assert (0 <= N / (D * 2 ^ k)) by (apply Z.div_pos; lia).
  apply Z.mul_nonneg_nonneg; lia.
Qed.

(** Dividing a finite number by a count does not overflow. *)
Lemma rnd_quot_pos_finite s m e n :
  valid_binary (S754_finite s m e) = true -> 0 < n ->
  rnd_quot_pos (Zpos m * 2 ^ (e + 1074)) n < OVERFLOW.
Proof.
  intros Hv Hn. apply valid_finite in Hv as [He [Hd _]].
  pose proof (digits2_bounds m) as [_ Hu].
  assert (Hm : Zpos m <= 2 ^ 53 - 1).
  { assert (Zpos m < 2 ^ 53); [| lia].
    eapply Z.lt_le_trans; [exact Hu | apply Z.pow_le_mono_r; lia]. }
  set (X := Zpos m * 2 ^ (e + 1074)).
  assert (Hpe : 0 < 2 ^ (e + 1074)) by (apply Z.pow_pos_nonneg; lia).
  assert (HX0 : 0 < X) by (unfold X; lia).
  assert (HX : X <= (2 ^ 53 - 1) * 2 ^ 2045).
  { unfold X. apply Z.le_trans with ((2 ^ 53 - 1) * 2 ^ (e + 1074)).
    - apply Z.mul_le_mono_nonneg_r; lia.
    - apply Z.mul_le_mono_nonneg_l; [lia |]. apply Z.pow_le_mono_r; lia. }
  clearbody X. clear - Hn HX0 HX.
  unfold rnd_quot_pos, OVERFLOW.
  set (Q := X / n).
  assert (HQ0 : 0 <= Q) by (apply Z.div_pos; lia).
  assert (HQX : Q <= X) by (apply Z.div_le_upper_bound; nia).
  set (k := Z.max 0 (Z.log2 Q - 52)).
  assert (Hk : 0 <= k) by (unfold k; lia).
  assert (Hpk : 0 < 2 ^ k) by (apply Z.pow_pos_nonneg; lia).
  assert (HDk : 0 < n * 2 ^ k) by (apply Z.mul_pos_pos; lia).
  assert (HF : X / (n * 2 ^ k) = Q / 2 ^ k)
    by (symmetry; apply Z.div_div; lia).
  assert (HFu : Q / 2 ^ k < 2 ^ 53).
  { apply Z.div_lt_upper_bound; [lia |].
    rewrite <- Z.pow_add_r by lia.
    destruct (Z.eq_dec Q 0) as [-> | HQ]; [apply Z.pow_pos_nonneg; lia |].
    destruct (Z.log2_spec Q ltac:(lia)) as [_ Hlt].
    eapply Z.lt_le_trans; [exact Hlt |].
    apply Z.pow_le_mono_r; unfold k; lia. }
  assert (Hk2045 : k <= 2045).
  { assert (Z.log2 Q <= 2097); [| unfold k; lia].
    assert (Z.log2 Q <= Z.log2 ((2 ^ 53 - 1) * 2 ^ 2045))
      by (apply Z.log2_le_mono; lia).
    assert (Z.log2 ((2 ^ 53 - 1) * 2 ^ 2045) = 2097); [| lia].
    rewrite Z.log2_mul_pow2 by lia. reflexivity. }
  pose proof (rne_quot_bounds X (n * 2 ^ k) HDk) as [_ Hb].
  rewrite HF in Hb.
  destruct (Z.eq_dec k 2045) as [E | NE].
  - assert (Hr : rne_quot X (n * 2 ^ k) <= 2 ^ 53 - 1).
    { apply rne_quot_le; [exact HDk |]. rewrite E.
      apply Z.le_trans with ((2 ^ 53 - 1) * 2 ^ 2045); [exact HX |].
      rewrite Z.mul_assoc. apply Z.mul_le_mono_nonneg_r; [lia | nia]. }
    rewrite E in *.
    apply Z.le_lt_trans with ((2 ^ 53 - 1) * 2 ^ 2045).
    + apply Z.mul_le_mono_nonneg_r; lia.
    + change (2 ^ 2098) with (2 ^ 53 * 2 ^ 2045).
      apply Z.mul_lt_mono_pos_r; lia.
  - apply Z.le_lt_trans with (2 ^ 53 * 2 ^ k).
    + apply Z.mul_le_mono_nonneg_r; lia.
    + rewrite <- Z.pow_add_r by lia. apply Z.pow_lt_mono_r; lia.
Qed.

(** When no addition rounds, [sum(scores) / len(scores)] is the binary64
    number nearest to the mean of the scores. *)
Lemma mean_score_exact scores :
  scores <> [] ->
  Z.of_nat (length scores) < 2 ^ 53 ->
  Forall (fun x => finite_float x = true) scores ->
  exact_sums (map value scores) ->
  finite_float (mean_score scores) = true
  /\ value (mean_score scores) = arithmetic_mean (map value scores).
Proof.
  intros Hne Hlen Hf Hs.
  destruct (py_sum_exact scores 0%float eq_refl Hf Hs) as [Hfin Hval].
  change (value 0) with 0 in Hval. rewrite Z.add_0_l in Hval.
  fold (py_sum scores) in Hfin, Hval.
  destruct (float_of_len_key scores Hne Hlen) as [my [ey [Hy Hky]]].
  assert (Hvy : valid_binary (S754_finite false my ey) = true)
    by (rewrite <- Hy; apply Prim2SF_valid).
  unfold arithmetic_mean. rewrite length_map, <- Hval.
  set (n := Z.of_nat (length scores)) in *.
  assert (Hn : 0 < n) by (unfold n; destruct scores; [congruence | simpl; lia]).
  assert (Hm : mean_score scores = (py_sum scores / float_of_len scores)%float)
    by (destruct scores; [congruence | reflexivity]).
  rewrite Hm. unfold finite_float, value in *. rewrite div_spec, Hy.
  pose proof (Prim2SF_valid (py_sum scores)) as Hvx.
  destruct (Prim2SF (py_sum scores)) as [sx | sx | | sx mx ex];
    try discriminate.
  - split; reflexivity.
  - destruct (div_key sx mx ex false my ey Hvx Hvy) as [Hnan Hkey].
    pose proof (finite_key_bounds sx mx ex Hvx) as [Hpos Hlt].
    assert (Hq : rnd_quot_pos (Zpos mx * 2 ^ (ex + 1074) * 2 ^ 1074)
                              (Zpos my * 2 ^ (ey + 1074))
                 = rnd_quot_pos (Zpos mx * 2 ^ (ex + 1074)) n).
    { rewrite Hky. apply rnd_quot_pos_scale; [exact Hn |].
      apply Z.pow_pos_nonneg; lia. }
    rewrite Hq, xorb_false_r in Hkey. rewrite Hkey.
    pose proof (rnd_quot_pos_finite sx mx ex n Hvx Hn) as Hle.
    assert (Hsat : sat (rnd_quot_pos (Zpos mx * 2 ^ (ex + 1074)) n)
                   = rnd_quot_pos (Zpos mx * 2 ^ (ex + 1074)) n).
    { unfold sat.
      destruct (Z.leb_spec OVERFLOW
                  (rnd_quot_pos (Zpos mx * 2 ^ (ex + 1074)) n)); lia. }
    split.
    + pose proof K_INF_bounds as [HO HK]. rewrite Hsat in Hkey.
      pose proof (rnd_quot_pos_nonneg (Zpos mx * 2 ^ (ex + 1074)) n
                    ltac:(lia) Hn) as Hge.
      destruct (SF64div (S754_finite sx mx ex) (S754_finite false my ey))
        as [s | s | | s m e]; try reflexivity; [| congruence].
      exfalso. destruct s, sx; cbn [fkey signed] in Hkey; lia.
    + cbn [fkey]. destruct sx; cbn [signed].
      * now rewrite RNDQ_neg by lia.
      * now rewrite RNDQ_pos by lia.
Qed.


End Division.

(** * Confidence *)

(** C5 as stated fails.  The collaborator reports the distances 0.5, 0.5 and
    [1 - 2^-53]: the similarities are 0.5, 0.5 and [2^-53], and their mean,
    [(1 + 2^-53) / 3], is itself a binary64 number.  The sum rounds to 1.0,
    and the confidence is the float next below the mean.  (A compensated
    sum, as of CPython 3.12, is 1.0 as well: the error [2^-53], added back
    to 1.0, is rounded away.) *)
Lemma confidence_not_mean_counterexample :
  exists r,
    fst (answer_question
           (Demo.world Demo.ok_collection Demo.ok_embeddings
                       (Return Demo.uneven) Demo.ok_generated)
           Demo.question 5 COLLECTION_NAME DEFAULT_MODEL Demo.fresh)
    = Return r
    /\ map score (chunks r) = [0.5; 0.5; 0x1p-53]%float
    /\ arithmetic_mean (map value (map score (chunks r)))
       = value 0x1.5555555555556p-2
    /\ confidence r = 0x1.5555555555555p-2%float
    /\ value (confidence r)
       <> arithmetic_mean (map value (map score (chunks r))).
Proof.
  eexists. split; [vm_compute; reflexivity |].
  split; [vm_compute; reflexivity |].
  split; [vm_compute; reflexivity |].
  split; [vm_compute; reflexivity |].
  vm_compute. discriminate.
Qed.

(** C5, amended.  After an empty retrieval the confidence is 0.0.  After a
    non-empty one whose scores are numbers that add up without rounding,
    the confidence is the arithmetic mean of the scores of all retrieved
    chunks, as a float: the binary64 number nearest to the mean (whether or
    not generation succeeds). *)
Theorem confidence_is_mean_similarity
    C question top_k collection_name model_name s retrieved s1 :
  query_similar_chunks C question top_k collection_name s
    = (Return retrieved, s1) ->
  Z.of_nat (length retrieved) < 2 ^ 53 ->
  Forall (fun x => finite_float x = true) (map score retrieved) ->
  exact_sums (map value (map score retrieved)) ->
  exists r s',
    answer_question C question top_k collection_name model_name s
      = (Return r, s')
    /\ (retrieved <> [] ->
        finite_float (confidence r) = true
        /\ value (confidence r)
           = arithmetic_mean (map value (map score retrieved)))
    /\ (retrieved = [] -> confidence r = 0%float).
Proof.
  intros Hq Hlen Hfin Hex. destruct retrieved as [| item rest].
  - exists no_context, s1. split.
    + now apply answer_question_no_context.
    + split; [congruence | reflexivity].
  - destruct (generate_answer_returns C question model_name
                (context_of (item :: rest)) 256 s1) as [a [s2 Hg]].
    exists (packaged (item :: rest) a), s2. split.
    + now apply answer_question_packaged with (s1 := s1).
    + split; [intros _ | discriminate].
      cbn [confidence packaged].
      apply mean_score_exact; [discriminate | | exact Hfin | exact Hex].
      now rewrite length_map.
Qed.

Lemma confidence_is_mean_similarity_witness :
  exists r,
    fst (answer_question
           (Demo.world Demo.ok_collection Demo.ok_embeddings
                       (Return Demo.two) Demo.ok_generated)
           Demo.question 5 COLLECTION_NAME DEFAULT_MODEL Demo.fresh)
    = Return r
    /\ value (confidence r) = arithmetic_mean [value 0.75; value 0.5]
    /\ arithmetic_mean [value 0.75; value 0.5] = value 0.625.
Proof.
  match goal with
  | |- exists r, fst (answer_question ?C ?q ?k ?cn ?mn ?s) = _ /\ _ =>
      destruct (confidence_is_mean_similarity C q k cn mn s
                  [ {| chunk := "Paris is the capital.";
                       score := 0.75%float;
                       metadata := Demo.doc1_meta |};
                    {| chunk := "Lyon is a city.";
                       score := 0.5%float;
                       metadata := Demo.doc1_meta |} ]
                  (snd (query_similar_chunks C q k cn s)))
        as [r [s' [E [Hmean _]]]]
  end.
  - vm_compute. reflexivity.
  - vm_compute. reflexivity.
  - repeat constructor.
  - repeat constructor; vm_compute; reflexivity.
  - exists r. split; [now rewrite E |].
    split; [apply Hmean; discriminate | vm_compute; reflexivity].
Defined.

(** * Similarity scores *)

(** What a non-empty retrieval was computed from: the rows of the
    collaborator's answer to the query. *)
Lemma query_similar_chunks_results
    C query top_k collection_name s retrieved s' :
  query_similar_chunks C query top_k collection_name s
    = (Return retrieved, s') ->
  retrieved <> [] ->
  exists collection embedding results docs dists metas,
    collection_query C collection embedding top_k = Return results
    /\ hd_error (documents results) = Some docs
    /\ hd_error (distances results) = Some dists
    /\ hd_error (metadatas results) = Some metas
    /\ retrieved = map format_result (zip3 docs dists metas).
Proof.
  unfold query_similar_chunks, bind.
  destruct (get_or_create_collection C collection_name s)
    as [[collection | e] s1]; [| discriminate].
  destruct (load_embedding_model C s1) as [[model | e] s2]; [| discriminate].
  unfold try_except, query_similar_chunks_try, bind, call, bind, emit,
    logger_error, emit, index0, ret, raise.
  simpl.
  destruct (encode C model [query]) as [embeddings | e]; simpl;
    [| intros H; injection H as <- _; congruence].
  destruct embeddings as [| embedding rest]; simpl;
    [intros H; injection H as <- _; congruence |].
  destruct (collection_query C collection embedding top_k)
    as [results | e] eqn:Hquery; simpl;
    [| intros H; injection H as <- _; congruence].
  destruct (documents results) as [| docs ?] eqn:Hdocs; simpl;
    [intros H; injection H as <- _; congruence |].
  destruct (distances results) as [| dists ?] eqn:Hdists; simpl;
    [intros H; injection H as <- _; congruence |].
  destruct (metadatas results) as [| metas ?] eqn:Hmetas; simpl;
    [intros H; injection H as <- _; congruence |].
  intros H _. injection H as <- _.
  exists collection, embedding, results, docs, dists, metas.
  rewrite Hdocs, Hdists, Hmetas. auto.
Qed.

(** The item at rank [i] carries [1.0 - dist] for the distance at rank
    [i]. *)
Lemma score_at_rank docs dists metas (i : nat) item dist :
  map format_result (zip3 docs dists metas) !! i = Some item ->
  dists !! i = Some dist ->
  score item = (1 - dist)%float.
Proof.
  revert dists metas i. induction docs as [| doc docs IH];
    intros dists metas i; [discriminate |].
  destruct dists as [| d dists]; [discriminate |].
  destruct metas as [| m metas]; [discriminate |].
  destruct i as [| i]; simpl.
  - intros H1 H2. injection H1 as <-. injection H2 as <-. reflexivity.
  - apply IH.
Qed.

(** A ranking by ascending distance is a ranking by descending
    similarity: when the collaborator's distances do not decrease along the
    ranks, the scores of the retrieved items do not increase. *)
Lemma retrieved_scores_descending docs dists metas :
  (forall (i j : nat) da db,
     (i <= j)%nat -> dists !! i = Some da -> dists !! j = Some db ->
     (da <=? db)%float = true) ->
  forall (i j : nat) a b,
    (i <= j)%nat ->
    map format_result (zip3 docs dists metas) !! i = Some a ->
    map format_result (zip3 docs dists metas) !! j = Some b ->
    (score b <=? score a)%float = true.
Proof.
  intros Hsorted i j a b Hij Ha Hb.
  assert (Hdist : forall (k : nat) item,
             map format_result (zip3 docs dists metas) !! k = Some item ->
             exists d, dists !! k = Some d).
  { clear. revert dists metas. induction docs as [| doc docs IH];
      intros dists metas k item; [discriminate |].
    destruct dists as [| d dists]; [discriminate |].
    destruct metas as [| m metas]; [discriminate |].
    destruct k as [| k]; simpl; [eauto | apply IH]. }
  destruct (Hdist i a Ha) as [da Hda]. destruct (Hdist j b Hb) as [db Hdb].
  rewrite (score_at_rank _ _ _ _ _ _ Ha Hda),
          (score_at_rank _ _ _ _ _ _ Hb Hdb).
  apply one_minus_antitone_le. now apply (Hsorted i j).
Qed.

(** C6 as stated fails: the collaborator reports the distances [2^-60] and
    [2^-59]; the first is smaller, and both similarities are 1.0. *)
Lemma similarity_strict_counterexample :
  exists a b,
    fst (query_similar_chunks
           (Demo.world Demo.ok_collection Demo.ok_embeddings
                       (Return Demo.close) Demo.ok_generated)
           Demo.question 5 COLLECTION_NAME Demo.fresh)
    = Return [a; b]
    /\ (0x1p-60 <? 0x1p-59)%float = true
    /\ score a = (1 - 0x1p-60)%float
    /\ score b = (1 - 0x1p-59)%float
    /\ score a = 1%float
    /\ score b = 1%float
    /\ (score b <? score a)%float = false.
Proof.
  eexists. eexists. split; [vm_compute; reflexivity |].
  repeat split; vm_compute; reflexivity.
Qed.

(** C6, amended. Each retrieved chunk's similarity is the binary64
    difference [1.0 - distance] of the distance the vector-search
    collaborator reports at the same rank; for two results of the query,
    [distance_a < distance_b] implies [similarity_a >= similarity_b]
    (distances closer than the rounding step give equal similarities). *)
Theorem similarity_is_one_minus_distance
    C question top_k collection_name s retrieved s' :
  query_similar_chunks C question top_k collection_name s
    = (Return retrieved, s') ->
  retrieved <> [] ->
  exists collection embedding results docs dists metas,
    collection_query C collection embedding top_k = Return results
    /\ hd_error (documents results) = Some docs
    /\ hd_error (distances results) = Some dists
    /\ hd_error (metadatas results) = Some metas
    /\ length retrieved
       = Nat.min (length docs) (Nat.min (length dists) (length metas))
    /\ forall (i j : nat) a b da db,
         retrieved !! i = Some a -> retrieved !! j = Some b ->
         dists !! i = Some da -> dists !! j = Some db ->
         score a = (1 - da)%float
         /\ score b = (1 - db)%float
         /\ ((da <? db)%float = true -> (score b <=? score a)%float = true).
Proof.
  intros Hq Hne.
  destruct (query_similar_chunks_results C question top_k collection_name s
              retrieved s' Hq Hne)
    as [collection [embedding [results [docs [dists [metas
         [Hquery [Hdocs [Hdists [Hmetas Hret]]]]]]]]]].
  exists collection, embedding, results, docs, dists, metas.
  repeat (split; [assumption |]).
  split.
  - rewrite Hret, length_map. clear.
    revert dists metas. induction docs as [| doc docs IH]; intros dists metas;
      [reflexivity |].
    destruct dists as [| d dists]; [reflexivity |].
    destruct metas as [| m metas]; [reflexivity |].
    simpl. now rewrite IH.
  - intros i j a b da db Ha Hb Hda Hdb. rewrite Hret in Ha, Hb.
    assert (Sa : score a = (1 - da)%float)
      by (eapply score_at_rank; eauto).
    assert (Sb : score b = (1 - db)%float)
      by (eapply score_at_rank; eauto).
    repeat split; [exact Sa | exact Sb |].
    intros Hlt. rewrite Sa, Sb. now apply one_minus_antitone.
Qed.

Lemma similarity_is_one_minus_distance_witness :
  exists a b,
    fst (query_similar_chunks
           (Demo.world Demo.ok_collection Demo.ok_embeddings
                       (Return Demo.two) Demo.ok_generated)
           Demo.question 5 COLLECTION_NAME Demo.fresh)
    = Return [a; b]
    /\ score a = (1 - 0.25)%float
    /\ score b = (1 - 0.5)%float
    /\ (score b <=? score a)%float = true.
Proof.
  match goal with
  | |- exists a b, fst (query_similar_chunks ?C ?q ?k ?cn ?s) = _ /\ _ =>
      pose (l := [ format_result ("Paris is the capital."%string,
                                  0.25%float, Demo.doc1_meta);
                   format_result ("Lyon is a city."%string,
                                  0.5%float, Demo.doc1_meta) ]);
      destruct (similarity_is_one_minus_distance C q k cn s l
                  (snd (query_similar_chunks C q k cn s)))
        as [collection [embedding [results [docs [dists [metas
             [Hquery [_ [Hdists [_ [_ Hscores]]]]]]]]]]];
        [ vm_compute; reflexivity | discriminate | ]
  end.
  injection Hquery as <-. injection Hdists as <-.
  destruct (Hscores 0%nat 1%nat (format_result ("Paris is the capital."%string,
                                   0.25%float, Demo.doc1_meta))
                    (format_result ("Lyon is a city."%string,
                                    0.5%float, Demo.doc1_meta))
                    0.25%float 0.5%float eq_refl eq_refl eq_refl eq_refl)
    as [Sa [Sb Hle]].
  eexists. eexists. split; [vm_compute; reflexivity |].
  split; [exact Sa | split; [exact Sb |]].
  apply Hle. vm_compute. reflexivity.
Defined.

Section Steady.

Variable I : state -> Prop.
Variable P : event -> Prop.

Lemma steady_ret {A} (a : A) : steady I P (ret a).
Proof.
  intros s H. split; [exact H |]. exists []. simpl. rewrite app_nil_r. auto.
Qed.

Lemma steady_raise {A} (e : exn) : steady I P (@raise A e).
Proof.
  intros s H. split; [exact H |]. exists []. simpl. rewrite app_nil_r. auto.
Qed.

Lemma steady_bind {A B} (m : M A) (k : A -> M B) :
  steady I P m -> (forall a, steady I P (k a)) -> steady I P (bind m k).
Proof.
  intros Hm Hk s H. unfold bind.
  destruct (Hm s H) as [I1 [evs1 [E1 F1]]].
  destruct (m s) as [[a | e] s1]; simpl in *.
  - destruct (Hk a s1 I1) as [I2 [evs2 [E2 F2]]].
    split; [exact I2 |].
    exists (evs1 ++ evs2). rewrite E2, E1, app_assoc.
    split; [reflexivity | apply Forall_app; auto].
  - split; [exact I1 |]. exists evs1. auto.
Qed.

Lemma steady_try_except {A} (body : M A) (handler : exn -> M A) :
  steady I P body -> (forall e, steady I P (handler e)) ->
  steady I P (try_except body handler).
Proof.
  intros Hb Hh s H. unfold try_except.
  destruct (Hb s H) as [I1 [evs1 [E1 F1]]].
  destruct (body s) as [[a | e] s1]; simpl in *.
  - split; [exact I1 |]. exists evs1. auto.
  - destruct (Hh e s1 I1) as [I2 [evs2 [E2 F2]]].
    split; [exact I2 |].
    exists (evs1 ++ evs2). rewrite E2, E1, app_assoc.
    split; [reflexivity | apply Forall_app; auto].
Qed.

Lemma steady_index0 {A} (l : list A) : steady I P (index0 l).
Proof. destruct l; [apply steady_raise | apply steady_ret]. Qed.

(** [I] does not look at the trace. *)
Hypothesis I_trace : forall t s, I s -> I (set_trace t s).

Lemma steady_emit ev : P ev -> steady I P (emit ev).
Proof.
  intros HP s H. split; [now apply I_trace |]. exists [ev]. simpl. auto.
Qed.

Lemma steady_call {A} ev (o : outcome A) : P ev -> steady I P (call ev o).
Proof.
  intros HP. unfold call. apply steady_bind; [now apply steady_emit |].
  intros _ s H. split; [exact H |]. exists []. simpl. rewrite app_nil_r. auto.
Qed.

End Steady.

Ltac steady_step HI :=
  first [ apply steady_call; [exact HI | try reflexivity]
        | apply steady_emit; [exact HI | try reflexivity]
        | apply steady_ret | apply steady_raise | apply steady_index0
        | apply steady_try_except; [| intros ?]
        | apply steady_bind; [| intros ?] ].

(** ** The cache of [load_llm] *)

Lemma cache_lookup_None name cache :
  cache_lookup name cache = None <-> ~ In name (map fst cache).
Proof.
  induction cache as [| [k v] rest IH]; simpl; [tauto |].
  destruct (String.eqb_spec k name) as [-> | Hne].
  - split; [discriminate | intros H; exfalso; auto].
  - rewrite IH. split; [intros H [? | ?]; auto | auto].
Qed.

Lemma cache_remove_notin name cache :
  ~ In name (map fst (cache_remove name cache)).
Proof.
  unfold cache_remove. rewrite in_map_iff. intros [[k v] [E H]].
  simpl in E. subst k. apply List.filter_In in H. destruct H as [_ H].
  simpl in H. now rewrite String.eqb_refl in H.
Qed.

Lemma cache_remove_id name cache :
  ~ In name (map fst cache) -> cache_remove name cache = cache.
Proof.
  induction cache as [| [k v] rest IH]; simpl; [reflexivity |].
  intros H. destruct (String.eqb_spec k name) as [-> | Hne]; simpl.
  - exfalso. auto.
  - f_equal. apply IH. auto.
Qed.

Lemma cache_remove_NoDup name cache :
  NoDup (map fst cache) -> NoDup (map fst (cache_remove name cache)).
Proof.
  induction cache as [| [k v] rest IH]; simpl; [auto |].
  intros H. inversion H as [| k' l' Hk Hr]; subst.
  destruct (negb (k =? name)%string); simpl; [| auto].
  constructor; [| auto].
  rewrite list_elem_of_In in *. intros Hin. apply Hk.
  apply in_map_iff in Hin. destruct Hin as [kv [E Hin]].
  apply List.filter_In in Hin. apply in_map_iff. exists kv. tauto.
Qed.

Lemma cache_remove_length name cache :
  In name (map fst cache) ->
  (length (cache_remove name cache) < length cache)%nat.
Proof.
  induction cache as [| [k v] rest IH]; simpl; [tauto |].
  destruct (String.eqb_spec k name) as [-> | Hne]; simpl.
  - intros _. unfold cache_remove.
    pose proof (List.filter_length_le
                  (fun kv : string * pyobj => negb (fst kv =? name)%string)
                  rest). lia.
  - intros [? | H]; [congruence |]. apply IH in H. lia.
Qed.

Lemma steady_load_llm_uncached (I : state -> Prop) (P : event -> Prop)
    C name :
  (forall t s, I s -> I (set_trace t s)) ->
  (forall ev, is_generation_call ev = true -> P ev) ->
  (forall msg, P (LogInfo msg)) -> (forall msg, P (LogError msg)) ->
  steady I P (load_llm_uncached C name).
Proof.
  intros HI Hg Hi He. unfold load_llm_uncached, logger_info, logger_error.
  repeat first [ apply steady_call; [exact HI | now apply Hg]
               | apply steady_emit; [exact HI | auto]
               | steady_step HI ].
Qed.

(** [answer_question] keeps what every step of it keeps. *)
Section SteadyAnswer.

Variable C : Collaborators.
Variable I : state -> Prop.
Variable P : event -> Prop.
Variables question collection_name model_name : string.
Variable top_k : Z.

Hypothesis I_trace : forall t s, I s -> I (set_trace t s).
Hypothesis P_answering : forall ev, answering_event question ev -> P ev.
Hypothesis steady_embedding : steady I P (load_embedding_model C).
Hypothesis steady_llm : steady I P (load_llm C model_name).

Lemma steady_get_or_create_collection :
  steady I P (get_or_create_collection C collection_name).
Proof.
  unfold get_or_create_collection, get_chroma_client, logger_error.
  repeat first [ apply steady_call; [exact I_trace | now apply P_answering]
               | apply steady_emit; [exact I_trace | now apply P_answering]
               | steady_step I_trace ].
Qed.

Lemma steady_query_similar_chunks :
  steady I P (query_similar_chunks C question top_k collection_name).
Proof.
  unfold query_similar_chunks, query_similar_chunks_try, logger_error.
  apply steady_bind; [apply steady_get_or_create_collection | intros c].
  apply steady_bind; [apply steady_embedding | intros m].
  repeat first [ apply steady_call; [exact I_trace | now apply P_answering]
               | apply steady_emit; [exact I_trace | now apply P_answering]
               | steady_step I_trace ].
Qed.

Lemma steady_getitem (d : pydict) key : steady I P (getitem d key).
Proof.
  unfold getitem. destruct (d !! key); [apply steady_ret | apply steady_raise].
Qed.

Lemma steady_strip v : steady I P (strip v).
Proof. destruct v; first [apply steady_ret | apply steady_raise]. Qed.

Lemma steady_generate_answer context max_new_tokens :
  steady I P (generate_answer C question context model_name max_new_tokens).
Proof.
  unfold generate_answer, generate_answer_try, logger_error.
  apply steady_try_except.
  - apply steady_bind; [apply steady_llm | intros pipe].
    repeat first [ apply steady_getitem | apply steady_strip
                 | apply steady_call; [exact I_trace | now apply P_answering]
                 | steady_step I_trace ].
  - intros e.
    repeat first [ apply steady_emit; [exact I_trace | now apply P_answering]
                 | steady_step I_trace ].
Qed.

Lemma steady_answer_question :
  steady I P (answer_question C question top_k collection_name model_name).
Proof.
  unfold answer_question, logger_error.
  apply steady_try_except.
  - apply steady_bind; [apply steady_query_similar_chunks | intros retrieved].
    destruct retrieved; [apply steady_ret |].
    apply steady_bind; [apply steady_generate_answer | intros a].
    apply steady_ret.
  - intros e.
    repeat first [ apply steady_emit; [exact I_trace | now apply P_answering]
                 | steady_step I_trace ].
Qed.

End SteadyAnswer.

Lemma steady_load_llm_gen (I : state -> Prop) (P : event -> Prop) C name :
  (forall t s, I s -> I (set_trace t s)) ->
  (forall c s, I s -> I (set_llm_cache c s)) ->
  (forall ev, is_generation_call ev = true -> P ev) ->
  (forall msg, P (LogInfo msg)) -> (forall msg, P (LogError msg)) ->
  steady I P (load_llm C name).
Proof.
  intros HI Hc Hg Hi He s H. unfold load_llm.
  destruct (cache_lookup name (llm_cache s)) as [pipe |].
  - split; [now apply Hc |]. exists []. simpl. rewrite app_nil_r. auto.
  - destruct (steady_load_llm_uncached I P C name HI Hg Hi He s H)
      as [H1 [evs [E F]]].
    destruct (load_llm_uncached C name s) as [[pipe | e] s1]; simpl in *.
    + split; [now apply Hc |]. now exists evs.
    + split; [exact H1 |]. now exists evs.
Qed.

Lemma steady_load_embedding_model_gen (I : state -> Prop) (P : event -> Prop)
    C :
  (forall t s, I s -> I (set_trace t s)) ->
  (forall c s, I s -> I (set_embedding_model_cache c s)) ->
  (forall name, P (Call_SentenceTransformer name)) ->
  (forall msg, P (LogInfo msg)) -> (forall msg, P (LogError msg)) ->
  steady I P (load_embedding_model C).
Proof.
  intros HI Hc Hs Hi He s H. unfold load_embedding_model.
  destruct (embedding_model_cache s).
  - split; [exact H |]. exists []. simpl. rewrite app_nil_r. auto.
  - assert (Hu : steady I P (load_embedding_model_uncached C)).
    { unfold load_embedding_model_uncached, logger_info, logger_error.
      repeat first [ apply steady_call; [exact HI | auto]
                   | apply steady_emit; [exact HI | auto]
                   | steady_step HI ]. }
    destruct (Hu s H) as [H1 [evs [E F]]].
    destruct (load_embedding_model_uncached C s) as [[m | e] s1]; simpl in *.
    + split; [now apply Hc |]. now exists evs.
    + split; [exact H1 |]. now exists evs.
Qed.

(** What [load_llm] adds to the trace is what its body adds, and its body
    leaves the cache alone. *)
Lemma load_llm_miss C name s :
  cache_lookup name (llm_cache s) = None ->
  exists o s1 evs,
    load_llm_uncached C name s = (o, s1)
    /\ llm_cache s1 = llm_cache s
    /\ embedding_model_cache s1 = embedding_model_cache s
    /\ trace s1 = trace s ++ evs
    /\ Forall (fun ev => is_generation_call ev = true
                         \/ (exists msg, ev = LogInfo msg)
                         \/ (exists msg, ev = LogError msg)) evs.
Proof.
  intros _.
  destruct (steady_load_llm_uncached
              (fun s' => llm_cache s' = llm_cache s
                         /\ embedding_model_cache s'
                            = embedding_model_cache s)
              (fun ev => is_generation_call ev = true
                         \/ (exists msg, ev = LogInfo msg)
                         \/ (exists msg, ev = LogError msg))
              C name) with (s := s) as [[Hc He] [evs [E F]]]; eauto.
  destruct (load_llm_uncached C name s) as [o s1]. simpl in *.
  now exists o, s1, evs.
Qed.

Lemma steady_load_llm (P : event -> Prop) C name :
  (forall ev, is_generation_call ev = true -> P ev) ->
  (forall msg, P (LogInfo msg)) -> (forall msg, P (LogError msg)) ->
  steady (fun _ => True) P (load_llm C name).
Proof.
  intros Hg Hi He s _. split; [exact Logic.I |]. unfold load_llm.
  destruct (cache_lookup name (llm_cache s)) as [pipe |] eqn:L.
  - exists []. simpl. rewrite app_nil_r. auto.
  - destruct (load_llm_miss C name s L) as [o [s1 [evs [E [_ [_ [T F]]]]]]].
    rewrite E. exists evs. split.
    + destruct o; simpl; exact T.
    + eapply List.Forall_impl; [| exact F]. simpl.
      intros ev [H | [[msg ->] | [msg ->]]]; auto.
Qed.

(** ** The caches *)

(** X1. A call of [load_llm] that returned is remembered: the next call with
    the same model name returns the same pipeline and changes nothing, in
    particular it loads nothing. *)
Theorem load_llm_cached C model_name s pipe s1 :
  load_llm C model_name s = (Return pipe, s1) ->
  load_llm C model_name s1 = (Return pipe, s1).
Proof.
  unfold load_llm at 1.
  destruct (cache_lookup model_name (llm_cache s)) as [p |] eqn:L.
  - intros H. injection H as -> <-. unfold load_llm. simpl.
    rewrite String.eqb_refl.
    rewrite (cache_remove_id model_name
               (cache_remove model_name (llm_cache s)))
      by apply cache_remove_notin.
    reflexivity.
  - destruct (load_llm_miss C model_name s L)
      as [o [s' [evs [E [Hc _]]]]].
    rewrite E. destruct o as [p | e]; [| discriminate].
    intros H. injection H as -> <-. unfold load_llm. simpl.
    rewrite String.eqb_refl. rewrite Hc.
    apply cache_lookup_None in L.
    destruct (llm_cache s) as [| [k v] rest] eqn:Ec; simpl in *.
    + destruct s'. simpl in *. now subst.
    + destruct (String.eqb_spec k model_name) as [-> | Hne]; [tauto |].
      simpl. destruct s'. simpl in *. now subst.
Qed.

Lemma load_llm_cached_witness :
  exists s1,
    load_llm (Demo.world Demo.ok_collection Demo.ok_embeddings
                         (Return Demo.paris) Demo.ok_generated)
             DEFAULT_MODEL Demo.fresh = (Return (PyObj 3), s1)
    /\ load_llm (Demo.world Demo.ok_collection Demo.ok_embeddings
                            (Return Demo.paris) Demo.ok_generated)
                DEFAULT_MODEL s1 = (Return (PyObj 3), s1).
Proof.
  eexists. split; [vm_compute; reflexivity |].
  apply (load_llm_cached _ _ Demo.fresh). vm_compute. reflexivity.
Defined.

Lemma llm_cache_ok_trace t s : llm_cache_ok s -> llm_cache_ok (set_trace t s).
Proof. auto. Qed.

Lemma llm_cache_ok_load_llm C name :
  steady llm_cache_ok (fun _ => True) (load_llm C name).
Proof.
  intros s [Hnd Hlen].
  split; [| now apply (steady_load_llm (fun _ => True))].
  unfold load_llm.
  destruct (cache_lookup name (llm_cache s)) as [pipe |] eqn:L.
  - split; simpl.
    + constructor.
      * rewrite list_elem_of_In. apply cache_remove_notin.
      * now apply cache_remove_NoDup.
    + assert (Hin : In name (map fst (llm_cache s))).
      { destruct (in_dec string_dec name (map fst (llm_cache s))) as [H | H];
          [exact H |].
        apply cache_lookup_None in H. congruence. }
      apply cache_remove_length in Hin. lia.
  - destruct (load_llm_miss C name s L) as [o [s1 [evs [E [Hc _]]]]].
    rewrite E. destruct o as [pipe | e]; simpl.
    + rewrite Hc. apply cache_lookup_None in L. split.
      * destruct (llm_cache s) as [| [k v] rest]; simpl in *.
        -- repeat constructor. rewrite list_elem_of_In. simpl. tauto.
        -- constructor.
           ++ rewrite list_elem_of_In. simpl. tauto.
           ++ repeat constructor. rewrite list_elem_of_In. simpl. tauto.
      * destruct (llm_cache s) as [| kv rest]; simpl; lia.
    + unfold llm_cache_ok. now rewrite Hc.
Qed.

Lemma llm_cache_ok_load_embedding_model C :
  steady llm_cache_ok (fun _ => True) (load_embedding_model C).
Proof.
  intros s H. split.
  - unfold load_embedding_model.
    destruct (embedding_model_cache s); [exact H |].
    assert (Hs : steady llm_cache_ok (fun _ => True)
                        (load_embedding_model_uncached C)).
    { unfold load_embedding_model_uncached, logger_info, logger_error.
      repeat steady_step llm_cache_ok_trace; exact Logic.I. }
    destruct (Hs s H) as [H1 _].
    destruct (load_embedding_model_uncached C s) as [[m | e] s1]; exact H1.
  - destruct (adds_load_embedding_model C s) as [evs [E _]].
    exists evs. split; [exact E |]. apply Forall_forall. auto.
Qed.

(** X2. [answer_question] keeps the cache of language models within its
    bound: if it holds at most two pipelines, under different model names,
    before the call, so it does after it, whatever the call loads. *)
Theorem llm_cache_stays_bounded
    C question top_k collection_name model_name s :
  llm_cache_ok s ->
  llm_cache_ok
    (snd (answer_question C question top_k collection_name model_name s)).
Proof.
  intros H.
  apply (steady_answer_question C llm_cache_ok (fun _ => True) question
           collection_name model_name top_k); auto.
  - apply llm_cache_ok_load_embedding_model.
  - apply llm_cache_ok_load_llm.
Qed.

Lemma llm_cache_stays_bounded_witness :
  llm_cache_ok
    (snd (answer_question
            (Demo.world Demo.ok_collection Demo.ok_embeddings
                        (Return Demo.paris) Demo.ok_generated)
            Demo.question 5 COLLECTION_NAME DEFAULT_MODEL Demo.fresh)).
Proof.
  apply llm_cache_stays_bounded. split; [constructor | simpl; lia].
Defined.

(** X3. A load that fails is not remembered: when [load_llm] raises, the
    cache is as before and holds nothing under that model name, so the next
    call loads again; the failure was logged last, with the exception's
    message. *)
Theorem load_llm_failure_not_cached C model_name s e s1 :
  load_llm C model_name s = (Raise e, s1) ->
  llm_cache s1 = llm_cache s
  /\ cache_lookup model_name (llm_cache s1) = None
  /\ exists evs,
       trace s1
       = trace s ++ evs
         ++ [LogError ("Failed to load LLM " ++ model_name ++ ": "
                       ++ str_exn e)].
Proof.
  unfold load_llm.
  destruct (cache_lookup model_name (llm_cache s)) as [p |] eqn:L;
    [discriminate |].
  destruct (load_llm_miss C model_name s L) as [o [s' [evs [E [Hc _]]]]].
  rewrite E. destruct o as [p | e']; [discriminate |].
  intros H. injection H as -> ->.
  split; [exact Hc | split; [now rewrite Hc |]].
  clear Hc. revert E. unfold load_llm_uncached, try_except, bind, call, bind,
    logger_info, logger_error, emit, ret, raise. simpl.
  destruct (AutoTokenizer_from_pretrained C model_name) as [tok | e1]; simpl.
  - destruct (AutoModelForSeq2SeqLM_from_pretrained C model_name)
      as [mdl | e2]; simpl.
    + destruct (pipeline C mdl tok (if cuda_is_available C then 0 else -1))
        as [pp | e3]; simpl; [discriminate |].
      intros H. injection H as <- <-. simpl.
      eexists. rewrite (app_assoc (trace s)). f_equal.
      rewrite <- !app_assoc. reflexivity.
    + intros H. injection H as <- <-. simpl.
      eexists. rewrite (app_assoc (trace s)). f_equal.
      rewrite <- !app_assoc. reflexivity.
  - intros H. injection H as <- <-. simpl.
    eexists. rewrite (app_assoc (trace s)). f_equal.
      rewrite <- !app_assoc. reflexivity.
Qed.

Lemma load_llm_failure_not_cached_witness :
  cache_lookup DEFAULT_MODEL
    (llm_cache
       (snd (load_llm
               {| AutoTokenizer_from_pretrained :=
                    fun _ => Raise (Exception "no such model");
                  AutoModelForSeq2SeqLM_from_pretrained :=
                    fun _ => Return (PyObj 2);
                  cuda_is_available := false;
                  pipeline := fun _ _ _ => Return (PyObj 3);
                  pipe_call := fun _ _ _ => Return [];
                  SentenceTransformer := fun _ => Return (PyObj 4);
                  encode := fun _ _ => Return [];
                  chromadb_Client := fun _ => Return (PyObj 5);
                  client_get_or_create_collection :=
                    fun _ _ => Return (PyObj 6);
                  collection_query := fun _ _ _ => Return Demo.nothing;
                  collection_add := fun _ _ _ _ _ => Return tt |}
               DEFAULT_MODEL Demo.fresh))) = None.
Proof.
  match goal with
  | |- cache_lookup _ (llm_cache (snd (load_llm ?C ?n ?s))) = None =>
      destruct (load_llm_failure_not_cached C n s
                  (Exception "no such model") (snd (load_llm C n s)))
        as [_ [H _]]; [vm_compute; reflexivity | exact H]
  end.
Defined.

(** X4. Models are loaded once: when the embedding model and the language
    model asked for are in their caches, [answer_question] constructs
    neither again.  The events it adds are log lines, the client and the
    collection being obtained, the embedding of the question alone, the
    vector search and the generation call; both models stay cached. *)
Theorem warm_answer_question_loads_nothing
    C question top_k collection_name model_name s :
  warm model_name s ->
  warm model_name
    (snd (answer_question C question top_k collection_name model_name s))
  /\ exists evs,
       trace (snd (answer_question C question top_k collection_name
                                   model_name s))
       = trace s ++ evs
       /\ Forall (fun ev => is_load_call ev = false) evs.
Proof.
  intros H.
  apply (steady_answer_question C (warm model_name)
           (fun ev => is_load_call ev = false) question
           collection_name model_name top_k); auto.
  - intros [] Hev; simpl in *; tauto.
  - intros s0 [Hm Hl]. unfold load_embedding_model.
    destruct (embedding_model_cache s0) as [m |] eqn:Em; [| congruence].
    split; [split; [simpl; congruence | exact Hl] |].
    exists []. simpl. rewrite app_nil_r. auto.
  - intros s0 [Hm Hl]. unfold load_llm.
    destruct (cache_lookup model_name (llm_cache s0)) as [p |] eqn:L;
      [| congruence].
    split.
    + split; [exact Hm |]. simpl. rewrite String.eqb_refl. discriminate.
    + exists []. simpl. rewrite app_nil_r. auto.
Qed.

Lemma warm_answer_question_loads_nothing_witness :
  exists s1,
    s1 = snd (answer_question
                (Demo.world Demo.ok_collection Demo.ok_embeddings
                            (Return Demo.paris) Demo.ok_generated)
                Demo.question 5 COLLECTION_NAME DEFAULT_MODEL Demo.fresh)
    /\ warm DEFAULT_MODEL s1
    /\ exists evs,
         trace (snd (answer_question
                       (Demo.world Demo.ok_collection Demo.ok_embeddings
                                   (Return Demo.paris) Demo.ok_generated)
                       Demo.question 5 COLLECTION_NAME DEFAULT_MODEL s1))
         = trace s1 ++ evs
         /\ Forall (fun ev => is_load_call ev = false) evs.
Proof.
  eexists. split; [reflexivity |].
  assert (W : warm DEFAULT_MODEL
                (snd (answer_question
                        (Demo.world Demo.ok_collection Demo.ok_embeddings
                                    (Return Demo.paris) Demo.ok_generated)
                        Demo.question 5 COLLECTION_NAME DEFAULT_MODEL
                        Demo.fresh))).
  { split; vm_compute; discriminate. }
  split; [exact W |].
  apply (warm_answer_question_loads_nothing _ _ _ _ _ _ W).
Defined.

(** ** What [generate_answer] returns *)

Lemma list_ascii_of_string_app (s1 s2 : string) :
  list_ascii_of_string (s1 ++ s2)
  = list_ascii_of_string s1 ++ list_ascii_of_string s2.
Proof. induction s1 as [| c s1 IH]; simpl; [reflexivity | now rewrite IH]. Qed.





(** ** Every result of [answer_question] *)

(** X8. Whatever path a call of [answer_question] takes, its result hangs
    together: there is one source per retrieved chunk, built from that
    chunk, the confidence is the mean score of the chunks, an error is
    reported exactly when no chunk is, and an answer comes with chunks. *)
Theorem answer_question_result_consistent
    C question top_k collection_name model_name s :
  exists r s',
    answer_question C question top_k collection_name model_name s
      = (Return r, s')
    /\ sources r = map format_source (chunks r)
    /\ confidence r = mean_score (map score (chunks r))
    /\ (error r <> None <-> chunks r = [])
    /\ (answer r <> None -> chunks r <> []).
Proof.
  destruct (answer_question_run C question collection_name model_name top_k s)
    as [r [s' [E R]]].
  exists r, s'. split; [exact E |].
  destruct R as [s1 Hq | retrieved s1 a s2 Hq Hne Hg | e s1 Hq]; simpl.
  - repeat split; auto; congruence.
  - repeat split; auto; congruence.
  - repeat split; auto; congruence.
Qed.

(** X9. Answering a question reads the store and never writes to it:
    [answer_question] makes no [collection.add] call, the only text it
    embeds is the question, and the stored vectors are as before. *)
Theorem answer_question_read_only
    C question top_k collection_name model_name s :
  collections
    (snd (answer_question C question top_k collection_name model_name s))
  = collections s
  /\ exists evs,
       trace (snd (answer_question C question top_k collection_name
                                   model_name s))
       = trace s ++ evs
       /\ Forall (fun ev =>
                    match ev with
                    | Call_collection_add _ _ _ _ _ => False
                    | Call_encode _ texts => texts = [question]
                    | _ => True
                    end) evs.
Proof.
  apply (steady_answer_question C
           (fun s' => collections s' = collections s)
           (fun ev =>
              match ev with
              | Call_collection_add _ _ _ _ _ => False
              | Call_encode _ texts => texts = [question]
              | _ => True
              end)
           question collection_name model_name top_k); auto.
  - intros [] H; simpl in *; auto.
  - apply steady_load_embedding_model_gen; auto.
  - apply steady_load_llm_gen; auto.
    intros [] H; simpl in *; auto; discriminate.
Qed.

(** ** Indexing *)

(** The decimal digits of a number hold no underscore. *)
Lemma string_of_uint_no_underscore d x y :
  NilEmpty.string_of_uint d <> (x ++ String "_" y)%string.
Proof.
  revert x. induction d; intros x H; destruct x as [| c x]; simpl in H;
    try discriminate; injection H as _ H; now apply IHd in H.
Qed.

Lemma chunk_id_split (s s' d d' : string) :
  (forall x y, d <> x ++ String "_" y)%string ->
  (forall x y, d' <> x ++ String "_" y)%string ->
  (s ++ "_" ++ d = s' ++ "_" ++ d')%string -> s = s' /\ d = d'.
Proof.
  intros Hd Hd'. revert s'.
  induction s as [| c s IH]; intros [| c' s']; simpl; intros H.
  - injection H as H. auto.
  - injection H as _ H. exfalso. now apply (Hd s' d').
  - injection H as _ H. exfalso. symmetry in H. now apply (Hd' s d).
  - injection H as -> H. apply IH in H. destruct H as [-> ->]. auto.
Qed.

(** X10. The ids [store_embeddings] writes under identify the chunk: two
    chunks get the same id only when they come from a document of the same
    name and have the same index.  (The index is written in decimal digits,
    so the last underscore of an id is the one before the index, also when
    the name of the document has underscores or digits of its own.) *)
Theorem chunk_id_identifies_chunk source_pdf source_pdf' (i j : nat) :
  chunk_id source_pdf i = chunk_id source_pdf' j <->
  source_pdf = source_pdf' /\ i = j.
Proof.
  split; [| now intros [-> ->]].
  unfold chunk_id. intros H.
  apply chunk_id_split in H;
    [| unfold str_nat; apply string_of_uint_no_underscore ..].
  destruct H as [-> H]. split; [reflexivity |].
  now apply str_nat_inj.
Qed.

(** X11. A call of [store_embeddings] that returns made one write: a single
    [collection.add] with the embeddings and the chunks as given, one id and
    one metadata per chunk, the ids all different, the [i]-th being
    "{source_pdf}_{i}" and the [i]-th metadata naming [source_pdf] and
    [i]. *)
Theorem store_embeddings_add_call
    C embeddings chunks source_pdf collection_name s s' :
  store_embeddings C embeddings chunks source_pdf collection_name s
    = (Return tt, s') ->
  exists client collection ids metadatas,
    trace s'
    = trace s
      ++ [ Call_chromadb_Client CHROMA_DB_DIR;
           Call_get_or_create_collection client collection_name;
           Call_collection_add collection embeddings chunks ids metadatas;
           LogInfo ("Stored " ++ str_len chunks ++ " embeddings for "
                    ++ source_pdf ++ " in " ++ collection_name) ]
    /\ length ids = length chunks
    /\ length metadatas = length chunks
    /\ NoDup ids
    /\ forall i, (i < length chunks)%nat ->
         ids !! i = Some (chunk_id source_pdf i)
         /\ exists m,
              metadatas !! i = Some m
              /\ m !! "source_pdf" = Some (PyStr source_pdf)
              /\ m !! "chunk_index" = Some (PyInt (Z.of_nat i)).
Proof.
  unfold store_embeddings, get_or_create_collection, get_chroma_client,
    add, try_except, bind, call, emit, bind, logger_info, logger_error, emit,
    raise.
  simpl.
  destruct (chromadb_Client C CHROMA_DB_DIR) as [client | e]; simpl;
    [| discriminate].
  destruct (client_get_or_create_collection C client collection_name)
    as [collection | e]; simpl; [| discriminate].
  destruct (collection_add C collection embeddings chunks _ _) as [[] | e];
    simpl; [| discriminate].
  intros H. injection H as <-.
  exists client, collection,
    (map (chunk_id source_pdf) (seq 0 (length chunks))),
    (map (chunk_metadata source_pdf) (seq 0 (length chunks))).
  split; [simpl; now rewrite <- !app_assoc |].
  split; [now rewrite length_map, length_seq |].
  split; [now rewrite length_map, length_seq |].
  split; [apply NoDup_chunk_ids |].
  intros i Hi.
  assert (Hs : seq 0 (length chunks) !! i = Some i).
  { rewrite lookup_seq. auto. }
  split.
  - now rewrite list_lookup_fmap, Hs.
  - exists (chunk_metadata source_pdf i).
    split; [now rewrite list_lookup_fmap, Hs |].
    unfold chunk_metadata. split.
    + apply lookup_insert_eq.
    + rewrite lookup_insert_ne by discriminate. apply lookup_insert_eq.
Qed.

Lemma store_embeddings_add_call_witness :
  exists s',
    store_embeddings
      (Demo.world Demo.ok_collection Demo.ok_embeddings (Return Demo.paris)
                  Demo.ok_generated)
      [[0.5%float]; [0.25%float]] ["Paris is the capital."; "Lyon is a city."]
      "doc1" COLLECTION_NAME Demo.fresh = (Return tt, s')
    /\ In (Call_collection_add (PyObj 6) [[0.5%float]; [0.25%float]]
             ["Paris is the capital."; "Lyon is a city."]
             ["doc1_0"; "doc1_1"]
             [chunk_metadata "doc1" 0; chunk_metadata "doc1" 1])
          (trace s').
Proof.
  eexists. split; [vm_compute; reflexivity |].
  match goal with
  | |- In _ (trace ?s') =>
      destruct (store_embeddings_add_call
                  (Demo.world Demo.ok_collection Demo.ok_embeddings
                              (Return Demo.paris) Demo.ok_generated)
                  [[0.5%float]; [0.25%float]]
                  ["Paris is the capital."; "Lyon is a city."]
                  "doc1" COLLECTION_NAME Demo.fresh s')
        as [client [collection [ids [metadatas [E _]]]]];
        [ vm_compute; reflexivity | ]
  end.
  vm_compute. auto.
Defined.



(** X13. [embed_chunks] is the encoder: once the embedding model is there,
    it returns what [encode] returns for the chunks as given, and raises
    what [encode] raises, after logging it. *)
Theorem embed_chunks_is_encode C chunks s model s1 :
  load_embedding_model C s = (Return model, s1) ->
  fst (embed_chunks C chunks s) = encode C model chunks
  /\ In (Call_encode model chunks) (trace (snd (embed_chunks C chunks s)))
  /\ forall e,
       encode C model chunks = Raise e ->
       last (trace (snd (embed_chunks C chunks s)))
       = Some (LogError ("Embedding generation failed: " ++ str_exn e)).
Proof.
  intros Hl. unfold embed_chunks, bind. rewrite Hl.
  unfold try_except, call, bind, emit, logger_error, emit, raise. simpl.
  destruct (encode C model chunks) as [v | e0]; simpl.
  - split; [reflexivity |]. split; [| discriminate].
    rewrite in_app_iff. simpl. auto.
  - split; [reflexivity |]. split.
    + rewrite !in_app_iff. simpl. auto.
    + intros e H. injection H as ->. apply last_snoc.
Qed.

Lemma embed_chunks_is_encode_witness :
  fst (embed_chunks
         (Demo.world Demo.ok_collection Demo.ok_embeddings (Return Demo.paris)
                     Demo.ok_generated)
         ["Paris is the capital."] Demo.fresh)
  = Demo.ok_embeddings.
Proof.
  match goal with
  | |- fst (embed_chunks ?C ?cs ?s) = _ =>
      destruct (embed_chunks_is_encode C cs s (PyObj 4)
                  (snd (load_embedding_model C s))) as [H _];
        [ vm_compute; reflexivity | exact H ]
  end.
Defined.

(** How [answer_question] reads the metadata of a row of the query. *)
Lemma format_source_row doc dist (meta : pydict) :
  source_score (format_source (format_result (doc, dist, meta)))
  = (1 - dist)%float
  /\ (forall name (i : nat),
        meta = chunk_metadata name i ->
        source_pdf (format_source (format_result (doc, dist, meta)))
        = PyStr name
        /\ chunk_index (format_source (format_result (doc, dist, meta)))
           = PyInt (Z.of_nat i))
  /\ (meta !! "source_pdf" = None ->
      source_pdf (format_source (format_result (doc, dist, meta)))
      = PyStr "unknown")
  /\ (meta !! "chunk_index" = None ->
      chunk_index (format_source (format_result (doc, dist, meta)))
      = PyInt (-1)).
Proof.
  unfold format_source, format_result, dict_get. cbn [metadata score].
  split; [reflexivity |]. split; [| split].
  - intros name i ->. unfold chunk_metadata.
    rewrite lookup_insert_eq.
    rewrite lookup_insert_ne by discriminate.
    now rewrite lookup_insert_eq.
  - now intros ->.
  - now intros ->.
Qed.

(** X14. What indexing writes as metadata is what answering reports as
    source.  After a non-empty retrieval, the sources of the result are the
    rows of the store's answer to the query, in order: each with the score
    [1.0 - dist]; a row that carries the metadata [store_embeddings] gave
    the [i]-th chunk of the document [name] with that name and that index;
    a row whose metadata has no "source_pdf" with "unknown", and one whose
    metadata has no "chunk_index" with -1. *)
Theorem sources_name_stored_chunks
    C question top_k collection_name model_name s retrieved s1 :
  query_similar_chunks C question top_k collection_name s
    = (Return retrieved, s1) ->
  retrieved <> [] ->
  exists r s' collection embedding results docs dists metas,
    answer_question C question top_k collection_name model_name s
      = (Return r, s')
    /\ collection_query C collection embedding top_k = Return results
    /\ hd_error (documents results) = Some docs
    /\ hd_error (distances results) = Some dists
    /\ hd_error (metadatas results) = Some metas
    /\ Forall2
         (fun (row : string * float * pydict) (src : Source) =>
            source_score src = (1 - snd (fst row))%float
            /\ (forall name (i : nat),
                  snd row = chunk_metadata name i ->
                  source_pdf src = PyStr name
                  /\ chunk_index src = PyInt (Z.of_nat i))
            /\ (snd row !! "source_pdf" = None ->
                source_pdf src = PyStr "unknown")
            /\ (snd row !! "chunk_index" = None ->
                chunk_index src = PyInt (-1)))
         (zip3 docs dists metas) (sources r).
Proof.
  intros Hq Hne.
  destruct (query_similar_chunks_results C question top_k collection_name s
              retrieved s1 Hq Hne)
    as [collection [embedding [results [docs [dists [metas
          [Hc [Hd [Hdi [Hm Hr]]]]]]]]]].
  destruct (generate_answer_returns C question model_name
              (context_of retrieved) 256 s1) as [a [s2 Hg]].
  exists (packaged retrieved a), s2, collection, embedding, results,
    docs, dists, metas.
  split; [now apply answer_question_packaged with (s1 := s1) |].
  repeat (split; [assumption |]).
  cbn [sources packaged]. rewrite Hr. clear.
  induction (zip3 docs dists metas) as [| [[doc dist] meta] rows IH];
    [constructor |].
  constructor; [| exact IH].
  exact (format_source_row doc dist meta).
Qed.

Lemma sources_name_stored_chunks_witness :
  exists r,
    fst (answer_question
           (Demo.world Demo.ok_collection Demo.ok_embeddings
                       (Return Demo.two) Demo.ok_generated)
           Demo.question 5 COLLECTION_NAME DEFAULT_MODEL Demo.fresh)
    = Return r
    /\ sources r
       = [ {| source_pdf := PyStr "doc1"; chunk_index := PyInt 0;
              source_score := 0.75%float |};
           {| source_pdf := PyStr "doc1"; chunk_index := PyInt 0;
              source_score := 0.5%float |} ].
Proof.
  match goal with
  | |- exists r, fst (answer_question ?C ?q ?k ?cn ?mn ?s) = _ /\ _ =>
      destruct (sources_name_stored_chunks C q k cn mn s
                  [ {| chunk := "Paris is the capital.";
                       score := 0.75%float;
                       metadata := Demo.doc1_meta |};
                    {| chunk := "Lyon is a city.";
                       score := 0.5%float;
                       metadata := Demo.doc1_meta |} ]
                  (snd (query_similar_chunks C q k cn s)))
        as [r [s' [collection [embedding [results [docs [dists [metas
              [E [Hc [Hd [Hdi [Hm F]]]]]]]]]]]]]
  end.
  - vm_compute. reflexivity.
  - discriminate.
  - exists r. split; [now rewrite E |].
    cbn [Demo.world collection_query] in Hc. injection Hc as <-.
    cbn [Demo.two documents distances metadatas hd_error] in Hd, Hdi, Hm.
    injection Hd as <-. injection Hdi as <-. injection Hm as <-.
    cbn [zip3] in F.
    destruct (sources r) as [| src1 [| src2 [| src3 rest]]];
      try (exfalso; inversion F as [| ? ? ? ? _ F1]; inversion F1 as [| ? ? ? ? _ F2];
           inversion F2; fail).
    inversion F as [| ? ? ? ? [Hs1 [Hn1 _]] F1]. subst.
    inversion F1 as [| ? ? ? ? [Hs2 [Hn2 _]] _]. subst.
    destruct (Hn1 "doc1" 0%nat eq_refl) as [Hp1 Hi1].
    destruct (Hn2 "doc1" 0%nat eq_refl) as [Hp2 Hi2].
    destruct src1, src2. cbn in *. subst. reflexivity.
Defined.

(** * Properties of the rest of the program *)

(** ** What a computation does to the world *)

Section SteadyW.

Variable I : world -> Prop.
Variable P : effect -> Prop.

Lemma steadyW_ret {A} (a : A) : steadyW I P (retW a).
Proof.
  intros w H. split; [exact H |]. exists []. simpl. rewrite app_nil_r. auto.
Qed.

Lemma steadyW_bind {A B} (m : W A) (k : A -> W B) :
  steadyW I P m -> (forall a, steadyW I P (k a)) -> steadyW I P (bindW m k).
Proof.
  intros Hm Hk w H. unfold bindW.
  destruct (Hm w H) as [I1 [evs1 [E1 F1]]].
  destruct (m w) as [[a | e] w1]; simpl in *.
  - destruct (Hk a w1 I1) as [I2 [evs2 [E2 F2]]].
    split; [exact I2 |].
    exists (evs1 ++ evs2). rewrite E2, E1, app_assoc.
    split; [reflexivity | apply Forall_app; auto].
  - split; [exact I1 |]. exists evs1. auto.
Qed.

Lemma steadyW_try_except {A} (body : W A) (handler : exn -> W A) :
  steadyW I P body -> (forall e, steadyW I P (handler e)) ->
  steadyW I P (try_exceptW body handler).
Proof.
  intros Hb Hh w H. unfold try_exceptW.
  destruct (Hb w H) as [I1 [evs1 [E1 F1]]].
  destruct (body w) as [[a | e] w1]; simpl in *.
  - split; [exact I1 |]. exists evs1. auto.
  - destruct (Hh e w1 I1) as [I2 [evs2 [E2 F2]]].
    split; [exact I2 |].
    exists (evs1 ++ evs2). rewrite E2, E1, app_assoc.
    split; [reflexivity | apply Forall_app; auto].
Qed.

Lemma steadyW_for_each {A} (l : list A) (body : A -> W unit) :
  (forall x, steadyW I P (body x)) -> steadyW I P (for_each l body).
Proof.
  intros Hb. induction l as [| x l IH]; simpl.
  - apply steadyW_ret.
  - apply steadyW_bind; auto.
Qed.

Lemma steadyW_outcome {A} (o : outcome A) : steadyW I P (fun w => (o, w)).
Proof.
  intros w H. split; [exact H |]. exists []. simpl. rewrite app_nil_r. auto.
Qed.

(** [I] does not look at the effects. *)
Hypothesis I_effects : forall l w, I w -> I (set_effects l w).

Lemma steadyW_perform ev : P ev -> steadyW I P (perform ev).
Proof.
  intros HP w H. split; [now apply I_effects |]. exists [ev]. simpl. auto.
Qed.

Lemma steadyW_call {A} ev (o : outcome A) : P ev -> steadyW I P (callW ev o).
Proof.
  intros HP. unfold callW. apply steadyW_bind; [now apply steadyW_perform |].
  intros _. apply steadyW_outcome.
Qed.

Lemma steadyW_with {A} block key (body : W A) :
  P (Enter block key) -> P (Exit block key) ->
  steadyW I P body -> steadyW I P (with_ block key body).
Proof.
  intros Hen Hex Hb. unfold with_.
  apply steadyW_bind; [now apply steadyW_perform |].
  intros _ w H. destruct (Hb w H) as [I1 [evs [E F]]].
  destruct (body w) as [o w1]. simpl in *. split; [now apply I_effects |].
  exists (evs ++ [Exit block key]). rewrite E, app_assoc.
  split; [reflexivity |]. apply Forall_app. auto.
Qed.

(** [I] does not look at the state of the pipeline. *)
Hypothesis I_pipeline : forall s w, I w -> I (set_pipeline_state s w).

Lemma steadyW_lift {A} (m : M A) : steadyW I P (lift m).
Proof.
  intros w H. unfold lift. destruct (m (pipeline_state w)) as [o s].
  simpl. split; [now apply I_pipeline |].
  exists []. rewrite app_nil_r. auto.
Qed.

Lemma steadyW_store_call {A} ev
    (f : gmap string (gmap string StoredVector)
         -> outcome A * gmap string (gmap string StoredVector)) :
  P ev -> steadyW I P (store_call ev f).
Proof.
  intros HP. unfold store_call.
  apply steadyW_bind; [now apply steadyW_perform |].
  intros _ w H. destruct (f (collections (pipeline_state w))) as [o c].
  simpl. split; [now apply I_pipeline |].
  exists []. rewrite app_nil_r. auto.
Qed.

End SteadyW.

Section TotalW.

Variable I : world -> Prop.

Lemma totalW_ret {A} (a : A) : totalW I (retW a).
Proof. intros w H. simpl. eauto. Qed.

Lemma totalW_bind {A B} (m : W A) (k : A -> W B) :
  totalW I m -> (forall a, totalW I (k a)) -> totalW I (bindW m k).
Proof.
  intros Hm Hk w H. unfold bindW.
  destruct (Hm w H) as [I1 [a E]].
  destruct (m w) as [o w1]. simpl in *. subst o. now apply Hk.
Qed.

Lemma totalW_for_each {A} (l : list A) (body : A -> W unit) :
  (forall x, totalW I (body x)) -> totalW I (for_each l body).
Proof.
  intros Hb. induction l as [| x l IH]; simpl.
  - apply totalW_ret.
  - apply totalW_bind; auto.
Qed.

Hypothesis I_effects : forall l w, I w -> I (set_effects l w).

Lemma totalW_perform ev : totalW I (perform ev).
Proof. intros w H. simpl. split; [now apply I_effects | eauto]. Qed.

Lemma totalW_with {A} block key (body : W A) :
  totalW I body -> totalW I (with_ block key body).
Proof.
  intros Hb. unfold with_. apply totalW_bind; [apply totalW_perform |].
  intros _ w H. destruct (Hb w H) as [I1 [a E]].
  destruct (body w) as [o w1]. simpl in *. split; [now apply I_effects |].
  eauto.
Qed.

End TotalW.

(** ** Extraction of the text of a PDF *)

Lemma string_of_list_ascii_app (l1 l2 : list ascii) :
  string_of_list_ascii (l1 ++ l2)
  = (string_of_list_ascii l1 ++ string_of_list_ascii l2)%string.
Proof. induction l1 as [| c l1 IH]; simpl; [reflexivity | now rewrite IH]. Qed.

Lemma lower_app (s1 s2 : string) :
  lower (s1 ++ s2) = (lower s1 ++ lower s2)%string.
Proof.
  unfold lower.
  now rewrite list_ascii_of_string_app, map_app, string_of_list_ascii_app.
Qed.

Lemma endswith_suffix (s suffix : string) :
  endswith s suffix = true <-> exists pre, s = (pre ++ suffix)%string.
Proof.
  unfold endswith. rewrite bool_decide_eq_true. split.
  - set (l := list_ascii_of_string s).
    set (k := (length l - length (list_ascii_of_string suffix))%nat).
    intros H. exists (string_of_list_ascii (firstn k l)).
    rewrite <- (string_of_list_ascii_of_string s).
    fold l. rewrite <- (firstn_skipn k l) at 1.
    rewrite string_of_list_ascii_app, H.
    now rewrite string_of_list_ascii_of_string.
  - intros [pre ->]. rewrite list_ascii_of_string_app, length_app.
    replace (length (list_ascii_of_string pre)
             + length (list_ascii_of_string suffix)
             - length (list_ascii_of_string suffix))%nat
      with (length (list_ascii_of_string pre)) by lia.
    apply drop_app_length.
Qed.

(** X15. [is_valid_pdf] accepts a path exactly when the file system has a
    file there and the path ends in ".pdf", in any mix of upper and lower
    case. *)
Theorem is_valid_pdf_extension O path w :
  fst (is_valid_pdf O path w) = Return true
  <-> os_path_isfile O (disk w) path = true
      /\ exists stem ext, path = (stem ++ ext)%string /\ lower ext = ".pdf".
Proof.
  unfold is_valid_pdf. simpl. split.
  - intros H. injection H as H. apply andb_prop in H. destruct H as [Hf He].
    split; [exact Hf |].
    apply endswith_suffix in He. destruct He as [pre He].
    apply (f_equal list_ascii_of_string) in He.
    unfold lower in He.
    rewrite list_ascii_of_string_of_list_ascii, list_ascii_of_string_app in He.
    apply fmap_app_inv in He. destruct He as [l1 [l2 [H1 [H2 H3]]]].
    exists (string_of_list_ascii l1), (string_of_list_ascii l2). split.
    + rewrite <- string_of_list_ascii_app, <- H3.
      symmetry. apply string_of_list_ascii_of_string.
    + unfold lower. rewrite list_ascii_of_string_of_list_ascii.
      change (map lower_char l2) with (lower_char <$> l2). rewrite <- H2.
      apply string_of_list_ascii_of_string.
  - intros [Hf [stem [ext [-> He]]]]. rewrite Hf. simpl. f_equal.
    apply endswith_suffix. exists (lower stem). now rewrite lower_app, He.
Qed.

Section Extraction.

Variable O : Outside.

Lemma same_but_effects_refl w : same_but_effects w w.
Proof. repeat split. Qed.

Lemma steadyW_extract_pages (I : world -> Prop) (P : effect -> Prop)
    pages text :
  (forall l w, I w -> I (set_effects l w)) ->
  (forall page, P (Call_extract_text page)) ->
  steadyW I P (extract_pages O pages text).
Proof.
  intros HI HP. revert text. induction pages as [| next pages IH];
    intros text; simpl.
  - apply steadyW_ret.
  - apply steadyW_bind; [apply steadyW_outcome | intros page].
    apply steadyW_bind; [now apply steadyW_call | intros t].
    apply IH.
Qed.

(** The loop over the pages returns the texts of the pages, in order, added
    to [text]. *)
Lemma extract_pages_Return pages text w t w' :
  extract_pages O pages text w = (Return t, w') ->
  exists page_texts,
    Forall2 (page_text_of O) pages page_texts
    /\ t = fold_left String.append (map or_empty page_texts) text.
Proof.
  revert text w. induction pages as [| next pages IH]; intros text w; simpl.
  - intros H. injection H as <- _. exists []. split; [constructor | reflexivity].
  - unfold bindW at 1. destruct next as [page | e]; [| discriminate].
    unfold bindW at 1, callW, bindW, perform. simpl.
    destruct (page_extract_text O page) as [pt | e] eqn:Ep; [| discriminate].
    intros H. apply IH in H. destruct H as [pts [F ->]].
    exists (pt :: pts). split; [| reflexivity].
    constructor; [| exact F]. now exists page.
Qed.

Lemma extract_text_from_pdf_returns pdf_path w :
  exists r, fst (extract_text_from_pdf O pdf_path w) = Return r.
Proof.
  unfold extract_text_from_pdf, bindW at 1, is_valid_pdf. simpl.
  destruct (negb _); [simpl; eauto |].
  unfold try_exceptW.
  match goal with
  | |- context [match ?b w with _ => _ end] => destruct (b w) as [[a | e] w1]
  end; simpl; eauto.
Qed.

Lemma extract_text_from_pdf_same pdf_path w :
  same_but_effects w (snd (extract_text_from_pdf O pdf_path w)).
Proof.
  assert (Hs : steadyW (same_but_effects w) (fun _ => True)
                 (extract_text_from_pdf O pdf_path)).
  { unfold extract_text_from_pdf.
    apply steadyW_bind; [| intros valid].
    - intros w0 H. split; [exact H |]. exists []. simpl.
      rewrite app_nil_r. auto.
    - destruct (negb valid); [apply steadyW_ret |].
      apply steadyW_try_except.
      + apply steadyW_bind.
        * intros w0 H.
          apply (steadyW_call (same_but_effects w) (fun _ => True)); auto.
        * intros reader. apply steadyW_bind; [apply steadyW_call; auto |].
          intros pages. apply steadyW_bind; [| intros; apply steadyW_ret].
          apply steadyW_extract_pages; auto.
      + intros e. apply steadyW_bind; [| intros; apply steadyW_ret].
        apply steadyW_perform; auto. }
  apply Hs. apply same_but_effects_refl.
Qed.

(** X16. [extract_text_from_pdf] never raises, and touches nothing but the
    output: the pipeline, the files and the session are as before.  For a
    path that [is_valid_pdf] rejects it returns [None] without opening
    anything. *)
Theorem extract_text_from_pdf_never_raises pdf_path w :
  exists r w',
    extract_text_from_pdf O pdf_path w = (Return r, w')
    /\ same_but_effects w w'
    /\ (fst (is_valid_pdf O pdf_path w) = Return false ->
        r = None /\ w' = w).
Proof.
  destruct (extract_text_from_pdf_returns pdf_path w) as [r Er].
  pose proof (extract_text_from_pdf_same pdf_path w) as Hs.
  destruct (extract_text_from_pdf O pdf_path w) as [o w'] eqn:E.
  simpl in Er, Hs. subst o.
  exists r, w'. split; [reflexivity |]. split; [exact Hs |].
  intros Hv. revert E.
  unfold extract_text_from_pdf, bindW at 1. simpl in Hv.
  unfold is_valid_pdf at 1. injection Hv as ->. simpl.
  intros H. now injection H as <- <-.
Qed.

(** X17. A text that [extract_text_from_pdf] returns is not blank: it holds
    a character that is not whitespace.  It is the text of the pages of the
    file, in order, one after the other, a page without text counting as
    empty; no page failed, and nothing was printed. *)
Theorem extracted_text_is_pages pdf_path w text w' :
  extract_text_from_pdf O pdf_path w = (Return (Some text), w') ->
  ~ blank text
  /\ exists reader pages page_texts,
       PdfReader O (disk w) pdf_path = Return reader
       /\ reader_pages O reader = Return pages
       /\ Forall2 (page_text_of O) pages page_texts
       /\ text = joined_pages page_texts
       /\ exists evs, effects w' = effects w ++ evs
                      /\ Forall (fun ev => forall line, ev <> Print line) evs.
Proof.
  unfold extract_text_from_pdf, bindW at 1, is_valid_pdf. simpl.
  destruct (os_path_isfile O (disk w) pdf_path
            && endswith (lower pdf_path) ".pdf"); simpl; [| discriminate].
  unfold try_exceptW, bindW, callW, bindW, perform. simpl.
  destruct (PdfReader O (disk w) pdf_path) as [reader | e] eqn:Er;
    [| discriminate].
  simpl.
  destruct (reader_pages O reader) as [pages | e] eqn:Ep; [| discriminate].
  simpl.
  match goal with
  | |- context [extract_pages O pages "" ?w0] =>
      destruct (steadyW_extract_pages (fun _ => True)
                  (fun ev => forall line, ev <> Print line) pages ""
                  ltac:(auto) ltac:(discriminate) w0 Logic.I)
        as [_ [evs [E F]]];
      destruct (extract_pages O pages "" w0) as [[t | e] w1] eqn:Ex
  end; [| discriminate].
  simpl in E. unfold retW.
  destruct (str_strip t) as [| c rest] eqn:Es; [discriminate |].
  intros H. injection H as -> ->.
  split; [intros Hb; apply str_strip_blank in Hb; congruence |].
  apply extract_pages_Return in Ex. destruct Ex as [pts [F2 Ht]].
  exists reader, pages, pts.
  split; [reflexivity |]. split; [exact Ep |]. split; [exact F2 |].
  split; [exact Ht |].
  exists ([Call_PdfReader pdf_path; Call_pages reader] ++ evs).
  split.
  - rewrite E. now rewrite <- !app_assoc.
  - apply Forall_app. split; [| exact F].
    repeat constructor; discriminate.
Qed.

End Extraction.

Lemma extracted_text_is_pages_witness :
  exists reader pages page_texts,
    PdfReader DemoApp.outside (disk DemoApp.loaded) "data/doc1.pdf"
      = Return reader
    /\ reader_pages DemoApp.outside reader = Return pages
    /\ Forall2 (page_text_of DemoApp.outside) pages page_texts
    /\ "The capital of France is Paris." = joined_pages page_texts.
Proof.
  destruct (extracted_text_is_pages DemoApp.outside "data/doc1.pdf"
              DemoApp.loaded "The capital of France is Paris."
              (snd (extract_text_from_pdf DemoApp.outside "data/doc1.pdf"
                                          DemoApp.loaded)))
    as [_ [reader [pages [pts [Hr [Hp [F [Ht _]]]]]]]].
  - vm_compute. reflexivity.
  - now exists reader, pages, pts.
Defined.

(** ** Administration of the store *)

Section Administration.

Variable C : Collaborators.
Variable O : Outside.

(** X18. [clear_collection] swallows a failure of the deletion, which it
    only logs, but not a failure to get the collection, which it raises
    before anything is deleted. *)
Theorem clear_collection_outcome collection_name w :
  (forall e s1,
     get_or_create_collection C collection_name (pipeline_state w)
       = (Raise e, s1) ->
     clear_collection C O collection_name w
       = (Raise e, set_pipeline_state s1 w))
  /\ (forall collection s1,
        get_or_create_collection C collection_name (pipeline_state w)
          = (Return collection, s1) ->
        exists w',
          clear_collection C O collection_name w = (Return tt, w')
          /\ effects w' = effects w ++ [Call_collection_delete collection]
          /\ last (trace (pipeline_state w'))
             = Some (match fst (collection_delete O collection
                                                  (collections s1)) with
                     | Return _ =>
                         LogInfo ("Cleared collection: " ++ collection_name)
                     | Raise e =>
                         LogError ("Failed to clear collection: "
                                   ++ str_exn e)
                     end)).
Proof.
  split.
  - intros e s1 H. unfold clear_collection, bindW, lift. now rewrite H.
  - intros collection s1 H.
    unfold clear_collection, bindW, lift. rewrite H.
    unfold try_exceptW, store_call, bindW, perform, lift. simpl.
    destruct (collection_delete O collection (collections s1))
      as [[[] | e] c]; simpl;
      (eexists; split; [reflexivity |]; split; [reflexivity |]);
      simpl; apply last_snoc.
Qed.



End Administration.

(** ** The page: what its parts keep *)

Section Parts.

Variable C : Collaborators.
Variable O : Outside.
Variable I : world -> Prop.
Variable P : effect -> Prop.

Hypothesis I_effects : forall l w, I w -> I (set_effects l w).
Hypothesis I_pipeline : forall s w, I w -> I (set_pipeline_state s w).

Lemma steadyW_is_valid_pdf pdf_path : steadyW I P (is_valid_pdf O pdf_path).
Proof.
  intros w H. split; [exact H |]. exists []. simpl. rewrite app_nil_r. auto.
Qed.

Lemma steadyW_extract_text_from_pdf pdf_path :
  (forall ev, match ev with
              | Print _ | Call_PdfReader _ | Call_pages _
              | Call_extract_text _ => P ev
              | _ => True
              end) ->
  steadyW I P (extract_text_from_pdf O pdf_path).
Proof.
  intros HP. unfold extract_text_from_pdf.
  apply steadyW_bind; [apply steadyW_is_valid_pdf | intros valid].
  destruct (negb valid); [apply steadyW_ret |].
  apply steadyW_try_except.
  - apply steadyW_bind.
    + intros w H. apply (steadyW_call I P); auto.
      apply (HP (Call_PdfReader pdf_path)).
    + intros reader. apply steadyW_bind.
      * apply steadyW_call; auto. apply (HP (Call_pages reader)).
      * intros pages. apply steadyW_bind; [| intros; apply steadyW_ret].
        apply steadyW_extract_pages; auto.
        intros page. apply (HP (Call_extract_text page)).
  - intros e. apply steadyW_bind; [| intros; apply steadyW_ret].
    apply steadyW_perform; auto. apply (HP (Print _)).
Qed.

Lemma steadyW_delete_collections client names :
  (forall name, P (Call_delete_collection client name)) ->
  steadyW I P (delete_collections O client names).
Proof.
  intros HP. induction names as [| name names IH]; simpl.
  - apply steadyW_ret.
  - apply steadyW_bind; [now apply steadyW_store_call | auto].
Qed.

Lemma steadyW_reset_database :
  (forall ev, match ev with
              | Call_list_collections _ | Call_delete_collection _ _ => P ev
              | _ => True
              end) ->
  steadyW I P (reset_database C O).
Proof.
  intros HP. unfold reset_database. apply steadyW_try_except.
  - apply steadyW_bind; [now apply steadyW_lift | intros client].
    apply steadyW_bind.
    + apply steadyW_store_call; auto.
      apply (HP (Call_list_collections client)).
    + intros names. apply steadyW_bind; [| intros; now apply steadyW_lift].
      apply steadyW_delete_collections; auto.
      intros name. apply (HP (Call_delete_collection client name)).
  - intros e. now apply steadyW_lift.
Qed.

Lemma reset_database_returns w :
  fst (reset_database C O w) = Return tt.
Proof.
  unfold reset_database, try_exceptW.
  match goal with
  | |- context [match ?b w with _ => _ end] =>
      destruct (b w) as [[[] | e] w1] eqn:E
  end; [reflexivity |].
  unfold lift, logger_error, emit. reflexivity.
Qed.

Lemma steadyW_session_get {A} (field : SessionState -> option A) key :
  steadyW I P (session_get field key).
Proof.
  intros w H. unfold session_get.
  destruct (field (session_state w)); simpl;
    (split; [exact H |]); exists []; rewrite app_nil_r; auto.
Qed.

End Parts.

(** ** The upload *)

Section Uploading.

Variable C : Collaborators.
Variable O : Outside.
Variable I : world -> Prop.
Variable P : effect -> Prop.
Variable names : list string.

Hypothesis I_effects : forall l w, I w -> I (set_effects l w).
Hypothesis I_pipeline : forall s w, I w -> I (set_pipeline_state s w).
Hypothesis I_disk : forall d w, I w -> I (set_disk d w).
Hypothesis I_mark :
  forall w l name,
    I w -> loaded_pdfs (session_state w) = Some l ->
    existsb (String.eqb name) l = false -> In name names ->
    I (snd (set_loaded_pdfs (l ++ [name]) w)).
Hypothesis P_upload :
  forall ev, match ev with
             | Call_write_file _ _ | Print _ | Call_PdfReader _
             | Call_pages _ | Call_extract_text _ | Progress_update _ _ =>
                 P ev
             | St function _ => function = "error" -> P ev
             | _ => True
             end.

Lemma steadyW_process_upload total idx uploaded_file :
  In (file_name uploaded_file) names ->
  steadyW I P (process_upload C O total idx uploaded_file).
Proof.
  intros Hin. unfold process_upload. apply steadyW_bind.
  - intros w H. unfold write_binary.
    destruct (write_file O _ (file_data uploaded_file) (disk w)) as [o d].
    simpl. split; [now apply I_disk, I_effects |].
    eexists. split; [reflexivity |]. repeat constructor.
    apply (P_upload (Call_write_file _ _)).
  - intros _. apply steadyW_bind.
    + apply steadyW_extract_text_from_pdf; auto.
      intros ev. pose proof (P_upload ev) as Hev. destruct ev; auto.
    + assert (Herr : steadyW I P
                (display_error ("Failed to extract text from "
                                ++ file_name uploaded_file ++ "."))).
      { apply steadyW_perform; auto.
        now apply (P_upload (St "error" _)). }
      intros [[| c text] |]; try exact Herr.
      apply steadyW_bind; [now apply steadyW_lift | intros embeddings].
      apply steadyW_bind; [now apply steadyW_lift | intros _].
      intros w H. unfold bindW, session_get.
      destruct (loaded_pdfs (session_state w)) as [l |] eqn:El; simpl.
      * destruct (existsb (String.eqb (file_name uploaded_file)) l) eqn:Ex;
          simpl.
        -- split; [now apply I_effects |].
           eexists. split; [reflexivity |]. repeat constructor.
           apply (P_upload (Progress_update _ _)).
        -- split; [apply I_effects; now apply (I_mark w l) |].
           eexists. split; [reflexivity |]. repeat constructor.
           apply (P_upload (Progress_update _ _)).
      * split; [exact H |]. exists []. rewrite app_nil_r. auto.
Qed.

Lemma steadyW_process_uploads total idx files :
  incl (map file_name files) names ->
  steadyW I P (process_uploads C O total idx files).
Proof.
  revert idx. induction files as [| f files IH]; intros idx Hincl; simpl.
  - apply steadyW_ret.
  - apply steadyW_bind.
    + apply steadyW_process_upload. apply Hincl. simpl. auto.
    + intros _. apply IH. intros x Hx. apply Hincl. simpl. auto.
Qed.

End Uploading.

(** ** The session state *)


(** ** Uploading *)

Section Upload.

Variable C : Collaborators.
Variable O : Outside.

(** Writing a file touches the files and nothing else. *)
Lemma write_binary_same path data w :
  pipeline_state (snd (write_binary O path data w)) = pipeline_state w
  /\ session_state (snd (write_binary O path data w)) = session_state w.
Proof.
  unfold write_binary. destruct (write_file O path data (disk w)). auto.
Qed.

(** X21. A PDF whose text cannot be extracted is reported and skipped:
    when [extract_text_from_pdf] gives [None] (or an empty text) for the
    file just written, the loop displays "Failed to extract text from
    <name>." and goes on with the next file; nothing is embedded or stored
    for it, and the session is as before. *)
Theorem failed_extraction_skips_file
    total idx uploaded_file rest w w1 r w2 :
  write_binary O (os_path_join DATA_DIR (file_name uploaded_file))
               (file_data uploaded_file) w = (Return tt, w1) ->
  extract_text_from_pdf O (os_path_join DATA_DIR (file_name uploaded_file))
                        w1 = (Return r, w2) ->
  r = None \/ r = Some "" ->
  process_uploads C O total idx (uploaded_file :: rest) w
  = process_uploads C O total (S idx) rest
      (snd (display_error ("Failed to extract text from "
                           ++ file_name uploaded_file ++ ".") w2))
  /\ pipeline_state w2 = pipeline_state w
  /\ session_state w2 = session_state w.
Proof.
  intros Hw He Hr. split.
  - simpl. unfold bindW at 1, process_upload, bindW at 1.
    rewrite Hw. unfold bindW at 1. rewrite He.
    destruct Hr as [-> | ->]; reflexivity.
  - destruct (write_binary_same
                (os_path_join DATA_DIR (file_name uploaded_file))
                (file_data uploaded_file) w) as [Hp1 Hs1].
    destruct (extract_text_from_pdf_same O
                (os_path_join DATA_DIR (file_name uploaded_file)) w1)
      as [Hp2 [_ Hs2]].
    rewrite Hw in Hp1, Hs1. rewrite He in Hp2, Hs2. simpl in *.
    split; congruence.
Qed.

(** X22. A failure of the indexing is not caught: when [embed_chunks] or
    [store_embeddings] raises for a file whose text was extracted, the
    loop raises the same exception at once.  The world is the one the
    failure left: the files after it are not touched, and the file is not
    added to the loaded PDFs. *)
Theorem indexing_failure_aborts_batch
    total idx uploaded_file rest w w1 text w2 e s3 :
  write_binary O (os_path_join DATA_DIR (file_name uploaded_file))
               (file_data uploaded_file) w = (Return tt, w1) ->
  extract_text_from_pdf O (os_path_join DATA_DIR (file_name uploaded_file))
                        w1 = (Return (Some text), w2) ->
  text <> "" ->
  embed_chunks C (chunk_text text 1000 150) (pipeline_state w2)
    = (Raise e, s3)
  \/ (exists embeddings s,
        embed_chunks C (chunk_text text 1000 150) (pipeline_state w2)
          = (Return embeddings, s)
        /\ store_embeddings C embeddings (chunk_text text 1000 150)
                            (file_name uploaded_file) COLLECTION_NAME s
           = (Raise e, s3)) ->
  process_uploads C O total idx (uploaded_file :: rest) w
  = (Raise e, set_pipeline_state s3 w2)
  /\ session_state w2 = session_state w.
Proof.
  intros Hw He Ht Hfail. split.
  - simpl. unfold bindW at 1, process_upload, bindW at 1.
    rewrite Hw. unfold bindW at 1. rewrite He.
    destruct text as [| c text]; [congruence |].
    unfold bindW at 1, lift at 1.
    destruct Hfail as [H | [embeddings [s [H1 H2]]]].
    + now rewrite H.
    + rewrite H1. unfold bindW at 1, lift at 1.
      cbn [pipeline_state set_pipeline_state]. now rewrite H2.
  - destruct (write_binary_same
                (os_path_join DATA_DIR (file_name uploaded_file))
                (file_data uploaded_file) w) as [_ Hs1].
    destruct (extract_text_from_pdf_same O
                (os_path_join DATA_DIR (file_name uploaded_file)) w1)
      as [_ [_ Hs2]].
    rewrite Hw in Hs1. rewrite He in Hs2. simpl in *. congruence.
Qed.

(** X23. An upload that raises leaves the page busy: whenever [upload]
    raises, [st.session_state.processing] is left [True], the progress bar
    was not emptied and "All PDFs processed and indexed!" was not
    displayed. *)
Theorem upload_failure_leaves_processing files w e w' :
  upload C O files w = (Raise e, w') ->
  processing (session_state w') = Some true
  /\ exists evs,
       effects w' = effects w ++ evs
       /\ Forall (fun ev => ~ ends_upload ev) evs.
Proof.
  unfold upload, bindW at 1 2, perform at 1 2.
  cbn [fst snd effects set_effects].
  destruct files as [| f files]; [discriminate |].
  remember (f :: files) as fs eqn:Efs. clear Efs.
  unfold bindW at 1, set_processing at 1.
  unfold bindW at 1, perform at 1.
  unfold bindW at 1.
  match goal with
  | |- context [process_uploads C O ?n 0 ?fs ?w1] =>
      destruct (steadyW_process_uploads C O
                  (fun w0 => processing (session_state w0) = Some true)
                  (fun ev => ~ ends_upload ev)
                  (map file_name fs)
                  ltac:(auto) ltac:(auto) ltac:(auto) ltac:(auto)
                  ltac:(intros []; auto; unfold ends_upload;
                        intros; intros [|]; congruence)
                  n 0%nat fs ltac:(apply incl_refl) w1 eq_refl)
        as [Hp [evs [E F]]];
      destruct (process_uploads C O n 0 fs w1) as [[[] | e0] w2]
  end.
  - discriminate.
  - intros H. injection H as <- <-. simpl in *. split; [exact Hp |].
    eexists. rewrite E, <- !app_assoc. split; [reflexivity |].
    simpl.
    repeat (constructor; [unfold ends_upload; intros [|]; discriminate |]).
    exact F.
Qed.

End Upload.

Lemma failed_extraction_skips_file_witness :
  process_uploads DemoApp.working DemoApp.outside 2 0
                  [DemoApp.notes; DemoApp.doc1] DemoApp.start
  = process_uploads DemoApp.working DemoApp.outside 2 1 [DemoApp.doc1]
      {| pipeline_state := Demo.fresh;
         disk := <["data/notes.pdf" := []]> ∅;
         effects :=
           [ Call_write_file "data/notes.pdf" [];
             Call_PdfReader "data/notes.pdf";
             Print "Error reading PDF data/notes.pdf: EOF marker not found";
             St "error" "❌ Failed to extract text from notes.pdf." ];
         session_state := session_state DemoApp.start |}.
Proof.
  destruct (failed_extraction_skips_file DemoApp.working DemoApp.outside
              2 0 DemoApp.notes [DemoApp.doc1] DemoApp.start
              (snd (write_binary DemoApp.outside "data/notes.pdf" []
                                 DemoApp.start))
              None
              (snd (extract_text_from_pdf DemoApp.outside "data/notes.pdf"
                      (snd (write_binary DemoApp.outside "data/notes.pdf" []
                                         DemoApp.start)))))
    as [H _].
  - reflexivity.
  - vm_compute. reflexivity.
  - now left.
  - exact H.
Defined.

Lemma indexing_failure_aborts_batch_witness :
  exists w',
    process_uploads DemoApp.no_encoder DemoApp.outside 2 0
                    [DemoApp.doc1; DemoApp.notes] DemoApp.start
    = (Raise (Exception "encoder crashed"), w')
    /\ loaded_pdfs (session_state w') = None
    /\ disk w' = <["data/doc1.pdf" := DemoApp.pdf_bytes]> ∅.
Proof.
  destruct (indexing_failure_aborts_batch DemoApp.no_encoder DemoApp.outside
              2 0 DemoApp.doc1 [DemoApp.notes] DemoApp.start
              (snd (write_binary DemoApp.outside "data/doc1.pdf"
                                 DemoApp.pdf_bytes DemoApp.start))
              "The capital of France is Paris."
              (snd (extract_text_from_pdf DemoApp.outside "data/doc1.pdf"
                      (snd (write_binary DemoApp.outside "data/doc1.pdf"
                                         DemoApp.pdf_bytes DemoApp.start))))
              (Exception "encoder crashed")
              (snd (embed_chunks DemoApp.no_encoder
                      (chunk_text "The capital of France is Paris." 1000 150)
                      Demo.fresh)))
    as [H Hs].
  - reflexivity.
  - vm_compute. reflexivity.
  - discriminate.
  - left. vm_compute. reflexivity.
  - eexists. split; [exact H |]. split; reflexivity.
Defined.

Lemma upload_failure_leaves_processing_witness :
  processing
    (session_state
       (snd (upload DemoApp.no_encoder DemoApp.outside
                    [DemoApp.doc1; DemoApp.notes] DemoApp.start)))
  = Some true.
Proof.
  apply (upload_failure_leaves_processing DemoApp.no_encoder DemoApp.outside
           [DemoApp.doc1; DemoApp.notes] DemoApp.start
           (Exception "encoder crashed")).
  vm_compute. reflexivity.
Defined.

(** ** Displaying *)

Section Renders.

Variable P : effect -> Prop.

Lemma rendersW_ret : rendersW P (retW tt).
Proof.
  intros w. exists []. rewrite app_nil_r. split; [| constructor].
  now destruct w.
Qed.

Lemma rendersW_perform ev : P ev -> rendersW P (perform ev).
Proof. intros HP w. exists [ev]. split; [reflexivity | auto]. Qed.

Lemma rendersW_bind (m : W unit) (k : unit -> W unit) :
  rendersW P m -> (forall u, rendersW P (k u)) -> rendersW P (bindW m k).
Proof.
  intros Hm Hk w. unfold bindW.
  destruct (Hm w) as [evs1 [E1 F1]]. rewrite E1.
  destruct (Hk tt (set_effects (effects w ++ evs1) w)) as [evs2 [E2 F2]].
  rewrite E2. exists (evs1 ++ evs2). simpl. rewrite app_assoc.
  split; [reflexivity | apply Forall_app; auto].
Qed.

Lemma rendersW_with block key (body : W unit) :
  P (Enter block key) -> P (Exit block key) ->
  rendersW P body -> rendersW P (with_ block key body).
Proof.
  intros Hen Hex Hb w. unfold with_, bindW, perform. simpl.
  destruct (Hb (set_effects (effects w ++ [Enter block key]) w))
    as [evs [E F]].
  rewrite E. simpl. exists ([Enter block key] ++ evs ++ [Exit block key]).
  rewrite !app_assoc. split; [reflexivity |].
  repeat (apply Forall_app; split); auto.
Qed.

Lemma rendersW_for_each {A} (l : list A) (body : A -> W unit) :
  (forall x, rendersW P (body x)) -> rendersW P (for_each l body).
Proof.
  intros Hb. induction l as [| x l IH]; simpl.
  - apply rendersW_ret.
  - apply rendersW_bind; auto.
Qed.

End Renders.

Section Rendering.

Variable O : Outside.

Lemma rendersW_show_sources_from idx sources :
  rendersW is_layout (show_sources_from O idx sources).
Proof.
  revert idx. induction sources as [| src rest IH]; intros idx; simpl.
  - apply rendersW_ret.
  - apply rendersW_bind; [| auto].
    unfold show_source. apply rendersW_with; simpl; auto.
    apply rendersW_perform. simpl. split; discriminate.
Qed.

Lemma rendersW_show_message msg : rendersW is_layout (show_message O msg).
Proof.
  unfold show_message. destruct (role msg =? "user")%string.
  - apply rendersW_perform. simpl. split; discriminate.
  - apply rendersW_bind;
      [apply rendersW_perform; simpl; split; discriminate | intros _].
    apply rendersW_bind.
    + destruct (message_sources msg) as [[| src rest] |];
        try apply rendersW_ret.
      apply rendersW_show_sources_from.
    + intros _. destruct (message_confidence msg);
        [| apply rendersW_ret].
      apply rendersW_perform. simpl. split; discriminate.
Qed.

Lemma rendersW_limitations : rendersW is_layout limitations.
Proof.
  unfold limitations.
  apply rendersW_bind; [apply rendersW_perform; simpl; auto | intros _].
  apply rendersW_with; simpl; auto.
  apply rendersW_perform. simpl. split; discriminate.
Qed.

End Rendering.

(** ** The chat *)

Section Chat.

Variable C : Collaborators.
Variable O : Outside.

(** X24. What a submitted question does to the chat.  With a PDF loaded and
    a non-empty question, [answer_question] is run once, on the question as
    typed.  A result with a non-empty error is displayed as an error, and
    the history is left as it was.  Any other result, also one with a null
    answer or with an empty error text, is appended to the history as an
    exchange: the question, then a reply that is never empty (the answer,
    or "Sorry, I couldn't find an answer."), with the sources and the
    confidence of the result; then the script is rerun. *)
Theorem chat_outcome question w pdf pdfs history r s' :
  loaded_pdfs (session_state w) = Some (pdf :: pdfs) ->
  chat_history (session_state w) = Some history ->
  question <> "" ->
  answer_question C question 5 "pdf_chunks" "google/flan-t5-base"
                  (pipeline_state w) = (Return r, s') ->
  exists w' evs,
    chat C O question true w = (Return tt, w')
    /\ pipeline_state w' = s'
    /\ effects w' = effects w ++ evs
    /\ loaded_pdfs (session_state w') = Some (pdf :: pdfs)
    /\ match error r with
       | Some (String c msg) =>
           chat_history (session_state w') = Some history
           /\ In (St "error" ("❌ " ++ String c msg)) evs
           /\ ~ In St_rerun evs
       | _ =>
           chat_history (session_state w')
           = Some (history
                   ++ [ {| role := "user"; content := question;
                           message_sources := None;
                           message_confidence := None |};
                        {| role := "assistant";
                           content :=
                             or_default (answer r)
                                        "Sorry, I couldn't find an answer.";
                           message_sources := Some (sources r);
                           message_confidence := Some (confidence r) |} ])
           /\ or_default (answer r) "Sorry, I couldn't find an answer." <> ""
           /\ last evs = Some St_rerun
           /\ (forall text, ~ In (St "error" text) evs)
       end.
Proof.
  intros Hp Hh Hq Ha.
  assert (Hform : rendersW is_layout
            (with_ "form" "chat_form"
               (let* _ := perform
                            (St "text_input"
                                "Type your question about the PDFs:") in
                perform (St "form_submit_button" "Ask")))).
  { apply rendersW_with; simpl; auto.
    apply rendersW_bind; [| intros _];
      apply rendersW_perform; simpl; split; discriminate. }
  unfold chat, bindW at 1, perform at 1. cbn [fst snd].
  unfold bindW at 1, session_get at 1.
  cbn [session_state set_effects]. rewrite Hp.
  unfold bindW at 1, session_get at 1.
  cbn [session_state set_effects]. rewrite Hh.
  unfold bindW at 1.
  match goal with
  | |- context [for_each history (show_message O) ?w1] =>
      destruct (rendersW_for_each is_layout history (show_message O)
                  (rendersW_show_message O) w1) as [evs1 [E1 F1]];
      rewrite E1
  end.
  unfold bindW at 1.
  match goal with
  | |- context [with_ "form" "chat_form" ?b ?w2] =>
      destruct (Hform w2) as [evs2 [E2 F2]]; rewrite E2
  end.
  assert (Hne : negb (question =? "")%string = true).
  { destruct (String.eqb_spec question ""); [contradiction | reflexivity]. }
  rewrite Hne. cbn [andb].
  unfold bindW at 1, with_ at 1, bindW at 1, perform at 1, lift at 1.
  cbn [fst snd pipeline_state set_effects effects]. rewrite Ha.
  cbn [effects set_pipeline_state set_effects].
  assert (Hlay : forall l, Forall is_layout l ->
                           ~ In St_rerun l
                           /\ forall text, ~ In (St "error" text) l).
  { intros l F. rewrite List.Forall_forall in F. split.
    - intros H. now apply F in H.
    - intros text H. apply F in H. simpl in H. tauto. }
  destruct (Hlay _ F1) as [R1 X1]. destruct (Hlay _ F2) as [R2 X2].
  destruct (error r) as [[| c msg] |] eqn:Ee.
  - (* an empty error text *)
    unfold bindW, session_get, set_chat_history, perform. simpl.
    rewrite Hh. simpl.
    eexists.
    exists (([St "subheader" "2. Ask Questions"] ++ evs1 ++ evs2
             ++ [Enter "spinner" "Thinking..."; Exit "spinner" "Thinking..."])
            ++ [St_rerun]).
    split; [reflexivity |]. cbn [pipeline_state effects session_state
                                 set_effects set_session_state
                                 set_pipeline_state chat_history loaded_pdfs].
    split; [reflexivity |].
    split; [now rewrite <- !app_assoc |].
    split; [exact Hp |]. rewrite <- (app_assoc history). simpl app at 1.
    split; [reflexivity |]. split.
    + destruct (answer r) as [[| c a] |]; discriminate.
    + split; [apply last_snoc |].
      intros text. rewrite !in_app_iff. simpl.
      intros H. decompose [or] H; try discriminate; try contradiction;
        firstorder.
  - (* an error *)
    unfold bindW at 1, display_error, perform at 1.
    cbn [fst snd effects set_effects].
    match goal with
    | |- context [limitations ?w3] =>
        destruct (rendersW_limitations w3) as [evs3 [E3 F3]]; rewrite E3
    end.
    destruct (Hlay _ F3) as [R3 X3].
    eexists. eexists. split; [reflexivity |].
    cbn [pipeline_state effects session_state set_effects
         set_pipeline_state].
    split; [reflexivity |]. split; [now rewrite <- !app_assoc |].
    split; [exact Hp |]. split; [exact Hh |]. split.
    + rewrite !in_app_iff. simpl. auto 10.
    + rewrite !in_app_iff. simpl.
      intros H. decompose [or] H; try discriminate; try contradiction;
        firstorder.
  - (* no error *)
    unfold bindW, session_get, set_chat_history, perform. simpl.
    rewrite Hh. simpl.
    eexists.
    exists (([St "subheader" "2. Ask Questions"] ++ evs1 ++ evs2
             ++ [Enter "spinner" "Thinking..."; Exit "spinner" "Thinking..."])
            ++ [St_rerun]).
    split; [reflexivity |]. cbn [pipeline_state effects session_state
                                 set_effects set_session_state
                                 set_pipeline_state chat_history loaded_pdfs].
    split; [reflexivity |].
    split; [now rewrite <- !app_assoc |].
    split; [exact Hp |]. rewrite <- (app_assoc history). simpl app at 1.
    split; [reflexivity |]. split.
    + destruct (answer r) as [[| c a] |]; discriminate.
    + split; [apply last_snoc |].
      intros text. rewrite !in_app_iff. simpl.
      intros H. decompose [or] H; try discriminate; try contradiction;
        firstorder.
Qed.

End Chat.

Lemma chat_outcome_witness :
  exists w',
    chat DemoApp.working DemoApp.outside Demo.question true DemoApp.loaded
    = (Return tt, w')
    /\ chat_history (session_state w')
       = Some [ {| role := "user"; content := Demo.question;
                   message_sources := None; message_confidence := None |};
                {| role := "assistant"; content := "Paris";
                   message_sources :=
                     Some [ {| source_pdf := PyStr "doc1";
                               chunk_index := PyInt 0;
                               source_score := 0.75%float |} ];
                   message_confidence := Some 0.75%float |} ].
Proof.
  destruct (chat_outcome DemoApp.working DemoApp.outside Demo.question
              DemoApp.loaded "doc1.pdf" [] []
              (packaged [ {| chunk := "The capital of France is Paris.";
                             score := 0.75%float;
                             metadata := Demo.doc1_meta |} ]
                        (Some "Paris"))
              (snd (answer_question DemoApp.working Demo.question 5
                      "pdf_chunks" "google/flan-t5-base" Demo.fresh)))
    as [w' [evs [E [_ [_ [_ [H _]]]]]]].
  - reflexivity.
  - reflexivity.
  - discriminate.
  - vm_compute. reflexivity.
  - exists w'. split; [exact E | exact H].
Defined.

(** ** The whole page *)

Lemma rendersW_steadyW (I : world -> Prop) (P : effect -> Prop) m :
  (forall l w, I w -> I (set_effects l w)) ->
  rendersW P m -> steadyW I P m.
Proof.
  intros HI Hm w H. destruct (Hm w) as [evs [E F]]. rewrite E. simpl.
  split; [now apply HI | now exists evs].
Qed.

Lemma rendersW_totalW (I : world -> Prop) (P : effect -> Prop) m :
  (forall l w, I w -> I (set_effects l w)) ->
  rendersW P m -> totalW I m.
Proof.
  intros HI Hm w H. destruct (Hm w) as [evs [E F]]. rewrite E. simpl.
  split; [now apply HI | eauto].
Qed.

Lemma rendersW_impl (P Q : effect -> Prop) m :
  (forall ev, P ev -> Q ev) -> rendersW P m -> rendersW Q m.
Proof.
  intros HPQ Hm w. destruct (Hm w) as [evs [E F]]. exists evs.
  split; [exact E |]. eapply List.Forall_impl; eauto.
Qed.

Section Page.

Variable C : Collaborators.
Variable O : Outside.
Variable I : world -> Prop.

(** [I] looks at the loaded PDFs only. *)
Hypothesis I_loaded :
  forall w w',
    loaded_pdfs (session_state w') = loaded_pdfs (session_state w) ->
    I w -> I w'.
Hypothesis I_empty : forall w, I (snd (set_loaded_pdfs [] w)).

Local Abbreviation P := any_effect.

Lemma page_effects l w : I w -> I (set_effects l w).
Proof. now apply I_loaded. Qed.

Lemma page_pipeline s w : I w -> I (set_pipeline_state s w).
Proof. now apply I_loaded. Qed.

Lemma page_disk d w : I w -> I (set_disk d w).
Proof. now apply I_loaded. Qed.

Ltac page_step :=
  first [ apply steadyW_ret
        | apply steadyW_perform; [exact page_effects | exact Logic.I]
        | apply steadyW_lift; exact page_pipeline
        | apply steadyW_session_get
        | apply steadyW_with;
            [exact page_effects | exact Logic.I | exact Logic.I |]
        | apply steadyW_for_each; intros ?
        | apply steadyW_bind; [| intros ?] ].

Lemma steadyW_set_chat_history v : steadyW I P (set_chat_history v).
Proof.
  intros w H. simpl. split; [now apply (I_loaded w) |].
  exists []. rewrite app_nil_r. auto.
Qed.

Lemma steadyW_set_processing v : steadyW I P (set_processing v).
Proof.
  intros w H. simpl. split; [now apply (I_loaded w) |].
  exists []. rewrite app_nil_r. auto.
Qed.

Lemma steadyW_set_loaded_pdfs_nil : steadyW I P (set_loaded_pdfs []).
Proof.
  intros w H. split; [apply I_empty |].
  exists []. simpl. rewrite app_nil_r. auto.
Qed.

Lemma steadyW_sidebar clear_all : steadyW I P (sidebar C O clear_all).
Proof.
  unfold sidebar, display_success.
  apply steadyW_with; [exact page_effects | exact Logic.I | exact Logic.I |].
  do 2 (apply steadyW_bind; [page_step | intros _]).
  apply steadyW_bind.
  - destruct clear_all; [| page_step].
    apply steadyW_bind; [| intros _].
    + apply steadyW_reset_database;
        [exact page_effects | exact page_pipeline | intros []; exact Logic.I].
    + apply steadyW_bind; [apply steadyW_set_loaded_pdfs_nil | intros _].
      apply steadyW_bind; [apply steadyW_set_chat_history | intros _].
      page_step.
  - intros _. apply steadyW_bind; [page_step | intros _].
    apply steadyW_bind; [page_step | intros pdfs].
    apply steadyW_bind.
    + destruct pdfs; repeat page_step.
    + intros _. repeat page_step.
Qed.

Lemma steadyW_chat question submitted :
  steadyW I P (chat C O question submitted).
Proof.
  unfold chat, display_error.
  apply steadyW_bind; [page_step | intros _].
  apply steadyW_bind; [page_step | intros pdfs].
  destruct pdfs as [| pdf pdfs]; [page_step |].
  apply steadyW_bind; [page_step | intros history].
  apply steadyW_bind.
  { apply steadyW_for_each. intros msg.
    apply (rendersW_steadyW I P); [exact page_effects |].
    eapply rendersW_impl; [| apply rendersW_show_message]. now intros. }
  intros _. apply steadyW_bind; [repeat page_step | intros _].
  assert (Hlim : steadyW I P limitations).
  { apply (rendersW_steadyW I P); [exact page_effects |].
    eapply rendersW_impl; [| apply rendersW_limitations]. now intros. }
  destruct (submitted && negb (question =? "")%string); [| exact Hlim].
  apply steadyW_bind; [repeat page_step | intros response].
  destruct (error response) as [[| c msg] |].
  - repeat first [ apply steadyW_set_chat_history | page_step ].
  - apply steadyW_bind; [page_step | intros _]. exact Hlim.
  - repeat first [ apply steadyW_set_chat_history | page_step ].
Qed.

End Page.

(** ** What the upload keeps *)

Section UploadKeeps.

Variable C : Collaborators.
Variable O : Outside.
Variable I : world -> Prop.
Variable names : list string.

Hypothesis I_effects : forall l w, I w -> I (set_effects l w).
Hypothesis I_pipeline : forall s w, I w -> I (set_pipeline_state s w).
Hypothesis I_disk : forall d w, I w -> I (set_disk d w).
Hypothesis I_processing :
  forall v w, I w -> I (snd (set_processing v w)).
Hypothesis I_mark :
  forall w l name,
    I w -> loaded_pdfs (session_state w) = Some l ->
    existsb (String.eqb name) l = false -> In name names ->
    I (snd (set_loaded_pdfs (l ++ [name]) w)).

Lemma steadyW_upload files :
  incl (map file_name files) names ->
  steadyW I any_effect (upload C O files).
Proof.
  intros Hincl. unfold upload, display_success.
  assert (Hproc : forall v, steadyW I any_effect (set_processing v)).
  { intros v w H. split; [now apply I_processing |].
    exists []. simpl. rewrite app_nil_r. auto. }
  do 2 (apply steadyW_bind;
        [apply steadyW_perform; [exact I_effects | exact Logic.I]
        | intros _]).
  destruct files as [| f files]; [apply steadyW_ret |].
  apply steadyW_bind; [apply Hproc | intros _].
  apply steadyW_bind;
    [apply steadyW_perform; [exact I_effects | exact Logic.I] | intros _].
  apply steadyW_bind.
  { apply (steadyW_process_uploads C O I any_effect names); auto.
    intros []; try exact Logic.I. intros _. exact Logic.I. }
  intros _.
  apply steadyW_bind;
    [apply steadyW_perform; [exact I_effects | exact Logic.I] | intros _].
  apply steadyW_bind; [apply Hproc | intros _].
  apply steadyW_bind;
    [apply steadyW_perform; [exact I_effects | exact Logic.I] | intros _].
  apply steadyW_perform; [exact I_effects | exact Logic.I].
Qed.

End UploadKeeps.

(** ** The loaded PDFs *)

Lemma pdfs_within_mark allowed names w l name :
  incl names allowed ->
  pdfs_within allowed w ->
  loaded_pdfs (session_state w) = Some l ->
  existsb (String.eqb name) l = false -> In name names ->
  pdfs_within allowed (snd (set_loaded_pdfs (l ++ [name]) w)).
Proof.
  unfold pdfs_within. intros Hincl H El Hex Hin. rewrite El in H.
  destruct H as [Hnd Hl]. simpl. split.
  - apply NoDup_app. split; [exact Hnd |]. split; [| apply NoDup_singleton].
    intros x Hx Hx'. apply list_elem_of_singleton in Hx'. subst x.
    apply list_elem_of_In in Hx.
    assert (Ht : existsb (String.eqb name) l = true).
    { apply existsb_exists. exists name. split; [exact Hx |].
      apply String.eqb_refl. }
    congruence.
  - intros x Hx. apply in_app_iff in Hx. destruct Hx as [Hx | [<- | []]].
    + now apply Hl.
    + now apply Hincl.
Qed.

Section LoadedPdfs.

Variable C : Collaborators.
Variable O : Outside.
Variable allowed : list string.

(** The loaded PDFs are set, listed once each, and among [allowed]. *)
Local Abbreviation I :=
  (fun w : world =>
     loaded_pdfs (session_state w) <> None /\ pdfs_within allowed w).

Lemma loaded_I_loaded w w' :
  loaded_pdfs (session_state w') = loaded_pdfs (session_state w) ->
  I w -> I w'.
Proof. unfold pdfs_within. intros ->. auto. Qed.

Lemma loaded_I_empty w : I (snd (set_loaded_pdfs [] w)).
Proof.
  split; [discriminate |]. unfold pdfs_within. simpl.
  split; [constructor | intros x []].
Qed.

Lemma steadyW_upload_loaded files :
  incl (map file_name files) allowed ->
  steadyW I any_effect (upload C O files).
Proof.
  intros Hincl.
  apply (steadyW_upload C O I (map file_name files)).
  - intros l w. now apply loaded_I_loaded.
  - intros s w. now apply loaded_I_loaded.
  - intros d w. now apply loaded_I_loaded.
  - intros v w. now apply loaded_I_loaded.
  - intros w l name [Hn Hw] El Hex Hin.
    split; [discriminate |].
    now apply (pdfs_within_mark allowed (map file_name files)).
  - apply incl_refl.
Qed.

(** X25. The list of loaded PDFs never names a document twice.  If, before
    a run of the page, it is not set or has no duplicates, then after the
    run, however it ends, it is set and has no duplicates; and if all its
    names and the names of the uploaded files are among [allowed] before,
    all its names are among [allowed] after. *)
Theorem main_keeps_loaded_pdfs inputs w :
  incl (map file_name (uploaded_files inputs)) allowed ->
  pdfs_within allowed w ->
  exists l,
    loaded_pdfs (session_state (snd (main C O inputs w))) = Some l
    /\ NoDup l /\ incl l allowed.
Proof.
  intros Hincl Hw.
  assert (HE : forall l w, I w -> I (set_effects l w))
    by (intros l w0; now apply loaded_I_loaded).
  assert (Hrest : steadyW I any_effect
            (let* _ := perform (St "title" "📄 RAG PDF Q&A Assistant") in
             let* _ := perform
                         (St "caption"
                             "Upload PDFs, ask questions, and get intelligent answers with local AI!") in
             let* _ := perform (Add_vertical_space 1) in
             let* _ := sidebar C O (clear_all_clicked inputs) in
             let* _ := upload C O (uploaded_files inputs) in
             chat C O (user_question inputs) (submit inputs))).
  { do 3 (apply steadyW_bind;
          [apply steadyW_perform; [exact HE | exact Logic.I] | intros _]).
    apply steadyW_bind; [| intros _].
    - apply (steadyW_sidebar C O I loaded_I_loaded loaded_I_empty).
    - apply steadyW_bind; [now apply steadyW_upload_loaded | intros _].
      apply (steadyW_chat C O I loaded_I_loaded). }
  assert (Hinit : I (snd (init_session_state w))).
  { unfold pdfs_within in *.
    destruct w as [s d l [[h |] [p |] [b |] [e |]]]; simpl in *;
      (split; [discriminate |]); auto;
      split; try constructor; intros x []. }
  unfold main, bindW at 1.
  destruct (init_session_state w) as [[[] | e] w0] eqn:Ei.
  - destruct (Hrest w0 Hinit) as [[Hn Hp] _]. unfold pdfs_within in Hp.
    match type of Hn with
    | ?t <> None => destruct t as [l |]; [| congruence]
    end.
    exists l. tauto.
  - exfalso. revert Ei.
    destruct w as [s d l [[h |] [p |] [b |] [e' |]]]; discriminate.
Qed.

End LoadedPdfs.

Lemma main_keeps_loaded_pdfs_witness :
  exists l,
    loaded_pdfs
      (session_state
         (snd (main DemoApp.working DemoApp.outside
                    {| clear_all_clicked := false;
                       uploaded_files := [DemoApp.doc1; DemoApp.doc1];
                       user_question := "";
                       submit := false |}
                    DemoApp.start)))
    = Some l
    /\ NoDup l /\ incl l ["doc1.pdf"].
Proof.
  apply main_keeps_loaded_pdfs.
  - intros x [<- | [<- | []]]; simpl; auto.
  - exact Logic.I.
Defined.

(** ** Clearing, and what escapes the page *)

Section Ready.

Variable C : Collaborators.
Variable O : Outside.

Lemma totalW_lift (I : world -> Prop) {A} (m : M A) :
  (forall s w, I w -> I (set_pipeline_state s w)) ->
  (forall s, exists a, fst (m s) = Return a) ->
  totalW I (lift m).
Proof.
  intros HI Hm w H. unfold lift. destruct (Hm (pipeline_state w)) as [a E].
  destruct (m (pipeline_state w)) as [o s]. simpl in *. subst o.
  split; [now apply HI | eauto].
Qed.

Lemma totalW_session_get_loaded_pdfs :
  totalW session_ready (session_get loaded_pdfs "loaded_pdfs").
Proof.
  intros w H. unfold session_get.
  destruct (loaded_pdfs (session_state w)) eqn:E; simpl; [eauto |].
  destruct H as [_ [H _]]. congruence.
Qed.

Lemma totalW_session_get_chat_history :
  totalW session_ready (session_get chat_history "chat_history").
Proof.
  intros w H. unfold session_get.
  destruct (chat_history (session_state w)) eqn:E; simpl; [eauto |].
  destruct H as [H _]. congruence.
Qed.

Lemma totalW_set_chat_history v : totalW session_ready (set_chat_history v).
Proof.
  intros w [H1 [H2 [H3 H4]]]. simpl. split; [| eauto].
  repeat split; simpl; auto; discriminate.
Qed.

Lemma totalW_set_loaded_pdfs v : totalW session_ready (set_loaded_pdfs v).
Proof.
  intros w [H1 [H2 [H3 H4]]]. simpl. split; [| eauto].
  repeat split; simpl; auto; discriminate.
Qed.

Lemma session_ready_effects l w :
  session_ready w -> session_ready (set_effects l w).
Proof. auto. Qed.

Lemma session_ready_pipeline s w :
  session_ready w -> session_ready (set_pipeline_state s w).
Proof. auto. Qed.

Ltac ready_step :=
  first [ apply totalW_ret
        | apply totalW_perform; exact session_ready_effects
        | apply totalW_session_get_loaded_pdfs
        | apply totalW_session_get_chat_history
        | apply totalW_set_chat_history
        | apply totalW_set_loaded_pdfs
        | apply totalW_with; [exact session_ready_effects |]
        | apply totalW_for_each; intros ?
        | apply totalW_bind; [| intros ?] ].

Lemma totalW_reset_database : totalW session_ready (reset_database C O).
Proof.
  intros w H. split.
  - apply (steadyW_reset_database C O session_ready any_effect); auto.
    intros []; exact Logic.I.
  - exists tt. apply reset_database_returns.
Qed.

Lemma totalW_sidebar clear_all : totalW session_ready (sidebar C O clear_all).
Proof.
  unfold sidebar, display_success.
  apply totalW_with; [exact session_ready_effects |].
  do 2 (apply totalW_bind; [ready_step | intros _]).
  apply totalW_bind.
  - destruct clear_all; [| ready_step].
    apply totalW_bind; [apply totalW_reset_database | intros _].
    repeat ready_step.
  - intros _. apply totalW_bind; [ready_step | intros _].
    apply totalW_bind; [ready_step | intros pdfs].
    apply totalW_bind.
    + destruct pdfs; repeat ready_step.
    + intros _. repeat ready_step.
Qed.

Lemma totalW_chat question submitted :
  totalW session_ready (chat C O question submitted).
Proof.
  unfold chat, display_error.
  apply totalW_bind; [ready_step | intros _].
  apply totalW_bind; [ready_step | intros pdfs].
  destruct pdfs as [| pdf pdfs]; [ready_step |].
  apply totalW_bind; [ready_step | intros history].
  apply totalW_bind.
  { apply totalW_for_each. intros msg.
    apply (rendersW_totalW session_ready is_layout);
      [exact session_ready_effects | apply rendersW_show_message]. }
  intros _. apply totalW_bind; [repeat ready_step | intros _].
  assert (Hlim : totalW session_ready limitations).
  { apply (rendersW_totalW session_ready is_layout);
      [exact session_ready_effects | apply rendersW_limitations]. }
  destruct (submitted && negb (question =? "")%string); [| exact Hlim].
  apply totalW_bind.
  { apply totalW_with; [exact session_ready_effects |].
    apply totalW_lift; [exact session_ready_pipeline |].
    intros s.
    destruct (answer_question_run C question "pdf_chunks"
                "google/flan-t5-base" 5 s) as [r [s' [E _]]].
    exists r. now rewrite E. }
  intros response. destruct (error response) as [[| c msg] |].
  - repeat ready_step.
  - apply totalW_bind; [ready_step | intros _]. exact Hlim.
  - repeat ready_step.
Qed.

Lemma init_session_state_ready w :
  exists w', init_session_state w = (Return tt, w') /\ session_ready w'.
Proof.
  destruct w as [s d l [[h |] [p |] [b |] [e |]]];
    (eexists; split; [reflexivity |]);
    unfold session_ready; simpl; repeat split; discriminate.
Qed.

(** X26. The only exceptions that escape the page are those of the upload:
    whenever [main] raises, it is [upload] that raised, in a world where
    the session was set up; with no file uploaded, [main] returns. *)
Theorem main_raises_only_from_upload inputs w :
  (forall e w',
     main C O inputs w = (Raise e, w') ->
     exists w1,
       session_ready w1
       /\ upload C O (uploaded_files inputs) w1 = (Raise e, w'))
  /\ (uploaded_files inputs = [] ->
      exists w', main C O inputs w = (Return tt, w') /\ session_ready w').
Proof.
  destruct (init_session_state_ready w) as [w0 [Ei R0]].
  assert (Hpre : totalW session_ready
            (let* _ := perform (St "title" "📄 RAG PDF Q&A Assistant") in
             let* _ := perform
                         (St "caption"
                             "Upload PDFs, ask questions, and get intelligent answers with local AI!") in
             let* _ := perform (Add_vertical_space 1) in
             sidebar C O (clear_all_clicked inputs))).
  { do 3 (apply totalW_bind; [ready_step | intros _]).
    apply totalW_sidebar. }
  destruct (Hpre w0 R0) as [R1 [[] E1]].
  assert (Hmain : main C O inputs w
                  = (let* _ := upload C O (uploaded_files inputs) in
                     chat C O (user_question inputs) (submit inputs))
                      (snd ((let* _ := perform
                                         (St "title"
                                             "📄 RAG PDF Q&A Assistant") in
                             let* _ := perform
                                         (St "caption"
                                             "Upload PDFs, ask questions, and get intelligent answers with local AI!") in
                             let* _ := perform (Add_vertical_space 1) in
                             sidebar C O (clear_all_clicked inputs)) w0))).
  { unfold main, bindW at 1. rewrite Ei. revert E1.
    unfold bindW, perform. simpl.
    destruct (sidebar C O (clear_all_clicked inputs) _) as [[[] | e] w1];
      simpl; [reflexivity | discriminate]. }
  rewrite Hmain.
  match type of R1 with session_ready ?x => set (w1 := x) in * end.
  split.
  - intros e w' H. exists w1. split; [exact R1 |].
    revert H. unfold bindW at 1.
    destruct (upload C O (uploaded_files inputs) w1) as [[[] | e1] w2] eqn:Eu.
    + assert (R2 : session_ready w2).
      { destruct (steadyW_upload C O session_ready
                    (map file_name (uploaded_files inputs))
                    session_ready_effects session_ready_pipeline
                    ltac:(auto) ltac:(intros v wx [? [? [? ?]]];
                                      repeat split; simpl; auto;
                                      discriminate)
                    ltac:(intros wx l name [? [? [? ?]]] _ _ _;
                          repeat split; simpl; auto; discriminate)
                    (uploaded_files inputs) ltac:(apply incl_refl) w1 R1)
          as [H _].
        now rewrite Eu in H. }
      destruct (totalW_chat (user_question inputs) (submit inputs) w2 R2)
        as [_ [[] Ec]].
      destruct (chat C O (user_question inputs) (submit inputs) w2)
        as [o w3]. simpl in Ec. subst o. discriminate.
    + intros H. exact H.
  - intros Hnil. rewrite Hnil. unfold bindW at 1, upload, bindW, perform.
    simpl.
    match goal with
    | |- context [chat C O ?q ?b ?w2] =>
        destruct (totalW_chat q b w2 ltac:(exact R1)) as [R3 [[] Ec]];
        destruct (chat C O q b w2) as [o w3]
    end.
    simpl in *. subst o. eauto.
Qed.

End Ready.

Section Clearing.

Variable C : Collaborators.
Variable O : Outside.

(** X27. "Clear All Data" reports success whatever the reset did: the
    sidebar returns, the loaded PDFs and the chat history are empty, and
    "Database cleared." is displayed as a success, also when
    [reset_database] failed, which only the log tells. *)
Theorem clear_all_reports_success w :
  exists w' evs,
    sidebar C O true w = (Return tt, w')
    /\ effects w' = effects w ++ evs
    /\ loaded_pdfs (session_state w') = Some []
    /\ chat_history (session_state w') = Some []
    /\ In (St "success" "✅ Database cleared.") evs
    /\ (forall text, ~ In (St "error" text) evs)
    /\ (forall e,
          chromadb_Client C CHROMA_DB_DIR = Raise e ->
          collections (pipeline_state w') = collections (pipeline_state w)
          /\ last (trace (pipeline_state w'))
             = Some (LogError ("Failed to reset database: " ++ str_exn e))).
Proof.
  unfold sidebar, with_, bindW at 1, perform at 1. cbn [fst snd].
  unfold bindW at 1, perform at 1. cbn [fst snd].
  unfold bindW at 1, perform at 1. cbn [fst snd].
  unfold bindW at 1 2.
  match goal with
  | |- context [reset_database C O ?w1] =>
      pose proof (reset_database_returns C O w1) as Hr;
      destruct (steadyW_reset_database C O
                  (fun w0 => True)
                  (fun ev => forall text, ev <> St "error" text
                                          /\ ev <> St "success" text)
                  ltac:(auto) ltac:(auto)
                  ltac:(intros []; auto; split; discriminate)
                  w1 Logic.I) as [_ [evs1 [E1 F1]]];
      assert (Hfail : forall e,
                chromadb_Client C CHROMA_DB_DIR = Raise e ->
                collections (pipeline_state (snd (reset_database C O w1)))
                = collections (pipeline_state w)
                /\ last (trace (pipeline_state
                                  (snd (reset_database C O w1))))
                   = Some (LogError ("Failed to reset database: "
                                     ++ str_exn e)));
      [ | destruct (reset_database C O w1) as [o w2] ]
  end.
  { intros e He. unfold reset_database, try_exceptW, bindW, lift,
      get_chroma_client, call, bind, emit, logger_error, emit.
    simpl. rewrite He. simpl. split; [reflexivity | apply last_snoc]. }
  simpl in Hr, E1, Hfail. subst o.
  unfold set_loaded_pdfs, set_chat_history, display_success, bindW, perform,
    session_get.
  simpl.
  eexists. eexists. split; [reflexivity |]. simpl.
  split; [rewrite E1; rewrite <- !app_assoc; reflexivity |].
  split; [reflexivity |]. split; [reflexivity |].
  rewrite List.Forall_forall in F1.
  split; [| split].
  - rewrite !in_app_iff. simpl. auto 10.
  - intros text. rewrite !in_app_iff. simpl.
    intros H.
    repeat match goal with
           | H : _ \/ _ |- _ => destruct H
           | H : False |- _ => destruct H
           | H : In _ evs1 |- _ =>
               destruct (F1 _ H text) as [Hne _]; now apply Hne
           | H : _ = St "error" _ |- _ => discriminate H
           end.
  - exact Hfail.
Qed.

End Clearing.
